(** * Radiation moment solver of quokka (radiation_system.hpp)

    A shallow embedding of the per-cell and per-face kernels of
    [RadSystem<problem_t>]: the M1 closure, the HLL interface flux, the
    IMEX stage-2 update, the state amendment, the arrow-matrix solver and
    the inner Newton-Raphson loop of the matter-radiation exchange.

    The C++ code computes on [double].  Every definition below is written
    once, over an abstract scalar type with the operations the code uses,
    and is read at two instances: the real numbers (exact arithmetic, in
    which the algebraic properties are proved) and IEEE binary64 (the
    kernel's primitive floats, on which the definitions evaluate).

    [AMREX_ASSERT] is compiled out of release builds: an assertion is not
    a step of the computation here, it is what a theorem assumes (when it
    guards an input) or has to establish (when it follows a step). *)

From Stdlib Require Import Reals Lra Psatz ZArith Bool Arith Lia.
From Stdlib Require Floats Uint63.

Set Implicit Arguments.

(** ** Scalars *)

(** The operations of [double] that the solver uses.  [s_ofZ] is an
    integer literal; a decimal literal such as [0.5] or [0.1] is the
    quotient of two integer literals, which binary64 rounds to the same
    value as the C++ literal. *)
Class Scalar (T : Type) : Type := {
  s_ofZ : Z -> T;
  s_add : T -> T -> T;
  s_sub : T -> T -> T;
  s_mul : T -> T -> T;
  s_div : T -> T -> T;
  s_opp : T -> T;
  s_sqrt : T -> T;
  s_abs : T -> T;
  s_ltb : T -> T -> bool;
  s_leb : T -> T -> bool;
  s_eqb : T -> T -> bool
}.

Declare Scope scalar_scope.
Delimit Scope scalar_scope with S.
Infix "+" := s_add : scalar_scope.
Infix "-" := s_sub : scalar_scope.
Infix "*" := s_mul : scalar_scope.
Infix "/" := s_div : scalar_scope.
Notation "- x" := (s_opp x) : scalar_scope.
Infix "<?" := s_ltb : scalar_scope.
Infix "<=?" := s_leb : scalar_scope.
Infix "=?" := s_eqb : scalar_scope.
Notation "x >? y" := (s_ltb y x) (only parsing) : scalar_scope.
Notation "x >=? y" := (s_leb y x) (only parsing) : scalar_scope.
Notation "# z" := (s_ofZ z) (at level 1, format "# z") : scalar_scope.

Definition Rltb (x y : R) : bool := if Rlt_dec x y then true else false.
Definition Rleb (x y : R) : bool := if Rle_dec x y then true else false.
Definition Reqb (x y : R) : bool := if Req_dec_T x y then true else false.

(** Exact arithmetic. *)
#[export] Instance R_scalar : Scalar R := {
  s_ofZ := IZR;
  s_add := Rplus;
  s_sub := Rminus;
  s_mul := Rmult;
  s_div := Rdiv;
  s_opp := Ropp;
  s_sqrt := sqrt;
  s_abs := Rabs;
  s_ltb := Rltb;
  s_leb := Rleb;
  s_eqb := Reqb
}.

Definition float_ofZ (z : Z) : PrimFloat.float :=
  if (z <? 0)%Z then PrimFloat.opp (PrimFloat.of_uint63 (Uint63.of_Z (- z)))
  else PrimFloat.of_uint63 (Uint63.of_Z z).

(** IEEE binary64, round to nearest even: the arithmetic of [double]. *)
#[export] Instance binary64_scalar : Scalar PrimFloat.float := {
  s_ofZ := float_ofZ;
  s_add := PrimFloat.add;
  s_sub := PrimFloat.sub;
  s_mul := PrimFloat.mul;
  s_div := PrimFloat.div;
  s_opp := PrimFloat.opp;
  s_sqrt := PrimFloat.sqrt;
  s_abs := PrimFloat.abs;
  s_ltb := PrimFloat.ltb;
  s_leb := PrimFloat.leb;
  s_eqb := PrimFloat.eqb
}.

(** ** Arrays and loops *)

(** A fixed-size array ([std::array], [quokka::valarray], the components
    of an [Array4] at one cell) is modelled by its index function; the
    code only reads and writes indices below the size. *)
Definition upd {T : Type} (a : nat -> T) (i : nat) (v : T) : nat -> T :=
  fun j => if Nat.eqb j i then v else a j.

(** [for (int g = 0; g < n; ++g) body(g)] threading the state [s]. *)
Fixpoint for_loop {St : Type} (n : nat) (body : nat -> St -> St) (s : St) : St :=
  match n with
  | O => s
  | S k => body k (for_loop k body s)
  end.

(** [AMREX_SPACEDIM], the number of space dimensions of the build. *)
Inductive SpaceDim : Type := Dim1 | Dim2 | Dim3.

(** ** Problem traits *)

(** [RadSystem_Traits<problem_t>] together with the parts of
    [Physics_Traits], [Physics_Indices] and [quokka::EOS_Traits] that the
    radiation system reads; the application specialises them per problem. *)
Record RadSystem_Traits (T : Type) : Type := {
  c_light : T;
  c_hat : T;
  radiation_constant : T;
  Erad_floor : T;
  energy_unit : T;
  beta_order : Z;
  nGroups : nat;
  numMassScalars : nat;
  hydroFirstIndex : nat;
  radFirstIndex : nat;
  EOS_gamma : T;
  boltzmann_constant : T
}.

(** The "hyper parameters of the radiation solver" declared at the top of
    radiation_system.hpp. *)
Record HyperParams (T : Type) : Type := {
  include_work_term_in_source : bool;
  use_D_as_base : bool;
  IMEX_a22 : T;
  IMEX_a32 : T;
  use_wavespeed_correction : bool
}.

(** The values the source gives them. *)
Definition source_hyper {T : Type} `{Scalar T} : HyperParams T := {|
  include_work_term_in_source := true;
  use_D_as_base := true;
  IMEX_a22 := s_ofZ 1;
  IMEX_a32 := s_div (s_ofZ 1) (s_ofZ 2);
  use_wavespeed_correction := false
|}.

Section RadSystem.

Context {T : Type} `{Scalar T}.
Variable P : RadSystem_Traits T.
Variable Hy : HyperParams T.
Variable AMREX_SPACEDIM : SpaceDim.

(** Collaborators that are not part of radiation_system.hpp: the [NAN]
    macro and [std::numeric_limits<double>::infinity()], [std::pow], the
    equation of state, the opacities that the application specialises and
    the Planck integral of planck_integral.hpp. *)
Variable NAN : T.
Variable infinity : T.
Variable std_pow : T -> T -> T.
Variable ComputeTgasFromEint : T -> T -> (nat -> T) -> T.
Variable ComputeEintTempDerivative : T -> T -> (nat -> T) -> T.
Variable ComputePlanckOpacity : T -> T -> nat -> T.
Variable ComputeEnergyMeanOpacity : T -> T -> nat -> T.
Variable ComputeFluxMeanOpacity : T -> T -> nat -> T.
Variable integrate_planck_from_0_to_x : T -> T.

Local Open Scope scalar_scope.

Definition numRadVars_ : nat := 4.
Definition nstartHyperbolic_ : nat := radFirstIndex P.
Definition nvarHyperbolic_ : nat := numRadVars_ * nGroups P.

(** [enum gasVarIndex] *)
Definition gasDensity_index : nat := hydroFirstIndex P.
Definition x1GasMomentum_index : nat := hydroFirstIndex P + 1.
Definition x2GasMomentum_index : nat := hydroFirstIndex P + 2.
Definition x3GasMomentum_index : nat := hydroFirstIndex P + 3.
Definition gasEnergy_index : nat := hydroFirstIndex P + 4.
Definition gasInternalEnergy_index : nat := hydroFirstIndex P + 5.
Definition scalar0_index : nat := hydroFirstIndex P + 6.

(** [enum radVarIndex] *)
Definition radEnergy_index : nat := nstartHyperbolic_.
Definition x1RadFlux_index : nat := nstartHyperbolic_ + 1.
Definition x2RadFlux_index : nat := nstartHyperbolic_ + 2.
Definition x3RadFlux_index : nat := nstartHyperbolic_ + 3.

(** [enum primVarIndex] *)
Definition primRadEnergy_index : nat := 0.
Definition x1ReducedFlux_index : nat := 1.
Definition x2ReducedFlux_index : nat := 2.
Definition x3ReducedFlux_index : nat := 3.

Definition c_light_ : T := c_light P.
Definition c_hat_ : T := c_hat P.
Definition nGroups_ : nat := nGroups P.
Definition nmscalars_ : nat := numMassScalars P.
Definition beta_order_ : Z := beta_order P.
Definition gamma_ : T := EOS_gamma P.
Definition boltzmann_constant_ : T := boltzmann_constant P.
Definition radiation_constant_ : T := radiation_constant P.
(** [Erad_floor_ = RadSystem_Traits::Erad_floor / nGroups_] *)
Definition Erad_floor_ : T := Erad_floor P / #(Z.of_nat nGroups_).

(** *** ConservedToPrimitive *)

(** The kernel of [ConservedToPrimitive] at one cell: [cons] and [primVar]
    are the component arrays of that cell.  The kernel asserts
    [E_r > 0.0] for every group. *)
Definition ConservedToPrimitive (cons : nat -> T) (primVar : nat -> T) : nat -> T :=
  for_loop nGroups_ (fun g primVar =>
    let E_r := cons (radEnergy_index + numRadVars_ * g)%nat in
    let Fx := cons (x1RadFlux_index + numRadVars_ * g)%nat in
    let Fy := cons (x2RadFlux_index + numRadVars_ * g)%nat in
    let Fz := cons (x3RadFlux_index + numRadVars_ * g)%nat in
    let primVar := upd primVar (primRadEnergy_index + numRadVars_ * g) E_r in
    let primVar := upd primVar (x1ReducedFlux_index + numRadVars_ * g) (Fx / (c_light_ * E_r)) in
    let primVar := upd primVar (x2ReducedFlux_index + numRadVars_ * g) (Fy / (c_light_ * E_r)) in
    let primVar := upd primVar (x3ReducedFlux_index + numRadVars_ * g) (Fz / (c_light_ * E_r)) in
    primVar) primVar.

(** The "un-reduced" flux that [ComputeFluxes] rebuilds from a primitive
    state: [Fx_L = fx_L * (c_light_ * erad_L)]. *)
Definition unreducedFlux (f erad : T) : T := f * (c_light_ * erad).

(** *** Helpers from <algorithm> and math_impl.hpp *)

(** [std::max(a, b)] is [(a < b) ? b : a]; [std::min(a, b)] is
    [(b < a) ? b : a]. *)
Definition std_max (a b : T) : T := if a <? b then b else a.
Definition std_min (a b : T) : T := if b <? a then b else a.

(** Modelled from the spec: math_impl.hpp, which defines [clamp], is not
    among the sources; the spec says that [ComputeEddingtonFactor] "clamps
    f to [0,1]", and the source comment "restrict f to be within [0, 1]". *)
Definition clamp (v lo hi : T) : T :=
  if v <? lo then lo else if hi <? v then hi else v.

(** Value-initialised array ([std::array<Real, N> a{}]). *)
Definition zeros : nat -> T := fun _ => #0.

(** *** isStateValid and amendRadState *)

Definition isStateValid (cons : nat -> T) : bool :=
  for_loop nGroups_ (fun g isValid =>
    let E_r := cons (radEnergy_index + numRadVars_ * g - nstartHyperbolic_)%nat in
    let Fx := cons (x1RadFlux_index + numRadVars_ * g - nstartHyperbolic_)%nat in
    let Fy := cons (x2RadFlux_index + numRadVars_ * g - nstartHyperbolic_)%nat in
    let Fz := cons (x3RadFlux_index + numRadVars_ * g - nstartHyperbolic_)%nat in
    let Fnorm := s_sqrt (Fx * Fx + Fy * Fy + Fz * Fz) in
    let f := Fnorm / (c_light_ * E_r) in
    let isNonNegative := E_r >? #0 in
    let isFluxCausal := f <=? #1 in
    isValid && isNonNegative && isFluxCausal) true.

(** One pass of the loop body of [amendRadState] for group [g]. *)
Definition amendRadState_group (g : nat) (cons : nat -> T) : nat -> T :=
  let E_r0 := cons (radEnergy_index + numRadVars_ * g - nstartHyperbolic_)%nat in
  let below_floor := E_r0 <? Erad_floor_ in
  let E_r := if below_floor then Erad_floor_ else E_r0 in
  let cons :=
    if below_floor
    then upd cons (radEnergy_index + numRadVars_ * g - nstartHyperbolic_) Erad_floor_
    else cons in
  let Fx := cons (x1RadFlux_index + numRadVars_ * g - nstartHyperbolic_)%nat in
  let Fy := cons (x2RadFlux_index + numRadVars_ * g - nstartHyperbolic_)%nat in
  let Fz := cons (x3RadFlux_index + numRadVars_ * g - nstartHyperbolic_)%nat in
  if Fx * Fx + Fy * Fy + Fz * Fz >? c_light_ * c_light_ * E_r * E_r then
    let Fnorm := s_sqrt (Fx * Fx + Fy * Fy + Fz * Fz) in
    let cons := upd cons (x1RadFlux_index + numRadVars_ * g - nstartHyperbolic_)
                    (Fx / Fnorm * c_light_ * E_r) in
    let cons := upd cons (x2RadFlux_index + numRadVars_ * g - nstartHyperbolic_)
                    (Fy / Fnorm * c_light_ * E_r) in
    let cons := upd cons (x3RadFlux_index + numRadVars_ * g - nstartHyperbolic_)
                    (Fz / Fnorm * c_light_ * E_r) in
    cons
  else cons.

Definition amendRadState (cons : nat -> T) : nat -> T :=
  for_loop nGroups_ amendRadState_group cons.

(** The validity enforcement that [PredictStep] and [AddFluxesRK2] apply
    to a candidate state: [if (!isStateValid(cons)) amendRadState(cons);]. *)
Definition enforceValidity (cons : nat -> T) : nat -> T :=
  if negb (isStateValid cons) then amendRadState cons else cons.

(** *** Closure and pressure tensor *)

Definition ComputeEddingtonFactor (f_in : T) : T :=
  let f := clamp f_in #0 #1 in
  let f_fac := s_sqrt (#4 - #3 * (f * f)) in
  let chi := (#3 + #4 * (f * f)) / (#5 + #2 * f_fac) in
  chi.

(** [std::array<Real, 3>{x, y, z}] *)
Definition vec3 (x y z : T) : nat -> T :=
  fun i => match i with 0%nat => x | 1%nat => y | _ => z end.

Definition ComputeEddingtonTensor (fx fy fz : T) : nat -> nat -> T :=
  let f := s_sqrt (fx * fx + fy * fy + fz * fz) in
  let fvec := vec3 fx fy fz in
  let n := fun ii => if f >? #0 then fvec ii / f else #0 in
  let chi := ComputeEddingtonFactor f in
  let Tdiag := (#1 - chi) / #2 in
  let Tf := (#3 * chi - #1) / #2 in
  fun ii jj =>
    let delta_ij := if Nat.eqb ii jj then #1 else #0 in
    Tdiag * delta_ij + Tf * (n ii * n jj).

Inductive FluxDir : Type := X1 | X2 | X3.

(** [quokka::valarray<double, 4>{a, b, c, d}] *)
Definition vec4 (a b c d : T) : nat -> T :=
  fun i => match i with 0%nat => a | 1%nat => b | 2%nat => c | _ => d end.

Record RadPressureResult : Type := {
  RP_F : nat -> T;
  RP_S : T
}.

Definition ComputeRadPressure (DIR : FluxDir) (erad Fx Fy Fz fx fy fz : T) : RadPressureResult :=
  let Tedd := ComputeEddingtonTensor fx fy fz in
  let Tnormal := match DIR with
                 | X1 => Tedd 0%nat 0%nat
                 | X2 => Tedd 1%nat 1%nat
                 | X3 => Tedd 2%nat 2%nat
                 end in
  let '(Fn, Tnx, Tny, Tnz) :=
    match DIR with
    | X1 => (Fx, Tedd 0%nat 0%nat, Tedd 0%nat 1%nat, Tedd 0%nat 2%nat)
    | X2 => (Fy, Tedd 1%nat 0%nat, Tedd 1%nat 1%nat, Tedd 1%nat 2%nat)
    | X3 => (Fz, Tedd 2%nat 0%nat, Tedd 2%nat 1%nat, Tedd 2%nat 2%nat)
    end in
  {| RP_F := vec4 Fn (Tnx * erad) (Tny * erad) (Tnz * erad);
     RP_S := std_max (#1 / #10) (s_sqrt Tnormal) |}.

(** *** valarray operations *)

(** Modelled from the spec: valarray.hpp is not among the sources.  The
    operators of [quokka::valarray] act element by element, a scalar
    operand is applied to every element, and [sum] adds the elements in
    index order. *)
Definition vadd (a b : nat -> T) : nat -> T := fun i => a i + b i.
Definition vsub (a b : nat -> T) : nat -> T := fun i => a i - b i.
Definition vmul (a b : nat -> T) : nat -> T := fun i => a i * b i.
Definition vdiv (a b : nat -> T) : nat -> T := fun i => a i / b i.
Definition svmul (k : T) (a : nat -> T) : nat -> T := fun i => k * a i.
Definition vsmul (a : nat -> T) (k : T) : nat -> T := fun i => a i * k.
Definition vsdiv (a : nat -> T) (k : T) : nat -> T := fun i => a i / k.
Definition vsum (n : nat) (a : nat -> T) : T :=
  for_loop n (fun g acc => acc + a g) #0.

(** *** Gas energies *)

Definition ComputeEintFromEgas (density X1GasMom X2GasMom X3GasMom Etot : T) : T :=
  let p_sq := X1GasMom * X1GasMom + X2GasMom * X2GasMom + X3GasMom * X3GasMom in
  let Ekin := p_sq / (#2 * density) in
  let Eint := Etot - Ekin in
  Eint.

Definition ComputeEgasFromEint (density X1GasMom X2GasMom X3GasMom Eint : T) : T :=
  let p_sq := X1GasMom * X1GasMom + X2GasMom * X2GasMom + X3GasMom * X3GasMom in
  let Ekin := p_sq / (#2 * density) in
  let Etot := Eint + Ekin in
  Etot.

(** The [nmscalars_] mass scalars of a cell, [massScalars[n] =
    arr(i, j, k, scalar0_index + n)]. *)
Definition ComputeMassScalars (arr : nat -> T) : nat -> T :=
  fun n => arr (scalar0_index + n)%nat.

(** *** Interface flux *)

(** [ComputeCellOpticalDepth<DIR>] at the face between the cells whose
    component arrays are [consVar_im1] = [consVar(i - 1, j, k, .)] and
    [consVar_i] = [consVar(i, j, k, .)]. *)
Definition ComputeCellOpticalDepth (DIR : FluxDir) (consVar_im1 consVar_i : nat -> T)
    (dx : nat -> T) : nat -> T :=
  let rho_L := consVar_im1 gasDensity_index in
  let rho_R := consVar_i gasDensity_index in
  let x1GasMom_L := consVar_im1 x1GasMomentum_index in
  let x1GasMom_R := consVar_i x1GasMomentum_index in
  let x2GasMom_L := consVar_im1 x2GasMomentum_index in
  let x2GasMom_R := consVar_i x2GasMomentum_index in
  let x3GasMom_L := consVar_im1 x3GasMomentum_index in
  let x3GasMom_R := consVar_i x3GasMomentum_index in
  let Egas_L := consVar_im1 gasEnergy_index in
  let Egas_R := consVar_i gasEnergy_index in
  let massScalars_L := ComputeMassScalars consVar_im1 in
  let massScalars_R := ComputeMassScalars consVar_i in
  let gamma_not_one := negb (gamma_ =? #1) in
  let Eint_L := if gamma_not_one
                then ComputeEintFromEgas rho_L x1GasMom_L x2GasMom_L x3GasMom_L Egas_L else NAN in
  let Eint_R := if gamma_not_one
                then ComputeEintFromEgas rho_R x1GasMom_R x2GasMom_R x3GasMom_R Egas_R else NAN in
  let Tgas_L := if gamma_not_one then ComputeTgasFromEint rho_L Eint_L massScalars_L else NAN in
  let Tgas_R := if gamma_not_one then ComputeTgasFromEint rho_R Eint_R massScalars_R else NAN in
  let dl := match DIR with X1 => dx 0%nat | X2 => dx 1%nat | X3 => dx 2%nat end in
  let tau_L := svmul (dl * rho_L) (ComputeFluxMeanOpacity rho_L Tgas_L) in
  let tau_R := svmul (dl * rho_R) (ComputeFluxMeanOpacity rho_R Tgas_R) in
  vdiv (vsmul (vmul tau_L tau_R) #2) (vadd tau_L tau_R).

(** The local variables of one pass of the group loop of [ComputeFluxes]
    once the admissibility check has run. *)
Record FaceState : Type := {
  erad_L : T; erad_R : T;
  Fx_L : T; Fx_R : T;
  Fy_L : T; Fy_R : T;
  Fz_L : T; Fz_R : T;
  fx_L : T; fx_R : T;
  fy_L : T; fy_R : T;
  fz_L : T; fz_R : T;
  f_L : T; f_R : T
}.

(** The reconstructed states of group [g]: the values the locals hold
    before the admissibility check. *)
Definition reconstructedStates (g : nat) (x1LeftState x1RightState : nat -> T) : FaceState :=
  let erad_L := x1LeftState (primRadEnergy_index + numRadVars_ * g)%nat in
  let erad_R := x1RightState (primRadEnergy_index + numRadVars_ * g)%nat in
  let fx_L := x1LeftState (x1ReducedFlux_index + numRadVars_ * g)%nat in
  let fx_R := x1RightState (x1ReducedFlux_index + numRadVars_ * g)%nat in
  let fy_L := x1LeftState (x2ReducedFlux_index + numRadVars_ * g)%nat in
  let fy_R := x1RightState (x2ReducedFlux_index + numRadVars_ * g)%nat in
  let fz_L := x1LeftState (x3ReducedFlux_index + numRadVars_ * g)%nat in
  let fz_R := x1RightState (x3ReducedFlux_index + numRadVars_ * g)%nat in
  let f_L := s_sqrt (fx_L * fx_L + fy_L * fy_L + fz_L * fz_L) in
  let f_R := s_sqrt (fx_R * fx_R + fy_R * fy_R + fz_R * fz_R) in
  let Fx_L := fx_L * (c_light_ * erad_L) in
  let Fx_R := fx_R * (c_light_ * erad_R) in
  let Fy_L := fy_L * (c_light_ * erad_L) in
  let Fy_R := fy_R * (c_light_ * erad_R) in
  let Fz_L := fz_L * (c_light_ * erad_L) in
  let Fz_R := fz_R * (c_light_ * erad_R) in
  {| erad_L := erad_L; erad_R := erad_R;
     Fx_L := Fx_L; Fx_R := Fx_R; Fy_L := Fy_L; Fy_R := Fy_R; Fz_L := Fz_L; Fz_R := Fz_R;
     fx_L := fx_L; fx_R := fx_R; fy_L := fy_L; fy_R := fy_R; fz_L := fz_L; fz_R := fz_R;
     f_L := f_L; f_R := f_R |}.

(** The first-order states of group [g]: the body of the admissibility
    branch, which reads the conserved variables of the two cells next to
    the face and recomputes the primitive variables. *)
Definition donorCellStates (g : nat) (consVar_im1 consVar_i : nat -> T) : FaceState :=
  let erad_L := consVar_im1 (radEnergy_index + numRadVars_ * g)%nat in
  let erad_R := consVar_i (radEnergy_index + numRadVars_ * g)%nat in
  let Fx_L := consVar_im1 (x1RadFlux_index + numRadVars_ * g)%nat in
  let Fx_R := consVar_i (x1RadFlux_index + numRadVars_ * g)%nat in
  let Fy_L := consVar_im1 (x2RadFlux_index + numRadVars_ * g)%nat in
  let Fy_R := consVar_i (x2RadFlux_index + numRadVars_ * g)%nat in
  let Fz_L := consVar_im1 (x3RadFlux_index + numRadVars_ * g)%nat in
  let Fz_R := consVar_i (x3RadFlux_index + numRadVars_ * g)%nat in
  let fx_L := Fx_L / (c_light_ * erad_L) in
  let fx_R := Fx_R / (c_light_ * erad_R) in
  let fy_L := Fy_L / (c_light_ * erad_L) in
  let fy_R := Fy_R / (c_light_ * erad_R) in
  let fz_L := Fz_L / (c_light_ * erad_L) in
  let fz_R := Fz_R / (c_light_ * erad_R) in
  let f_L := s_sqrt (fx_L * fx_L + fy_L * fy_L + fz_L * fz_L) in
  let f_R := s_sqrt (fx_R * fx_R + fy_R * fy_R + fz_R * fz_R) in
  {| erad_L := erad_L; erad_R := erad_R;
     Fx_L := Fx_L; Fx_R := Fx_R; Fy_L := Fy_L; Fy_R := Fy_R; Fz_L := Fz_L; Fz_R := Fz_R;
     fx_L := fx_L; fx_R := fx_R; fy_L := fy_L; fy_R := fy_R; fz_L := fz_L; fz_R := fz_R;
     f_L := f_L; f_R := f_R |}.

(** The admissibility test on the reconstructed states. *)
Definition inadmissible (st : FaceState) : bool :=
  (erad_L st <=? #0) || (erad_R st <=? #0) || (f_L st >=? #1) || (f_R st >=? #1).

(** "gather left- and right- state variables": the states that enter the
    Riemann solver for group [g]. *)
Definition gatherStates (g : nat) (x1LeftState x1RightState consVar_im1 consVar_i : nat -> T)
    : FaceState :=
  let st := reconstructedStates g x1LeftState x1RightState in
  if inadmissible st then donorCellStates g consVar_im1 consVar_i else st.

(** The wavespeed correction factor [epsilon] of group [g] at the face
    with indices [(i, j, k)]. *)
Definition wavespeedCorrection (i j k : Z) (tau_cell : nat -> T) (g : nat) : nat -> T :=
  let epsilon := vec4 #1 #1 #1 #1 in
  if use_wavespeed_correction Hy then
    if (Z.rem (i + j + k) 2 =? 0)%Z then
      let S_corr := std_min #1 (#1 / tau_cell g) in
      vec4 S_corr #1 #1 #1
    else epsilon
  else epsilon.

(** "correct for reduced speed of light": [F[0] *= c_hat_ / c_light_] and
    [F[n] *= c_hat_ * c_light_] for [n = 1 .. numRadVars_ - 1]. *)
Definition reducedSpeedOfLight (F : nat -> T) : nat -> T :=
  fun n => match n with
           | 0%nat => F 0%nat * (c_hat_ / c_light_)
           | _ => F n * (c_hat_ * c_light_)
           end.

(** The two calls of [ComputeRadPressure] and the scalings that follow
    them: the fluxes [F_L], [F_R] and the signed wave speeds [S_L], [S_R]
    that enter the star-state formula. *)
Definition pressuresAndSpeeds (DIR : FluxDir) (st : FaceState)
    : (nat -> T) * T * (nat -> T) * T :=
  let RP_L := ComputeRadPressure DIR (erad_L st) (Fx_L st) (Fy_L st) (Fz_L st)
                (fx_L st) (fy_L st) (fz_L st) in
  let F_L := RP_F RP_L in
  let S_L := RP_S RP_L in
  let S_L := S_L * #(-1) in
  let RP_R := ComputeRadPressure DIR (erad_R st) (Fx_R st) (Fy_R st) (Fz_R st)
                (fx_R st) (fy_R st) (fz_R st) in
  let F_R := RP_F RP_R in
  let S_R := RP_S RP_R in
  let F_L := reducedSpeedOfLight F_L in
  let F_R := reducedSpeedOfLight F_R in
  let S_L := S_L * c_hat_ in
  let S_R := S_R * c_hat_ in
  (F_L, S_L, F_R, S_R).

(** The HLL solver for the states [st]: the pair of the flux [F] (with
    the correction factor [epsilon]) and the diffusive flux [diffusiveF]. *)
Definition hllFluxes (DIR : FluxDir) (epsilon : nat -> T) (st : FaceState)
    : (nat -> T) * (nat -> T) :=
  let '(F_L, S_L, F_R, S_R) := pressuresAndSpeeds DIR st in
  let U_L := vec4 (erad_L st) (Fx_L st) (Fy_L st) (Fz_L st) in
  let U_R := vec4 (erad_R st) (Fx_R st) (Fy_R st) (Fz_R st) in
  let F :=
    vadd (vsub (svmul (S_R / (S_R - S_L)) F_L) (svmul (S_L / (S_R - S_L)) F_R))
         (vmul (vsmul epsilon (S_R * S_L / (S_R - S_L))) (vsub U_R U_L)) in
  let diffusiveF :=
    vadd (vsub (svmul (S_R / (S_R - S_L)) F_L) (svmul (S_L / (S_R - S_L)) F_R))
         (svmul (S_R * S_L / (S_R - S_L)) (vsub U_R U_L)) in
  (F, diffusiveF).

(** The four stores of one flux vector into the flux array of the face. *)
Definition storeFlux (g : nat) (x1Flux : nat -> T) (F : nat -> T) : nat -> T :=
  let x1Flux := upd x1Flux (radEnergy_index + numRadVars_ * g - nstartHyperbolic_) (F 0%nat) in
  let x1Flux := upd x1Flux (x1RadFlux_index + numRadVars_ * g - nstartHyperbolic_) (F 1%nat) in
  let x1Flux := upd x1Flux (x2RadFlux_index + numRadVars_ * g - nstartHyperbolic_) (F 2%nat) in
  let x1Flux := upd x1Flux (x3RadFlux_index + numRadVars_ * g - nstartHyperbolic_) (F 3%nat) in
  x1Flux.

(** One pass of the group loop of [ComputeFluxes]. *)
Definition ComputeFluxes_group (DIR : FluxDir) (i j k : Z) (tau_cell : nat -> T)
    (x1LeftState x1RightState consVar_im1 consVar_i : nat -> T)
    (g : nat) (out : (nat -> T) * (nat -> T)) : (nat -> T) * (nat -> T) :=
  let st := gatherStates g x1LeftState x1RightState consVar_im1 consVar_i in
  let epsilon := wavespeedCorrection i j k tau_cell g in
  let '(F, diffusiveF) := hllFluxes DIR epsilon st in
  (storeFlux g (fst out) F, storeFlux g (snd out) diffusiveF).

(** The kernel of [ComputeFluxes<DIR>] at the face [(i, j, k)] (indices
    already reordered for [DIR]).  [out] holds the component arrays of
    [x1Flux] and [x1FluxDiffusive] at that face; the result holds them
    after the kernel has run. *)
Definition ComputeFluxes (DIR : FluxDir) (i j k : Z)
    (x1LeftState x1RightState consVar_im1 consVar_i : nat -> T) (dx : nat -> T)
    (out : (nat -> T) * (nat -> T)) : (nat -> T) * (nat -> T) :=
  let tau_cell :=
    if use_wavespeed_correction Hy
    then ComputeCellOpticalDepth DIR consVar_im1 consVar_i dx
    else zeros in
  for_loop nGroups_
    (ComputeFluxes_group DIR i j k tau_cell x1LeftState x1RightState consVar_im1 consVar_i)
    out.

(** *** SolveLinearEqs *)

(** The result [(x0, xi)] that the source returns through its two
    reference parameters. *)
Definition SolveLinearEqs (a00 : T) (a0i ai0 aii : nat -> T) (y0 : T) (yi : nat -> T)
    : T * (nat -> T) :=
  let ratios := vdiv a0i aii in
  let x0 := (- vsum nGroups_ (vmul ratios yi) + y0) / (- vsum nGroups_ (vmul ratios ai0) + a00) in
  let xi := vdiv (vsub yi (vsmul ai0 x0)) aii in
  (x0, xi).

(** *** Hyperbolic update *)

(** [AMREX_D_TERM(a, +b, +c)] pastes as many of its arguments as the
    build has dimensions. *)
Definition AMREX_D_TERM (a b c : T) : T :=
  match AMREX_SPACEDIM with
  | Dim1 => a
  | Dim2 => a + b
  | Dim3 => a + b + c
  end.

(** The faces of one cell in a flux array: [flux_lo d n] is the entry [n]
    of the flux of direction [d] at the cell's own index, [flux_hi d n]
    the entry at the next index along [d] (the [i + 1], [j + 1], [k + 1]
    of the source). *)
Record CellFluxes : Type := {
  flux_lo : nat -> nat -> T;
  flux_hi : nat -> nat -> T
}.

(** The candidate state [cons] of [PredictStep], before validity is
    enforced. *)
Definition PredictStep_candidate (consVarOld : nat -> T) (fluxArray : CellFluxes)
    (dt_in : T) (dx_in : nat -> T) : nat -> T :=
  let dt := dt_in in
  let dx := dx_in 0%nat in
  let dy := dx_in 1%nat in
  let dz := dx_in 2%nat in
  for_loop nvarHyperbolic_ (fun n cons =>
    upd cons n
      (consVarOld (nstartHyperbolic_ + n)%nat +
       AMREX_D_TERM ((dt / dx) * (flux_lo fluxArray 0 n - flux_hi fluxArray 0 n))
                    ((dt / dy) * (flux_lo fluxArray 1 n - flux_hi fluxArray 1 n))
                    ((dt / dz) * (flux_lo fluxArray 2 n - flux_hi fluxArray 2 n)))) zeros.

(** The copy of the local state into the hyperbolic variables of the
    output array. *)
Definition storeHyperbolic (U_new : nat -> T) (cons : nat -> T) : nat -> T :=
  for_loop nvarHyperbolic_ (fun n U_new => upd U_new (nstartHyperbolic_ + n) (cons n)) U_new.

Definition PredictStep (consVarOld consVarNew : nat -> T) (fluxArray : CellFluxes)
    (dt_in : T) (dx_in : nat -> T) : nat -> T :=
  let cons := PredictStep_candidate consVarOld fluxArray dt_in dx_in in
  let cons := enforceValidity cons in
  storeHyperbolic consVarNew cons.

(** The candidate state [cons_new] of [AddFluxesRK2], before validity is
    enforced. *)
Definition AddFluxesRK2_candidate (U0 U1 : nat -> T) (fluxArrayOld fluxArray : CellFluxes)
    (dt_in : T) (dx_in : nat -> T) : nat -> T :=
  let dt := dt_in in
  let dx := dx_in 0%nat in
  let dy := dx_in 1%nat in
  let dz := dx_in 2%nat in
  for_loop nvarHyperbolic_ (fun n cons_new =>
    let U_0 := U0 (nstartHyperbolic_ + n)%nat in
    let U_1 := U1 (nstartHyperbolic_ + n)%nat in
    let FxU_0 := (dt / dx) * (flux_lo fluxArrayOld 0 n - flux_hi fluxArrayOld 0 n) in
    let FxU_1 := (dt / dx) * (flux_lo fluxArray 0 n - flux_hi fluxArray 0 n) in
    let FyU_0 := (dt / dy) * (flux_lo fluxArrayOld 1 n - flux_hi fluxArrayOld 1 n) in
    let FyU_1 := (dt / dy) * (flux_lo fluxArray 1 n - flux_hi fluxArray 1 n) in
    let FzU_0 := (dt / dz) * (flux_lo fluxArrayOld 2 n - flux_hi fluxArrayOld 2 n) in
    let FzU_1 := (dt / dz) * (flux_lo fluxArray 2 n - flux_hi fluxArray 2 n) in
    upd cons_new n
      ((#1 - IMEX_a32 Hy) * U_0 + IMEX_a32 Hy * U_1 +
       ((#1 / #2 - IMEX_a32 Hy) * (AMREX_D_TERM FxU_0 FyU_0 FzU_0)) +
       (#1 / #2 * (AMREX_D_TERM FxU_1 FyU_1 FzU_1)))) zeros.

(** The kernel of [AddFluxesRK2] at one cell: [U0], [U1] and [U_new] are
    the component arrays of that cell. *)
Definition AddFluxesRK2 (U_new U0 U1 : nat -> T) (fluxArrayOld fluxArray : CellFluxes)
    (dt_in : T) (dx_in : nat -> T) : nat -> T :=
  let cons_new := AddFluxesRK2_candidate U0 U1 fluxArrayOld fluxArray dt_in dx_in in
  let cons_new := enforceValidity cons_new in
  storeHyperbolic U_new cons_new.

(** *** Planck energy fractions and thermal radiation *)

Definition ComputePlanckEnergyFractions (boundaries : nat -> T) (temperature : T) : nat -> T :=
  let radEnergyFractions := zeros in
  if Nat.eqb nGroups_ 1 then
    upd radEnergyFractions 0 #1
  else
    let energy_unit_over_kT := energy_unit P / (boltzmann_constant_ * temperature) in
    let previous := integrate_planck_from_0_to_x (boundaries 0%nat * energy_unit_over_kT) in
    let loop := for_loop nGroups_ (fun g st =>
      let y := integrate_planck_from_0_to_x (boundaries (g + 1)%nat * energy_unit_over_kT) in
      (upd (fst st) g (y - snd st), y)) (radEnergyFractions, previous) in
    let radEnergyFractions := fst loop in
    let tote := vsum nGroups_ radEnergyFractions in
    vsdiv radEnergyFractions tote.

Definition ComputeThermalRadiation (temperature : T) (boundaries : nat -> T) : nat -> T :=
  let radEnergyFractions := ComputePlanckEnergyFractions boundaries temperature in
  let power := radiation_constant_ * std_pow temperature #4 in
  let Erad_g := svmul power radEnergyFractions in
  for_loop nGroups_ (fun g Erad_g =>
    if Erad_g g <? Erad_floor_ then upd Erad_g g Erad_floor_ else Erad_g) Erad_g.

Definition ComputeThermalRadiationTempDerivative (temperature : T) (boundaries : nat -> T)
    : nat -> T :=
  let erad := ComputeThermalRadiation temperature boundaries in
  vsdiv (svmul #4 erad) temperature.

(** *** Matter-radiation energy exchange (step 1 of [AddSourceTerms])

    The embedding follows the instantiation with [gamma_ != 1.0] and the
    [OpacityModel::user] opacity model (the default [opacity_model_]), in
    the first pass of the full-step iteration ([ite == 0]). *)

(** The Lorentz factors [(lorentz_factor, lorentz_factor_v,
    lorentz_factor_v_v)] for [beta_order_]; a factor that the selected
    branch does not assign keeps its initial [NAN]. *)
Definition lorentzFactors (betaSqr : T) : T * T * T :=
  if ((beta_order_ =? 0) || (beta_order_ =? 1))%Z then
    (#1, #1, NAN)
  else if (beta_order_ =? 2)%Z then
    (#1 + #1 / #2 * betaSqr, #1, #1)
  else if (beta_order_ =? 3)%Z then
    (#1 + #1 / #2 * betaSqr, #1 + #1 / #2 * betaSqr, #1)
  else
    let lorentz_factor := #1 / s_sqrt (#1 - betaSqr) in
    (lorentz_factor, lorentz_factor, lorentz_factor).

(** The loop that fills [kappaPoverE]. *)
Definition computeKappaPoverE (kappaPVec kappaEVec kappaPoverE : nat -> T) : nat -> T :=
  for_loop nGroups_ (fun g kappaPoverE =>
    if kappaEVec g >? #0
    then upd kappaPoverE g (kappaPVec g / kappaEVec g)
    else upd kappaPoverE g #1) kappaPoverE.

(** What the Newton-Raphson loop reads and does not write. *)
Record ExchangeSetup : Type := {
  ex_rho : T;
  ex_dt : T;
  ex_massScalars : nat -> T;
  ex_boundaries : nat -> T;
  ex_Egas0 : T;
  ex_Etot0 : T;
  ex_Erad0Vec : nat -> T;
  ex_Src : nat -> T;
  ex_lorentz_factor : T;
  ex_tau0 : nat -> T;
  ex_work : nat -> T
}.

(** The variables that the Newton-Raphson loop writes. *)
Record NRState : Type := {
  Egas_guess : T;
  T_gas : T;
  fourPiBoverC : nat -> T;
  kappaPVec : nat -> T;
  kappaEVec : nat -> T;
  kappaPoverE : nat -> T;
  tau : nat -> T;
  Rvec : nat -> T;
  D : nat -> T;
  EradVec_guess : nat -> T;
  F_G : T;
  F_D : nat -> T;
  F_D_abs_sum : T;
  deltaEgas : T;
  deltaD : nat -> T
}.

(** The loop "If tau = 0.0, Erad_guess shouldn't change". *)
Definition updateEradVec_guess (tau kappaPoverE fourPiBoverC Rvec work EradVec_guess : nat -> T)
    : nat -> T :=
  for_loop nGroups_ (fun g EradVec_guess =>
    if tau g >? #0
    then upd EradVec_guess g (kappaPoverE g * (fourPiBoverC g - (Rvec g - work g) / tau g))
    else EradVec_guess) EradVec_guess.

(** The loop that accumulates [(F_D_abs_sum, F_G)]. *)
Definition accumulateResiduals (tau F_D Rvec : nat -> T) (F_G : T) : T * T :=
  for_loop nGroups_ (fun g acc =>
    if tau g >? #0
    then (fst acc + s_abs (F_D g), snd acc + (c_light_ / c_hat_) * Rvec g)
    else acc) (#0, F_G).

(** [tau = dt * rho * kappaEVec * chat * lorentz_factor], the optical depth
    of every group at the current temperature guess. *)
Definition opticalDepth (ex : ExchangeSetup) (kappaEVec : nat -> T) : nat -> T :=
  vsmul (vsmul (svmul (ex_dt ex * ex_rho ex) kappaEVec) c_hat_) (ex_lorentz_factor ex).

(** First half of a Newton-Raphson pass: temperature, opacities, optical
    depth, the guessed radiation energy and the residuals. *)
Definition NR_residuals (ex : ExchangeSetup) (st : NRState) : NRState :=
  let c := c_light_ in
  let chat := c_hat_ in
  let T_gas := ComputeTgasFromEint (ex_rho ex) (Egas_guess st) (ex_massScalars ex) in
  let fourPiBoverC := ComputeThermalRadiation T_gas (ex_boundaries ex) in
  let kappaPVec := ComputePlanckOpacity (ex_rho ex) T_gas in
  let kappaEVec := ComputeEnergyMeanOpacity (ex_rho ex) T_gas in
  let kappaPoverE := computeKappaPoverE kappaPVec kappaEVec (kappaPoverE st) in
  let tau := opticalDepth ex kappaEVec in
  let Rvec := if use_D_as_base Hy then vmul (ex_tau0 ex) (D st) else Rvec st in
  let EradVec_guess :=
    updateEradVec_guess tau kappaPoverE fourPiBoverC Rvec (ex_work ex) (EradVec_guess st) in
  let F_G := Egas_guess st - ex_Egas0 ex in
  let F_D := vsub (vsub EradVec_guess (ex_Erad0Vec ex)) (vadd Rvec (ex_Src ex)) in
  let acc := accumulateResiduals tau F_D Rvec F_G in
  {| Egas_guess := Egas_guess st; T_gas := T_gas; fourPiBoverC := fourPiBoverC;
     kappaPVec := kappaPVec; kappaEVec := kappaEVec; kappaPoverE := kappaPoverE;
     tau := tau; Rvec := Rvec; D := D st; EradVec_guess := EradVec_guess;
     F_G := snd acc; F_D := F_D; F_D_abs_sum := fst acc;
     deltaEgas := deltaEgas st; deltaD := deltaD st |}.

Definition resid_tol : T := #1 / #100000000000.
Definition maxIter : nat := 400.

(** "check relative convergence of the residuals" *)
Definition NR_converged (ex : ExchangeSetup) (st : NRState) : bool :=
  (s_abs (F_G st / ex_Etot0 ex) <? resid_tol) &&
  ((c_light_ / c_hat_) * F_D_abs_sum st / ex_Etot0 ex <? resid_tol).

(** Second half of a pass: the Jacobian, the linear solve and the update
    of the unknowns. *)
Definition NR_update (ex : ExchangeSetup) (st : NRState) : NRState :=
  let c := c_light_ in
  let chat := c_hat_ in
  let c_v := ComputeEintTempDerivative (ex_rho ex) (T_gas st) (ex_massScalars ex) in
  let dfourPiB_dTgas :=
    svmul chat (ComputeThermalRadiationTempDerivative (T_gas st) (ex_boundaries ex)) in
  let dFG_dEgas := #1 in
  let dFR_i_dD_i := for_loop nGroups_ (fun g dFR_i_dD_i =>
    if tau st g <=? #0
    then upd dFR_i_dD_i g (- infinity)
    else upd dFR_i_dD_i g (#(-1) * (#1 / tau st g * kappaPoverE st g + #1))) zeros in
  let dFG_dD := if use_D_as_base Hy then svmul (c / chat) (ex_tau0 ex) else fun _ => c / chat in
  let dFR_i_dD_i := if use_D_as_base Hy then vmul dFR_i_dD_i (ex_tau0 ex) else dFR_i_dD_i in
  let dFR_dEgas := vmul (svmul (#1 / c_v) (kappaPoverE st)) (vsdiv dfourPiB_dTgas chat) in
  let sol := SolveLinearEqs dFG_dEgas dFG_dD dFR_dEgas dFR_i_dD_i
               (- F_G st) (svmul #(-1) (F_D st)) in
  let deltaEgas := fst sol in
  let deltaD := snd sol in
  {| Egas_guess := Egas_guess st + deltaEgas; T_gas := T_gas st;
     fourPiBoverC := fourPiBoverC st;
     kappaPVec := kappaPVec st; kappaEVec := kappaEVec st; kappaPoverE := kappaPoverE st;
     tau := tau st;
     Rvec := if use_D_as_base Hy then Rvec st else vadd (Rvec st) deltaD;
     D := if use_D_as_base Hy then vadd (D st) deltaD else D st;
     EradVec_guess := EradVec_guess st;
     F_G := F_G st; F_D := F_D st; F_D_abs_sum := F_D_abs_sum st;
     deltaEgas := deltaEgas; deltaD := deltaD |}.

(** [for (; n < maxIter; ++n) { residuals; if (converged) break; update }]
    with [fuel] passes left.  The flag tells whether the loop left through
    [break], which is what the assertion [n < maxIter] after it checks. *)
Fixpoint NewtonRaphson (fuel : nat) (ex : ExchangeSetup) (st : NRState) : NRState * bool :=
  match fuel with
  | O => (st, false)
  | S fuel' =>
      let st := NR_residuals ex st in
      if NR_converged ex st then (st, true)
      else NewtonRaphson fuel' ex (NR_update ex st)
  end.

(** The part of the kernel of [AddSourceTerms] before the Newton-Raphson
    loop: the loads from the cell, [EradVec_guess = Erad0Vec], and the set
    up of [tau0], [Rvec] and [D] at the old state. *)
Definition exchangeSetup (consPrev radEnergySource : nat -> T) (boundaries : nat -> T)
    (dt_radiation : T) (stage : Z) : ExchangeSetup * NRState :=
  let dt := if (stage =? 2)%Z then (#1 - IMEX_a32 Hy) * dt_radiation else dt_radiation in
  let c := c_light_ in
  let chat := c_hat_ in
  let rho := consPrev gasDensity_index in
  let x1GasMom0 := consPrev x1GasMomentum_index in
  let x2GasMom0 := consPrev x2GasMomentum_index in
  let x3GasMom0 := consPrev x3GasMomentum_index in
  let Egastot0 := consPrev gasEnergy_index in
  let massScalars := ComputeMassScalars consPrev in
  let Erad0Vec := fun g => consPrev (radEnergy_index + numRadVars_ * g)%nat in
  let Erad0 := vsum nGroups_ Erad0Vec in
  let Src := fun g => dt * (chat * radEnergySource g) in
  let work := zeros in
  let EradVec_guess := Erad0Vec in
  let Egas0 := ComputeEintFromEgas rho x1GasMom0 x2GasMom0 x3GasMom0 Egastot0 in
  let Etot0 := Egas0 + (c / chat) * (Erad0 + vsum nGroups_ Src) in
  let betaSqr := (x1GasMom0 * x1GasMom0 + x2GasMom0 * x2GasMom0 + x3GasMom0 * x3GasMom0)
                 / (rho * rho * c * c) in
  let '(lorentz_factor, lorentz_factor_v, lorentz_factor_v_v) := lorentzFactors betaSqr in
  let Egas_guess := Egas0 in
  let T_gas := ComputeTgasFromEint rho Egas_guess massScalars in
  let fourPiBoverC := ComputeThermalRadiation T_gas boundaries in
  let kappaPVec := ComputePlanckOpacity rho T_gas in
  let kappaEVec := ComputeEnergyMeanOpacity rho T_gas in
  let kappaFVec := ComputeFluxMeanOpacity rho T_gas in
  let kappaPoverE := computeKappaPoverE kappaPVec kappaEVec zeros in
  let work :=
    if negb (beta_order_ =? 0)%Z && include_work_term_in_source Hy then
      for_loop nGroups_ (fun g work =>
        let frad0 := consPrev (x1RadFlux_index + numRadVars_ * g)%nat in
        let frad1 := consPrev (x2RadFlux_index + numRadVars_ * g)%nat in
        let frad2 := consPrev (x3RadFlux_index + numRadVars_ * g)%nat in
        let w := (x1GasMom0 * frad0 + x2GasMom0 * frad1 + x3GasMom0 * frad2) *
                 (#2 * kappaEVec g - kappaFVec g) in
        let w := w * (chat / (c * c) * lorentz_factor_v * dt) in
        upd work g w) work
    else work in
  let tau0 := vsmul (vsmul (svmul (dt * rho) kappaPVec) chat) lorentz_factor in
  let Rvec := vadd (vmul (vsub fourPiBoverC (vdiv Erad0Vec kappaPoverE)) tau0) work in
  let tau0 :=
    if use_D_as_base Hy then
      for_loop nGroups_ (fun g tau0 => if tau0 g <=? #1 then upd tau0 g #1 else tau0) tau0
    else tau0 in
  let D := if use_D_as_base Hy then vdiv Rvec tau0 else zeros in
  ({| ex_rho := rho; ex_dt := dt; ex_massScalars := massScalars; ex_boundaries := boundaries;
      ex_Egas0 := Egas0; ex_Etot0 := Etot0; ex_Erad0Vec := Erad0Vec; ex_Src := Src;
      ex_lorentz_factor := lorentz_factor; ex_tau0 := tau0; ex_work := work |},
   {| Egas_guess := Egas_guess; T_gas := T_gas; fourPiBoverC := fourPiBoverC;
      kappaPVec := kappaPVec; kappaEVec := kappaEVec; kappaPoverE := kappaPoverE;
      tau := zeros; Rvec := Rvec; D := D; EradVec_guess := EradVec_guess;
      F_G := NAN; F_D := zeros; F_D_abs_sum := #0; deltaEgas := NAN; deltaD := zeros |}).

(** The energy exchange of the first full-step pass at one cell: set up,
    then the Newton-Raphson loop with its [maxIter] passes. *)
Definition energyExchange (consPrev radEnergySource : nat -> T) (boundaries : nat -> T)
    (dt_radiation : T) (stage : Z) : NRState * bool :=
  let '(ex, st) := exchangeSetup consPrev radEnergySource boundaries dt_radiation stage in
  NewtonRaphson maxIter ex st.

End RadSystem.

(** ** Further kernels of radiation_system.hpp *)

Section RadSystemLimiters.

Context {T : Type} `{Scalar T}.
Variable P : RadSystem_Traits T.

(** Collaborators: [sgn] of math_impl.hpp, which returns the sign of its
    argument as an [int]; [std::log] and [std::pow]; and the constant
    [inf = std::numeric_limits<double>::max()] of radiation_system.hpp. *)
Variable sgn : T -> Z.
Variable std_log : T -> T.
Variable std_pow : T -> T -> T.
Variable inf : T.

Local Open Scope scalar_scope.

(** *** Solve3x3matrix *)

Definition Solve3x3matrix (C00 C01 C02 C10 C11 C12 C20 C21 C22 Y0 Y1 Y2 : T) : T * T * T :=
  let E11 := C11 - C01 * C10 / C00 in
  let E12 := C12 - C02 * C10 / C00 in
  let E21 := C21 - C01 * C20 / C00 in
  let E22 := C22 - C02 * C20 / C00 in
  let Z1 := Y1 - Y0 * C10 / C00 in
  let Z2 := Y2 - Y0 * C20 / C00 in
  let X2 := (Z2 - Z1 * E21 / E11) / (E22 - E12 * E21 / E11) in
  let X1 := (Z1 - E12 * X2) / E11 in
  let X0 := (Y0 - C01 * X1 - C02 * X2) / C00 in
  (X0, X1, X2).

(** *** Slope limiters *)

Definition minmod_func (a b : T) : T :=
  #1 / #2 * #(sgn a + sgn b) * std_min (s_abs a) (s_abs b).

Definition MC (a b : T) : T :=
  #1 / #2 * #(sgn a + sgn b) *
  std_min (#1 / #2 * s_abs (a + b)) (std_min (#2 * s_abs a) (#2 * s_abs b)).

(** *** Power-law exponents and group-mean opacities *)

(** The three arrays that the first loop of [ComputeRadQuantityExponents]
    fills. *)
Record ExponentTables : Type := {
  bin_center : nat -> T;
  quant_mean : nat -> T;
  logslopes : nat -> T
}.

Definition exponentTables (quant boundaries : nat -> T) : ExponentTables :=
  for_loop (nGroups_ P) (fun g tb =>
    let bin_center := upd (bin_center tb) g (s_sqrt (boundaries g * boundaries (g + 1)%nat)) in
    let quant_mean :=
      upd (quant_mean tb) g (quant g / (boundaries (g + 1)%nat - boundaries g)) in
    let logslopes :=
      if (0 <? g)%nat then
        if (quant_mean g =? #0) && (quant_mean (g - 1)%nat =? #0) then
          upd (logslopes tb) (g - 1) #0
        else if quant_mean (g - 1)%nat * quant_mean g <=? #0 then
          if quant_mean g >? quant_mean (g - 1)%nat
          then upd (logslopes tb) (g - 1) inf
          else upd (logslopes tb) (g - 1) (- inf)
        else
          upd (logslopes tb) (g - 1)
              (std_log (s_abs (quant_mean g / quant_mean (g - 1)%nat))
               / std_log (bin_center g / bin_center (g - 1)%nat))
      else logslopes tb in
    {| bin_center := bin_center; quant_mean := quant_mean; logslopes := logslopes |})
    {| bin_center := zeros; quant_mean := zeros; logslopes := zeros |}.

Definition ComputeRadQuantityExponents (quant boundaries : nat -> T) : nat -> T :=
  let tb := exponentTables quant boundaries in
  for_loop (nGroups_ P) (fun g exponents =>
    if (g =? 0)%nat || (g =? nGroups_ P - 1)%nat
    then upd exponents g #0
    else upd exponents g (minmod_func (logslopes tb (g - 1)%nat) (logslopes tb g)))
    zeros.

(** The integral of a power law of exponent [alpha - 1] over a group whose
    boundaries have the ratio [r], as [ComputeGroupMeanOpacity] computes
    it for [part1] and for [part2]. *)
Definition powerLawIntegral (r alpha : T) : T :=
  if s_abs alpha <? #1 / #100000000
  then std_log r
  else (std_pow r alpha - #1) / alpha.

(** [kappa_expo_and_lower_value] is passed as its two rows [alpha_kappa]
    and [kappa_lower]. *)
Definition ComputeGroupMeanOpacity (alpha_kappa kappa_lower : nat -> T)
    (radBoundaryRatios alpha_quant : nat -> T) : nat -> T :=
  for_loop (nGroups_ P) (fun g kappa =>
    let alpha := alpha_quant g + #1 in
    let part1 := powerLawIntegral (radBoundaryRatios g) alpha in
    let alpha := alpha_quant g + alpha_kappa g + #1 in
    let part2 := powerLawIntegral (radBoundaryRatios g) alpha in
    upd kappa g (kappa_lower g / part1 * part2)) zeros.

End RadSystemLimiters.

(** ** The equation of state of EOS.hpp *)

(** [quokka::EOS_Traits<problem_t>] *)
Record EOS_Traits (T : Type) : Type := {
  eos_gamma : T;
  eos_cs_isothermal : T;
  eos_mean_molecular_weight : T;
  eos_boltzmann_constant : T
}.

Section EOS.

Context {T : Type} `{Scalar T}.
Variable E : EOS_Traits T.
Variable NAN : T.

Local Open Scope scalar_scope.

(** [c_v = boltzmann_constant_ / (mean_molecular_weight_ * (gamma_ - 1.0))] *)
Definition EOS_c_v : T :=
  eos_boltzmann_constant E / (eos_mean_molecular_weight E * (eos_gamma E - #1)).

Definition EOS_ComputeTgasFromEint (rho Eint : T) : T :=
  if negb (eos_gamma E =? #1) then Eint / (rho * EOS_c_v) else NAN.

Definition EOS_ComputeEintFromTgas (rho Tgas : T) : T :=
  if negb (eos_gamma E =? #1) then rho * EOS_c_v * Tgas else NAN.

Definition EOS_ComputeEintTempDerivative (rho Tgas : T) : T :=
  if negb (eos_gamma E =? #1) then rho * EOS_c_v else NAN.

End EOS.

(** ** The kernel of [AddSourceTerms]

    The whole cell kernel for the [OpacityModel::user] opacity model, the
    value of [opacity_model_] unless the problem overrides it: the
    full-step iteration with the energy exchange (step 1), the flux update
    (step 2) and the work term (step 3), and the stores (step 4b).  The
    tests [if constexpr (gamma_ != 1.0)] of the source are tests on
    [gamma_] here: with [gamma_ == 1.0] there is no energy exchange and no
    work term, the flux update is the one without velocity terms, the
    iteration leaves after its first pass, and neither the gas energies
    nor the radiation energies are stored.  The three assertions
    [AMREX_ALWAYS_ASSERT] after the Newton-Raphson loop and the one after
    the full-step iteration abort the run; the kernel then has no
    result. *)

Section AddSourceTerms.

Context {T : Type} `{Scalar T}.
Variable P : RadSystem_Traits T.
Variable Hy : HyperParams T.
Variable NAN : T.
Variable infinity : T.
Variable std_pow : T -> T -> T.
Variable ComputeTgasFromEint : T -> T -> (nat -> T) -> T.
Variable ComputeEintTempDerivative : T -> T -> (nat -> T) -> T.
Variable ComputePlanckOpacity : T -> T -> nat -> T.
Variable ComputeEnergyMeanOpacity : T -> T -> nat -> T.
Variable ComputeFluxMeanOpacity : T -> T -> nat -> T.
Variable integrate_planck_from_0_to_x : T -> T.

Local Open Scope scalar_scope.

(** Modelled from the spec: valarray.hpp is not among the sources.  [abs]
    of a [quokka::valarray] acts element by element, and [min] is its
    smallest element, so that [min(a) >= 0.0] holds when every element
    passes the test. *)
Definition vabs (a : nat -> T) : nat -> T := fun i => s_abs (a i).

Definition vmin_geb (n : nat) (a : nat -> T) (lo : T) : bool :=
  for_loop n (fun g ok => ok && (a g >=? lo)) true.

(** [a[n][g] = v] on an array of arrays. *)
Definition upd2 (a : nat -> nat -> T) (n g : nat) (v : T) : nat -> nat -> T :=
  upd a n (upd (a n) g v).

(** The variables of the kernel that one pass of the full-step iteration
    hands to the next. *)
Record SourceState : Type := {
  ss_Egas_guess : T;
  ss_EradVec_guess : nat -> T;
  ss_kappaPoverE : nat -> T;
  ss_tau : nat -> T;
  ss_work : nat -> T;
  ss_work_prev : nat -> T;
  ss_dMomentum : nat -> T;
  ss_Frad_t1 : nat -> nat -> T
}.

(** Their values before the first pass. *)
Definition sourceState0 (Erad0Vec : nat -> T) : SourceState := {|
  ss_Egas_guess := NAN;
  ss_EradVec_guess := Erad0Vec;
  ss_kappaPoverE := zeros;
  ss_tau := zeros;
  ss_work := zeros;
  ss_work_prev := zeros;
  ss_dMomentum := zeros;
  ss_Frad_t1 := fun _ => zeros
|}.

(** The part of pass [ite] before the Newton-Raphson loop.  It is
    [exchangeSetup] but for the variables that the pass inherits: the work
    term, which only the first pass computes from the old state, the
    guessed radiation energies, and the previous contents of
    [kappaPoverE] and [tau]. *)
Definition exchangeSetupAt (ite : nat) (s : SourceState)
    (consPrev radEnergySource : nat -> T) (boundaries : nat -> T)
    (dt_radiation : T) (stage : Z) : ExchangeSetup * NRState :=
  let dt := if (stage =? 2)%Z then (#1 - IMEX_a32 Hy) * dt_radiation else dt_radiation in
  let c := c_light_ P in
  let chat := c_hat_ P in
  let rho := consPrev (gasDensity_index P) in
  let x1GasMom0 := consPrev (x1GasMomentum_index P) in
  let x2GasMom0 := consPrev (x2GasMomentum_index P) in
  let x3GasMom0 := consPrev (x3GasMomentum_index P) in
  let Egastot0 := consPrev (gasEnergy_index P) in
  let massScalars := ComputeMassScalars P consPrev in
  let Erad0Vec := fun g => consPrev (radEnergy_index P + numRadVars_ * g)%nat in
  let Erad0 := vsum (nGroups_ P) Erad0Vec in
  let Src := fun g => dt * (chat * radEnergySource g) in
  let work := ss_work s in
  let EradVec_guess := ss_EradVec_guess s in
  let Egas0 := ComputeEintFromEgas rho x1GasMom0 x2GasMom0 x3GasMom0 Egastot0 in
  let Etot0 := Egas0 + (c / chat) * (Erad0 + vsum (nGroups_ P) Src) in
  let betaSqr := (x1GasMom0 * x1GasMom0 + x2GasMom0 * x2GasMom0 + x3GasMom0 * x3GasMom0)
                 / (rho * rho * c * c) in
  let '(lorentz_factor, lorentz_factor_v, lorentz_factor_v_v) := lorentzFactors P NAN betaSqr in
  let Egas_guess := Egas0 in
  let T_gas := ComputeTgasFromEint rho Egas_guess massScalars in
  let fourPiBoverC :=
    ComputeThermalRadiation P std_pow integrate_planck_from_0_to_x T_gas boundaries in
  let kappaPVec := ComputePlanckOpacity rho T_gas in
  let kappaEVec := ComputeEnergyMeanOpacity rho T_gas in
  let kappaFVec := ComputeFluxMeanOpacity rho T_gas in
  let kappaPoverE := computeKappaPoverE P kappaPVec kappaEVec (ss_kappaPoverE s) in
  let work :=
    if negb (beta_order_ P =? 0)%Z && include_work_term_in_source Hy then
      if (ite =? 0)%nat then
        for_loop (nGroups_ P) (fun g work =>
          let frad0 := consPrev (x1RadFlux_index P + numRadVars_ * g)%nat in
          let frad1 := consPrev (x2RadFlux_index P + numRadVars_ * g)%nat in
          let frad2 := consPrev (x3RadFlux_index P + numRadVars_ * g)%nat in
          let w := (x1GasMom0 * frad0 + x2GasMom0 * frad1 + x3GasMom0 * frad2) *
                   (#2 * kappaEVec g - kappaFVec g) in
          let w := w * (chat / (c * c) * lorentz_factor_v * dt) in
          upd work g w) work
      else work
    else work in
  let tau0 := vsmul (vsmul (svmul (dt * rho) kappaPVec) chat) lorentz_factor in
  let Rvec := vadd (vmul (vsub fourPiBoverC (vdiv Erad0Vec kappaPoverE)) tau0) work in
  let tau0 :=
    if use_D_as_base Hy then
      for_loop (nGroups_ P) (fun g tau0 => if tau0 g <=? #1 then upd tau0 g #1 else tau0) tau0
    else tau0 in
  let D := if use_D_as_base Hy then vdiv Rvec tau0 else zeros in
  ({| ex_rho := rho; ex_dt := dt; ex_massScalars := massScalars; ex_boundaries := boundaries;
      ex_Egas0 := Egas0; ex_Etot0 := Etot0; ex_Erad0Vec := Erad0Vec; ex_Src := Src;
      ex_lorentz_factor := lorentz_factor; ex_tau0 := tau0; ex_work := work |},
   {| Egas_guess := Egas_guess; T_gas := T_gas; fourPiBoverC := fourPiBoverC;
      kappaPVec := kappaPVec; kappaEVec := kappaEVec; kappaPoverE := kappaPoverE;
      tau := ss_tau s; Rvec := Rvec; D := D; EradVec_guess := EradVec_guess;
      F_G := NAN; F_D := zeros; F_D_abs_sum := #0; deltaEgas := NAN; deltaD := zeros |}).

(** The thermal and pressure terms [v_terms[n]] of group [g] in the flux
    update. *)
Definition v_terms (dt : T) (gasMtm0 : nat -> T) (lorentz_factor_v : T)
    (fourPiBoverC kappaPVec kappaEVec kappaFVec : nat -> T) (erad : T)
    (Tedd : nat -> nat -> T) (g : nat) : nat -> T :=
  let chat := c_hat_ P in
  for_loop 3 (fun n v_terms =>
    let v_term := kappaPVec g * fourPiBoverC g * lorentz_factor_v in
    let v_term :=
      if negb (kappaFVec g =? kappaEVec g)
      then v_term + (kappaFVec g - kappaEVec g) * erad * std_pow lorentz_factor_v #3
      else v_term in
    let v_term := v_term * (chat * dt * gasMtm0 n) in
    let pressure_term :=
      for_loop 3 (fun z pressure_term => pressure_term + gasMtm0 z * Tedd n z * erad) #0 in
    let pressure_term := pressure_term * (chat * dt * kappaFVec g * lorentz_factor_v) in
    let v_term := v_term + pressure_term in
    upd v_terms n v_term) zeros.

(** "Compute conservative gas momentum update": the loop over [n] that
    adds [-(Frad_t1[n][g] - Frad_t0[n]) / (c * chat)] to [dMomentum[n]]. *)
Definition momentumUpdate (g : nat) (Frad_t0 : nat -> T) (Frad_t1 : nat -> nat -> T)
    (dMomentum : nat -> T) : nat -> T :=
  for_loop 3 (fun n dMomentum =>
    upd dMomentum n
        (dMomentum n + (- (Frad_t1 n g - Frad_t0 n)) / (c_light_ P * c_hat_ P))) dMomentum.

(** One pass of the loop over the radiation groups of the flux update
    (step 2), on the pair of [Frad_t1] and [dMomentum].  [relaxed] is the
    loop over [n] that the branch [beta_order_ == 1] and the branch
    [kappaFVec[g] == kappaEVec[g]] both run; [gasVel] is declared as
    [std::array<double, 3> gasVel{}] and never assigned. *)
Definition fluxUpdate_group (rho dt : T) (gasMtm0 : nat -> T)
    (lorentz_factor lorentz_factor_v lorentz_factor_v_v : T)
    (fourPiBoverC kappaPVec kappaEVec kappaFVec EradVec_guess : nat -> T)
    (consPrev : nat -> T) (g : nat) (acc : (nat -> nat -> T) * (nat -> T))
    : (nat -> nat -> T) * (nat -> T) :=
  let c := c_light_ P in
  let chat := c_hat_ P in
  let Frad_t1 := fst acc in
  let dMomentum := snd acc in
  let Frad_t0 := vec3 (consPrev (x1RadFlux_index P + numRadVars_ * g)%nat)
                      (consPrev (x2RadFlux_index P + numRadVars_ * g)%nat)
                      (consPrev (x3RadFlux_index P + numRadVars_ * g)%nat) in
  if negb (beta_order_ P =? 0)%Z then
    let erad := EradVec_guess g in
    let gasVel := vec3 #0 #0 #0 in
    let Fx := Frad_t0 0%nat in
    let Fy := Frad_t0 1%nat in
    let Fz := Frad_t0 2%nat in
    let fx := Fx / (c_light_ P * erad) in
    let fy := Fy / (c_light_ P * erad) in
    let fz := Fz / (c_light_ P * erad) in
    let F_coeff := chat * rho * kappaFVec g * dt * lorentz_factor in
    let Tedd := ComputeEddingtonTensor fx fy fz in
    let v_terms := v_terms dt gasMtm0 lorentz_factor_v fourPiBoverC kappaPVec kappaEVec
                     kappaFVec erad Tedd g in
    let relaxed :=
      for_loop 3 (fun n acc =>
        let Frad_t1 := upd2 (fst acc) n g ((Frad_t0 n + v_terms n) / (#1 + F_coeff)) in
        let dMomentum :=
          upd (snd acc) n
              (snd acc n + (- (Frad_t1 n g - Frad_t0 n)) / (c * chat)) in
        (Frad_t1, dMomentum)) (Frad_t1, dMomentum) in
    if (beta_order_ P =? 1)%Z then relaxed
    else if kappaFVec g =? kappaEVec g then relaxed
    else
      let K0 := #2 * rho * chat * dt * (kappaFVec g - kappaEVec g) / c / c
                * std_pow lorentz_factor_v_v #3 in
      let A00 := #1 + F_coeff + K0 * gasVel 0%nat * gasVel 0%nat in
      let A01 := K0 * gasVel 0%nat * gasVel 1%nat in
      let A02 := K0 * gasVel 0%nat * gasVel 2%nat in
      let A10 := K0 * gasVel 1%nat * gasVel 0%nat in
      let A11 := #1 + F_coeff + K0 * gasVel 1%nat * gasVel 1%nat in
      let A12 := K0 * gasVel 1%nat * gasVel 2%nat in
      let A20 := K0 * gasVel 2%nat * gasVel 0%nat in
      let A21 := K0 * gasVel 2%nat * gasVel 1%nat in
      let A22 := #1 + F_coeff + K0 * gasVel 2%nat * gasVel 2%nat in
      let B0 := v_terms 0%nat + Frad_t0 0%nat in
      let B1 := v_terms 1%nat + Frad_t0 1%nat in
      let B2 := v_terms 2%nat + Frad_t0 2%nat in
      let '(sol0, sol1, sol2) := Solve3x3matrix A00 A01 A02 A10 A11 A12 A20 A21 A22 B0 B1 B2 in
      let Frad_t1 := upd2 Frad_t1 0 g sol0 in
      let Frad_t1 := upd2 Frad_t1 1 g sol1 in
      let Frad_t1 := upd2 Frad_t1 2 g sol2 in
      (Frad_t1, momentumUpdate g Frad_t0 Frad_t1 dMomentum)
  else
    for_loop 3 (fun n acc =>
      let Frad_t1 := upd2 (fst acc) n g (Frad_t0 n / (#1 + rho * kappaFVec g * chat * dt)) in
      let dMomentum :=
        upd (snd acc) n
            (snd acc n + (- (Frad_t1 n g - Frad_t0 n)) / (c * chat)) in
      (Frad_t1, dMomentum)) (Frad_t1, dMomentum).

(** The pass of the group loop of the flux update when
    [(gamma_ != 1.0) && (beta_order_ != 0)] fails because [gamma_ == 1.0]:
    the loop over [n] without velocity terms. *)
Definition fluxUpdate_group_isothermal (rho dt : T) (kappaFVec : nat -> T)
    (consPrev : nat -> T) (g : nat) (acc : (nat -> nat -> T) * (nat -> T))
    : (nat -> nat -> T) * (nat -> T) :=
  let c := c_light_ P in
  let chat := c_hat_ P in
  let Frad_t0 := vec3 (consPrev (x1RadFlux_index P + numRadVars_ * g)%nat)
                      (consPrev (x2RadFlux_index P + numRadVars_ * g)%nat)
                      (consPrev (x3RadFlux_index P + numRadVars_ * g)%nat) in
  for_loop 3 (fun n acc =>
    let Frad_t1 := upd2 (fst acc) n g (Frad_t0 n / (#1 + rho * kappaFVec g * chat * dt)) in
    let dMomentum :=
      upd (snd acc) n
          (snd acc n + (- (Frad_t1 n g - Frad_t0 n)) / (c * chat)) in
    (Frad_t1, dMomentum)) acc.

(** The old scheme of step 3: the work [dErad_work] is taken from the
    radiation energies in proportion to [energyLossFractions]; a group
    that would fall below the floor is set to the floor, and the gas pays
    the difference.  The result is the pair of [Egas_guess] and
    [EradVec_guess]. *)
Definition apportionWork (dEkin_work x1GasMom1 x2GasMom1 x3GasMom1 : T)
    (kappaFVec : nat -> T) (Frad_t1 : nat -> nat -> T)
    (Egas_guess : T) (EradVec_guess : nat -> T) : T * (nat -> T) :=
  let c := c_light_ P in
  let chat := c_hat_ P in
  let dErad_work := (- (c_hat_ P / c_light_ P)) * dEkin_work in
  let energyLossFractions :=
    if (nGroups_ P =? 1)%nat then upd zeros 0 #1
    else
      let energyLossFractions := for_loop (nGroups_ P) (fun g energyLossFractions =>
        upd energyLossFractions g
            (kappaFVec g * (x1GasMom1 * Frad_t1 0%nat g + x2GasMom1 * Frad_t1 1%nat g
                            + x3GasMom1 * Frad_t1 2%nat g))) zeros in
      let energyLossFractionsTot := vsum (nGroups_ P) energyLossFractions in
      if negb (energyLossFractionsTot =? #0)
      then vsdiv energyLossFractions energyLossFractionsTot
      else zeros in
  for_loop (nGroups_ P) (fun g acc =>
    let radEnergyNew := snd acc g + dErad_work * energyLossFractions g in
    if radEnergyNew <? Erad_floor_ P
    then (fst acc - (Erad_floor_ P - radEnergyNew) * (c / chat), upd (snd acc) g (Erad_floor_ P))
    else (fst acc, upd (snd acc) g radEnergyNew)) (Egas_guess, EradVec_guess).

Definition max_ite : nat := 5.
Definition lag_tol : T := #1 / #10000000000000.

(** One pass of the full-step iteration.  The result is [None] when one
    of the assertions after the Newton-Raphson loop fails; otherwise it is
    the state after the pass, with the flag that tells whether the pass
    left the iteration through [break].  With [gamma_ == 1.0] the pass is
    what the source leaves of it: [T_gas] from the [Egas_guess] that it
    inherits (the initial [NAN]), [kappaFVec], the flux update without
    velocity terms, and [break]. *)
Definition fullStepPass (ite : nat) (s : SourceState)
    (consPrev radEnergySource : nat -> T) (boundaries : nat -> T)
    (dt_radiation : T) (stage : Z) : option (SourceState * bool) :=
  let dt := if (stage =? 2)%Z then (#1 - IMEX_a32 Hy) * dt_radiation else dt_radiation in
  let c := c_light_ P in
  let chat := c_hat_ P in
  let rho := consPrev (gasDensity_index P) in
  let x1GasMom0 := consPrev (x1GasMomentum_index P) in
  let x2GasMom0 := consPrev (x2GasMomentum_index P) in
  let x3GasMom0 := consPrev (x3GasMomentum_index P) in
  let gasMtm0 := vec3 x1GasMom0 x2GasMom0 x3GasMom0 in
  let Egastot0 := consPrev (gasEnergy_index P) in
  let massScalars := ComputeMassScalars P consPrev in
  if gamma_ P =? #1 then
    (* 2. Compute radiation flux update *)
    let T_gas := ComputeTgasFromEint rho (ss_Egas_guess s) massScalars in
    let kappaFVec := ComputeFluxMeanOpacity rho T_gas in
    let dMomentum := zeros in
    let '(Frad_t1, dMomentum) :=
      for_loop (nGroups_ P) (fluxUpdate_group_isothermal rho dt kappaFVec consPrev)
        (ss_Frad_t1 s, dMomentum) in
    Some ({| ss_Egas_guess := ss_Egas_guess s; ss_EradVec_guess := ss_EradVec_guess s;
             ss_kappaPoverE := ss_kappaPoverE s; ss_tau := ss_tau s;
             ss_work := ss_work s; ss_work_prev := ss_work_prev s;
             ss_dMomentum := dMomentum; ss_Frad_t1 := Frad_t1 |}, true)
  else
  let Egas0 := ComputeEintFromEgas rho x1GasMom0 x2GasMom0 x3GasMom0 Egastot0 in
  let Ekin0 := Egastot0 - Egas0 in
  let betaSqr := (x1GasMom0 * x1GasMom0 + x2GasMom0 * x2GasMom0 + x3GasMom0 * x3GasMom0)
                 / (rho * rho * c * c) in
  let '(lorentz_factor, lorentz_factor_v, lorentz_factor_v_v) := lorentzFactors P NAN betaSqr in
  (* 1. Compute energy exchange *)
  let '(ex, st0) := exchangeSetupAt ite s consPrev radEnergySource boundaries dt_radiation stage in
  let '(st, converged) :=
    NewtonRaphson P Hy infinity std_pow ComputeTgasFromEint ComputeEintTempDerivative
      ComputePlanckOpacity ComputeEnergyMeanOpacity integrate_planck_from_0_to_x
      maxIter ex st0 in
  if negb (converged && (Egas_guess st >? #0) && vmin_geb (nGroups_ P) (EradVec_guess st) #0)
  then None
  else
    let Egas_guess := Egas_guess st in
    let EradVec_guess := EradVec_guess st in
    (* 2. Compute radiation flux update *)
    let T_gas := ComputeTgasFromEint rho Egas_guess massScalars in
    let fourPiBoverC :=
      ComputeThermalRadiation P std_pow integrate_planck_from_0_to_x T_gas boundaries in
    let kappaPVec := ComputePlanckOpacity rho T_gas in
    let kappaEVec := ComputeEnergyMeanOpacity rho T_gas in
    let kappaFVec := ComputeFluxMeanOpacity rho T_gas in
    let dMomentum := zeros in
    let '(Frad_t1, dMomentum) :=
      for_loop (nGroups_ P)
        (fluxUpdate_group rho dt gasMtm0 lorentz_factor lorentz_factor_v lorentz_factor_v_v
           fourPiBoverC kappaPVec kappaEVec kappaFVec EradVec_guess consPrev)
        (ss_Frad_t1 s, dMomentum) in
    let x1GasMom1 := consPrev (x1GasMomentum_index P) + dMomentum 0%nat in
    let x2GasMom1 := consPrev (x2GasMomentum_index P) + dMomentum 1%nat in
    let x3GasMom1 := consPrev (x3GasMomentum_index P) + dMomentum 2%nat in
    (* 3. Deal with the work term *)
    let '(Egas_guess, EradVec_guess) :=
      if negb (beta_order_ P =? 0)%Z then
        let Egastot1 := ComputeEgasFromEint rho x1GasMom1 x2GasMom1 x3GasMom1 Egas_guess in
        let Ekin1 := Egastot1 - Egas_guess in
        let dEkin_work := Ekin1 - Ekin0 in
        if include_work_term_in_source Hy
        then (Egas_guess - dEkin_work, EradVec_guess)
        else apportionWork dEkin_work x1GasMom1 x2GasMom1 x3GasMom1 kappaFVec Frad_t1
               Egas_guess EradVec_guess
      else (Egas_guess, EradVec_guess) in
    if (beta_order_ P =? 0)%Z || negb (include_work_term_in_source Hy) then
      Some ({| ss_Egas_guess := Egas_guess; ss_EradVec_guess := EradVec_guess;
               ss_kappaPoverE := kappaPoverE st; ss_tau := tau st;
               ss_work := ex_work ex; ss_work_prev := ss_work_prev s;
               ss_dMomentum := dMomentum; ss_Frad_t1 := Frad_t1 |}, true)
    else
      let '(work, work_prev) :=
        for_loop (nGroups_ P) (fun g acc =>
          let work_prev := upd (snd acc) g (fst acc g) in
          let work :=
            upd (fst acc) g
                ((x1GasMom1 * Frad_t1 0%nat g + x2GasMom1 * Frad_t1 1%nat g
                  + x3GasMom1 * Frad_t1 2%nat g) * chat / (c * c) * lorentz_factor_v
                 * (#2 * kappaEVec g - kappaFVec g) * dt) in
          (work, work_prev)) (ex_work ex, ss_work_prev s) in
      let lagged :=
        (vsum (nGroups_ P) (vabs work) =? #0)
        || ((c / chat) * vsum (nGroups_ P) (vabs (vsub work work_prev)) / ex_Etot0 ex <? lag_tol)
        || (vsum (nGroups_ P) (vabs (vsub work work_prev))
            <=? lag_tol * vsum (nGroups_ P) (Rvec st)) in
      Some ({| ss_Egas_guess := Egas_guess; ss_EradVec_guess := EradVec_guess;
               ss_kappaPoverE := kappaPoverE st; ss_tau := tau st;
               ss_work := work; ss_work_prev := work_prev;
               ss_dMomentum := dMomentum; ss_Frad_t1 := Frad_t1 |}, lagged).

(** [for (; ite < max_ite; ++ite) { pass; if (...) break; }] with [fuel]
    passes left, followed by the assertion [ite < max_ite]: the iteration
    has no result when a pass aborts or when the passes run out. *)
Fixpoint fullStepIteration (fuel ite : nat) (s : SourceState)
    (consPrev radEnergySource : nat -> T) (boundaries : nat -> T)
    (dt_radiation : T) (stage : Z) : option SourceState :=
  match fuel with
  | O => None
  | S fuel' =>
      match fullStepPass ite s consPrev radEnergySource boundaries dt_radiation stage with
      | None => None
      | Some (s', true) => Some s'
      | Some (s', false) =>
          fullStepIteration fuel' (S ite) s' consPrev radEnergySource boundaries
            dt_radiation stage
      end
  end.

(** "4b. Store new radiation energy, gas energy": the stores into the
    cell, in the order of the source.  The gas energies and the radiation
    energies are stored under [if constexpr (gamma_ != 1.0)] only; [Egas0]
    is read in that branch only. *)
Definition storeSourceTerms (consVar : nat -> T) (stage : Z) (s : SourceState) : nat -> T :=
  let consPrev := consVar in
  let rho := consPrev (gasDensity_index P) in
  let x1GasMom0 := consPrev (x1GasMomentum_index P) in
  let x2GasMom0 := consPrev (x2GasMomentum_index P) in
  let x3GasMom0 := consPrev (x3GasMomentum_index P) in
  let Egastot0 := consPrev (gasEnergy_index P) in
  let Egas0 := ComputeEintFromEgas rho x1GasMom0 x2GasMom0 x3GasMom0 Egastot0 in
  let gas_update_factor := if (stage =? 1)%Z then IMEX_a32 Hy else #1 in
  let dMomentum := ss_dMomentum s in
  let x1GasMom1 := consPrev (x1GasMomentum_index P) + dMomentum 0%nat * gas_update_factor in
  let x2GasMom1 := consPrev (x2GasMomentum_index P) + dMomentum 1%nat * gas_update_factor in
  let x3GasMom1 := consPrev (x3GasMomentum_index P) + dMomentum 2%nat * gas_update_factor in
  let consNew := upd consVar (x1GasMomentum_index P) x1GasMom1 in
  let consNew := upd consNew (x2GasMomentum_index P) x2GasMom1 in
  let consNew := upd consNew (x3GasMomentum_index P) x3GasMom1 in
  let consNew :=
    if negb (gamma_ P =? #1) then
      let Egas_guess := Egas0 + (ss_Egas_guess s - Egas0) * gas_update_factor in
      let consNew := upd consNew (gasInternalEnergy_index P) Egas_guess in
      upd consNew (gasEnergy_index P)
          (ComputeEgasFromEint rho x1GasMom1 x2GasMom1 x3GasMom1 Egas_guess)
    else consNew in
  for_loop (nGroups_ P) (fun g consNew =>
    let consNew :=
      if negb (gamma_ P =? #1)
      then upd consNew (radEnergy_index P + numRadVars_ * g) (ss_EradVec_guess s g)
      else consNew in
    let consNew := upd consNew (x1RadFlux_index P + numRadVars_ * g) (ss_Frad_t1 s 0%nat g) in
    let consNew := upd consNew (x2RadFlux_index P + numRadVars_ * g) (ss_Frad_t1 s 1%nat g) in
    let consNew := upd consNew (x3RadFlux_index P + numRadVars_ * g) (ss_Frad_t1 s 2%nat g) in
    consNew) consNew.

(** The kernel of [AddSourceTerms] at one cell: [consVar] holds the
    component arrays of the cell, which the kernel reads as [consPrev] and
    writes as [consNew]. *)
Definition AddSourceTerms (consVar radEnergySource : nat -> T) (boundaries : nat -> T)
    (dt_radiation : T) (stage : Z) : option (nat -> T) :=
  let consPrev := consVar in
  let Erad0Vec := fun g => consPrev (radEnergy_index P + numRadVars_ * g)%nat in
  match fullStepIteration max_ite 0 (sourceState0 Erad0Vec)
          consPrev radEnergySource boundaries dt_radiation stage with
  | None => None
  | Some s => Some (storeSourceTerms consVar stage s)
  end.

End AddSourceTerms.

(** ** The driver of RadhydroSimulation.hpp *)

(** [amrex::TagBox::TagVal], the values of a refinement tag. *)
Inductive TagVal : Type := CLEAR | BUF | SET.

Section RadhydroSimulation.

Context {T : Type} `{Scalar T}.
Variable P : RadSystem_Traits T.
Variable AMREX_SPACEDIM : SpaceDim.
Variable NAN : T.

(** [std::ceil] followed by the conversion of its result to
    [amrex::Long]. *)
Variable std_ceil : T -> Z.

(** The members [radiationCflNumber_] and [is_hydro_enabled_] of the
    simulation. *)
Variable radiationCflNumber_ : T.
Variable is_hydro_enabled_ : bool.

Local Open Scope scalar_scope.

(** [std::min({AMREX_D_DECL(dx[0], dx[1], dx[2])})], the smallest of as
    many cell sizes as the build has dimensions. *)
Definition dx_min (dx : nat -> T) : T :=
  match AMREX_SPACEDIM with
  | Dim1 => dx 0%nat
  | Dim2 => std_min (dx 0%nat) (dx 1%nat)
  | Dim3 => std_min (std_min (dx 0%nat) (dx 1%nat)) (dx 2%nat)
  end.

(** [subcycleRadiationAtLevel] up to its loop: the number of radiation
    substeps and the time step [dt_radiation] that the loop passes to
    each of them.  The three assertions [AMREX_ALWAYS_ASSERT] abort the
    run; the function then has no result. *)
Definition subcycleRadiationAtLevel (dx : nat -> T) (dt_lev_hydro : T) : option (Z * T) :=
  let domain_signal_max := c_hat_ P in
  let dx_min := dx_min dx in
  let dtrad_tmp := radiationCflNumber_ * (dx_min / domain_signal_max) in
  let nsubSteps := 0%Z in
  let dt_radiation := NAN in
  let '(nsubSteps, dt_radiation) :=
    if is_hydro_enabled_ then
      let dt_hydro := dt_lev_hydro in
      let nsubSteps := std_ceil (dt_hydro / dtrad_tmp) in
      let dt_radiation := dt_hydro / #nsubSteps in
      (nsubSteps, dt_radiation)
    else (nsubSteps, dt_radiation) in
  if (1 <=? nsubSteps)%Z && (#nsubSteps <? #10000) && (dt_radiation >? #0)
  then Some (nsubSteps, dt_radiation)
  else None.

(** The kernel of [ErrorEst] at the cell [(i, j, k)]: the densities of
    the cell and of its four neighbours in x and y, and the tag of the
    cell before and after. *)
Definition ErrorEst (state_i state_ip1 state_im1 state_jp1 state_jm1 : T) (tag : TagVal)
    : TagVal :=
  let epsilon_threshold := #1 / #100 in
  let delsq_x := state_ip1 - #2 * state_i + state_im1 in
  let delsq_y := state_jp1 - #2 * state_i + state_jm1 in
  let epsilon := s_abs (delsq_x + delsq_y) / state_i in
  if epsilon >? epsilon_threshold then SET else tag.

End RadhydroSimulation.

(** ** The pulse test (test_radhydro_pulse_grey.cpp) *)

Section PulseProblem.

Context {T : Type} `{Scalar T}.

(** [std::exp] and [std::pow], and the physical constants [C::a_rad],
    [C::m_u] and [C::k_B] of the units header. *)
Variable std_exp : T -> T.
Variable std_pow : T -> T -> T.
Variable C_a_rad : T.
Variable C_m_u : T.
Variable C_k_B : T.

Local Open Scope scalar_scope.

Definition T0 : T := #10000000.
Definition T1 : T := #20000000.
Definition rho0 : T := #12 / #10.
Definition a_rad : T := C_a_rad.
Definition width : T := #24.
Definition mu : T := #233 / #100 * C_m_u.
Definition k_B : T := C_k_B.
Definition v0_adv : T := #1000000.

Definition compute_initial_Tgas (x : T) : T :=
  let sigma := width in
  T0 + (T1 - T0) * std_exp ((- x) * x / (#2 * sigma * sigma)).

Definition compute_exact_rho (x : T) : T :=
  let T_ := compute_initial_Tgas x in
  rho0 * T0 / T_ + (a_rad * mu / #3 / k_B) * (std_pow T0 #4 / T_ - std_pow T_ #3).

End PulseProblem.

(** The remapping of [problem_main] that moves the advected profile back
    by the distance the pulse has travelled.  The operands are cell
    counts of type [int]; [/] on them truncates toward zero. *)
Definition pulse_half (nx : Z) : Z := Z.quot nx 2.

Definition pulse_shift (n_p half nx : Z) : Z :=
  (n_p - Z.quot (n_p + half) nx * nx)%Z.

Definition pulse_index (shift nx i : Z) : Z :=
  if (shift >=? 0)%Z then
    if (i <? shift)%Z then (nx - shift + i)%Z else (i - shift)%Z
  else
    if (i <=? nx - 1 + shift)%Z then (i - shift)%Z else (i - (nx + shift))%Z.

(** * Specifications and concrete data

    The definitions that the properties below compare the code with, and
    the traits, cells and faces on which they are evaluated. *)

Unset Implicit Arguments.
Local Open Scope R_scope.

(** The closure as the spec writes it. *)
Definition chi_spec (g : R) : R := (3 + 4 * g ^ 2) / (5 + 2 * sqrt (4 - 3 * g ^ 2)).

(** "f clamped to [0,1]" *)
Definition clamp01_spec (f : R) : R := Rmax 0 (Rmin 1 f).

(** A one-group problem in units where every constant is [1]; the
    radiation variables start at index 6, after six gas variables. *)
Definition unit_traits : RadSystem_Traits R := {|
  c_light := 1; c_hat := 1; radiation_constant := 1; Erad_floor := 1;
  energy_unit := 1; beta_order := 1; nGroups := 1; numMassScalars := 0;
  hydroFirstIndex := 0; radFirstIndex := 6; EOS_gamma := 5 / 3; boltzmann_constant := 1
|}.

(** An isotropic state at rest on both sides of the face. *)
Definition isotropic_state : FaceState := {|
  erad_L := 1; erad_R := 1;
  Fx_L := 0; Fx_R := 0; Fy_L := 0; Fy_R := 0; Fz_L := 0; Fz_R := 0;
  fx_L := 0; fx_R := 0; fy_L := 0; fy_R := 0; fz_L := 0; fz_R := 0;
  f_L := 0; f_R := 0
|}.

(** The same problem with two groups. *)
Definition two_group_traits : RadSystem_Traits R := {|
  c_light := 1; c_hat := 1; radiation_constant := 1; Erad_floor := 1;
  energy_unit := 1; beta_order := 1; nGroups := 2; numMassScalars := 0;
  hydroFirstIndex := 0; radFirstIndex := 6; EOS_gamma := 5 / 3; boltzmann_constant := 1
|}.

(** One group with [E_r = 49] and [F = (1, 0, 0)], stored from index 6. *)
Definition cell_49 : nat -> R :=
  fun n => match n with 6%nat => 49 | 7%nat => 1 | _ => 0 end.

(** The one-group unit problem in binary64. *)
Definition unit_traits_binary64 : RadSystem_Traits PrimFloat.float := {|
  c_light := float_ofZ 1; c_hat := float_ofZ 1; radiation_constant := float_ofZ 1;
  Erad_floor := float_ofZ 1; energy_unit := float_ofZ 1; beta_order := 1; nGroups := 1;
  numMassScalars := 0; hydroFirstIndex := 0; radFirstIndex := 6;
  EOS_gamma := PrimFloat.div (float_ofZ 5) (float_ofZ 3); boltzmann_constant := float_ofZ 1
|}.

(** The cell [cell_49] in binary64. *)
Definition cell_49_binary64 : nat -> PrimFloat.float :=
  fun n => match n with
           | 6%nat => float_ofZ 49
           | 7%nat => float_ofZ 1
           | _ => float_ofZ 0
           end.

(** The test that one pass of the loop of [isStateValid] makes on group
    [g], on the local indices [4 g .. 4 g + 3]. *)
Definition groupValid {T : Type} `{Scalar T} (P : RadSystem_Traits T) (cons : nat -> T)
    (g : nat) : bool :=
  let E_r := cons (4 * g)%nat in
  let Fx := cons (1 + 4 * g)%nat in
  let Fy := cons (2 + 4 * g)%nat in
  let Fz := cons (3 + 4 * g)%nat in
  s_ltb (s_ofZ 0) E_r &&
  s_leb (s_div (s_sqrt (s_add (s_add (s_mul Fx Fx) (s_mul Fy Fy)) (s_mul Fz Fz)))
               (s_mul (c_light P) E_r)) (s_ofZ 1).

(** The four entries that one pass of the loop of [amendRadState] leaves
    in a group, as a function of the four entries it finds there. *)
Definition amendedGroup {T : Type} `{Scalar T} (P : RadSystem_Traits T)
    (E_r0 Fx Fy Fz : T) : nat -> T :=
  let E_r := if s_ltb E_r0 (Erad_floor_ P) then Erad_floor_ P else E_r0 in
  let F2 := s_add (s_add (s_mul Fx Fx) (s_mul Fy Fy)) (s_mul Fz Fz) in
  if s_ltb (s_mul (s_mul (s_mul (c_light P) (c_light P)) E_r) E_r) F2 then
    vec4 E_r
         (s_mul (s_mul (s_div Fx (s_sqrt F2)) (c_light P)) E_r)
         (s_mul (s_mul (s_div Fy (s_sqrt F2)) (c_light P)) E_r)
         (s_mul (s_mul (s_div Fz (s_sqrt F2)) (c_light P)) E_r)
  else vec4 E_r Fx Fy Fz.

(** One group, [c = 1], and the floor [Erad_floor = 0.] that the
    unspecialised [RadSystem_Traits] declares. *)
Definition zero_floor_traits : RadSystem_Traits R := {|
  c_light := 1; c_hat := 1; radiation_constant := 1; Erad_floor := 0;
  energy_unit := 1; beta_order := 1; nGroups := 1; numMassScalars := 0;
  hydroFirstIndex := 0; radFirstIndex := 6; EOS_gamma := 5 / 3; boltzmann_constant := 1
|}.

(** The same traits in binary64. *)
Definition zero_floor_traits_binary64 : RadSystem_Traits PrimFloat.float := {|
  c_light := float_ofZ 1; c_hat := float_ofZ 1; radiation_constant := float_ofZ 1;
  Erad_floor := float_ofZ 0; energy_unit := float_ofZ 1; beta_order := 1; nGroups := 1;
  numMassScalars := 0; hydroFirstIndex := 0; radFirstIndex := 6;
  EOS_gamma := PrimFloat.div (float_ofZ 5) (float_ofZ 3); boltzmann_constant := float_ofZ 1
|}.

(** A candidate state whose energy an update has driven negative:
    [E_r = -1], [F = (1, 0, 0)]. *)
Definition negative_energy_state : nat -> R :=
  fun n => match n with 0%nat => -1 | 1%nat => 1 | _ => 0 end.

(** The same state in binary64. *)
Definition negative_energy_state_binary64 : nat -> PrimFloat.float :=
  fun n => match n with
           | 0%nat => float_ofZ (-1)
           | 1%nat => float_ofZ 1
           | _ => float_ofZ 0
           end.

(** A state with a flux outside the causal sphere: [E_r = 3],
    [F = (0, 3, 3)], so that [|F| = 4.24 > c * E_r = 3]. *)
Definition superluminal_state_binary64 : nat -> PrimFloat.float :=
  fun n => match n with
           | 0%nat => float_ofZ 3
           | 1%nat => float_ofZ 0
           | _ => float_ofZ 3
           end.

(** A face of a one-group problem whose reconstructed left state is not
    causal ([f_L = 1]), between two cells with admissible states. *)
Definition noncausal_left : nat -> R :=
  fun n => match n with 0%nat => 1 | 1%nat => 1 | _ => 0 end.

Definition isotropic_right : nat -> R :=
  fun n => match n with 0%nat => 1 | _ => 0 end.

Definition left_cell : nat -> R :=
  fun n => match n with 6%nat => 1 | 7%nat => 1 / 2 | _ => 0 end.

Definition right_cell : nat -> R :=
  fun n => match n with 6%nat => 2 | _ => 0 end.

(** The number of space dimensions. *)
Definition dims (d : SpaceDim) : nat :=
  match d with Dim1 => 1 | Dim2 => 2 | Dim3 => 3 end.

(** The flux difference of variable [n] over the cell, summed over the
    space dimensions, as the spec writes it for both stages:
    [sum_d (flux_left,d - flux_right,d) / dx_d]. *)
Definition fluxDifference_spec (d : SpaceDim) (dx : nat -> R) (flux : @CellFluxes R)
    (n : nat) : R :=
  vsum (dims d) (fun a => (flux_lo flux a n - flux_hi flux a n) / dx a).

(** The stage-2 state of the spec:
    [(1 - a32) U0 + a32 U1 + dt ((0.5 - a32) div(flux0) + 0.5 div(flux1))]. *)
Definition stage2_spec (a32 dt U_0 U_1 div0 div1 : R) : R :=
  (1 - a32) * U_0 + a32 * U_1 + dt * ((1 / 2 - a32) * div0 + 1 / 2 * div1).

(** A one-dimensional cell with unit fluxes through its left face. *)
Definition unit_inflow : @CellFluxes R := {|
  flux_lo := fun _ _ => 1;
  flux_hi := fun _ _ => 0
|}.

(** A one-group cell at rest in binary64: density [1], total gas energy
    [1], radiation energy [2] and no flux. *)
Definition cell_at_rest_binary64 : nat -> PrimFloat.float :=
  fun n => match n with
           | 0%nat => float_ofZ 1
           | 4%nat => float_ofZ 1
           | 6%nat => float_ofZ 2
           | _ => float_ofZ 0
           end.

(** An ideal gas with unit heat capacity per mass: [T = Eint / rho]. *)
Definition ideal_gas_temperature_binary64 (rho Eint : PrimFloat.float)
    (massScalars : nat -> PrimFloat.float) : PrimFloat.float :=
  PrimFloat.div Eint rho.

(** Its heat capacity per volume, [dEint/dT = rho]. *)
Definition ideal_gas_heat_capacity_binary64 (rho Tgas : PrimFloat.float)
    (massScalars : nat -> PrimFloat.float) : PrimFloat.float := rho.

(** A medium without opacity, and one with the opacity [1000] in every
    group. *)
Definition no_opacity_binary64 (rho Tgas : PrimFloat.float) (g : nat) : PrimFloat.float :=
  float_ofZ 0.

Definition thick_opacity_binary64 (rho Tgas : PrimFloat.float) (g : nat) : PrimFloat.float :=
  float_ofZ 1000.

(** [std::pow(x, 4)] by repeated multiplication. *)
Definition fourth_power_binary64 (x y : PrimFloat.float) : PrimFloat.float :=
  PrimFloat.mul (PrimFloat.mul x x) (PrimFloat.mul x x).

(** A face in binary64 between a cell with [E_r = 3], [F = (1, 0, 0)] and
    a cell with [E_r = 7], [F = (2, 1, 0)], with admissible reconstructed
    states [E_r = 4], [f = (1/4, 0, 0)] and [E_r = 6], [f = (1/3, 1/6, 0)]. *)
Definition left_state_binary64 : nat -> PrimFloat.float :=
  fun n => match n with
           | 0%nat => float_ofZ 4
           | 1%nat => PrimFloat.div (float_ofZ 1) (float_ofZ 4)
           | _ => float_ofZ 0
           end.

Definition right_state_binary64 : nat -> PrimFloat.float :=
  fun n => match n with
           | 0%nat => float_ofZ 6
           | 1%nat => PrimFloat.div (float_ofZ 1) (float_ofZ 3)
           | 2%nat => PrimFloat.div (float_ofZ 1) (float_ofZ 6)
           | _ => float_ofZ 0
           end.

Definition left_cell_binary64 : nat -> PrimFloat.float :=
  fun n => match n with
           | 6%nat => float_ofZ 3
           | 7%nat => float_ofZ 1
           | _ => float_ofZ 0
           end.

Definition right_cell_binary64 : nat -> PrimFloat.float :=
  fun n => match n with
           | 6%nat => float_ofZ 7
           | 7%nat => float_ofZ 2
           | 8%nat => float_ofZ 1
           | _ => float_ofZ 0
           end.

(** The two flux arrays of that face after [ComputeFluxes<X1>], with the
    hyper parameters of the source. *)
Definition face_fluxes_binary64 : (nat -> PrimFloat.float) * (nat -> PrimFloat.float) :=
  ComputeFluxes unit_traits_binary64 source_hyper PrimFloat.nan
    ideal_gas_temperature_binary64 thick_opacity_binary64 X1 0%Z 0%Z 0%Z
    left_state_binary64 right_state_binary64 left_cell_binary64 right_cell_binary64
    (fun _ => float_ofZ 1) (zeros, zeros).

(** The faces of cell [i] of a one-dimensional row of cells, as the
    update kernels read them from the flux array of direction 0:
    [x1Flux(i, j, k, n)] and [x1Flux(i + 1, j, k, n)]. *)
Definition rowFluxes (x1Flux : nat -> nat -> R) (i : nat) : @CellFluxes R := {|
  flux_lo := fun d n => match d with 0%nat => x1Flux i n | _ => 0 end;
  flux_hi := fun d n => match d with 0%nat => x1Flux (S i) n | _ => 0 end
|}.

(** A one-group cell with [E_r = 1] and no flux, and a cell without any
    flux through its faces. *)
Definition isotropic_cell : nat -> R :=
  fun n => match n with 6%nat => 1 | _ => 0 end.

Definition no_flux : @CellFluxes R := {|
  flux_lo := fun _ _ => 0;
  flux_hi := fun _ _ => 0
|}.

(** A one-group cell at rest in which gas and radiation are in
    equilibrium: density [1], gas energy [1], radiation energy [1], in a
    medium of unit opacity whose temperature and Planck energy are [1]. *)
Definition equilibrium_cell : nat -> R :=
  fun n => match n with 0%nat => 1 | 4%nat => 1 | 6%nat => 1 | _ => 0 end.

Definition unit_temperature (rho Eint : R) (massScalars : nat -> R) : R := 1.

Definition unit_heat_capacity (rho Tgas : R) (massScalars : nat -> R) : R := 1.

Definition unit_opacity (rho Tgas : R) (g : nat) : R := 1.

Definition unit_power (x y : R) : R := 1.

(** A one-group cell in binary64 whose gas moves: density [1], momentum
    [(0.001, 0, 0)], total gas energy [1], radiation energy [2] and flux
    [(0.5, 0, 0)], in a medium of unit opacity. *)
Definition moving_cell_binary64 : nat -> PrimFloat.float :=
  fun n => match n with
           | 0%nat => float_ofZ 1
           | 1%nat => PrimFloat.div (float_ofZ 1) (float_ofZ 1000)
           | 4%nat => float_ofZ 1
           | 6%nat => float_ofZ 2
           | 7%nat => PrimFloat.div (float_ofZ 1) (float_ofZ 2)
           | _ => float_ofZ 0
           end.

Definition unit_opacity_binary64 (rho Tgas : PrimFloat.float) (g : nat) : PrimFloat.float :=
  float_ofZ 1.

(** [std::pow(x, y)] for the exponents [3] and [4] that the kernel uses,
    by repeated multiplication. *)
Definition small_power_binary64 (x y : PrimFloat.float) : PrimFloat.float :=
  if PrimFloat.eqb y (float_ofZ 3) then PrimFloat.mul (PrimFloat.mul x x) x
  else PrimFloat.mul (PrimFloat.mul x x) (PrimFloat.mul x x).
(** The one-group unit problem in binary64 without velocity terms. *)
Definition static_traits_binary64 : RadSystem_Traits PrimFloat.float := {|
  c_light := float_ofZ 1; c_hat := float_ofZ 1; radiation_constant := float_ofZ 1;
  Erad_floor := float_ofZ 1; energy_unit := float_ofZ 1; beta_order := 0; nGroups := 1;
  numMassScalars := 0; hydroFirstIndex := 0; radFirstIndex := 6;
  EOS_gamma := PrimFloat.div (float_ofZ 5) (float_ofZ 3); boltzmann_constant := float_ofZ 1
|}.

(** The one-group unit problem in binary64 for an isothermal gas,
    [gamma_ == 1.0]. *)
Definition isothermal_traits_binary64 : RadSystem_Traits PrimFloat.float := {|
  c_light := float_ofZ 1; c_hat := float_ofZ 1; radiation_constant := float_ofZ 1;
  Erad_floor := float_ofZ 1; energy_unit := float_ofZ 1; beta_order := 1; nGroups := 1;
  numMassScalars := 0; hydroFirstIndex := 0; radFirstIndex := 6;
  EOS_gamma := float_ofZ 1; boltzmann_constant := float_ofZ 1
|}.

(** The one-group unit problem with velocity terms of second order. *)
Definition second_order_traits : RadSystem_Traits R := {|
  c_light := 1; c_hat := 1; radiation_constant := 1; Erad_floor := 1;
  energy_unit := 1; beta_order := 2; nGroups := 1; numMassScalars := 0;
  hydroFirstIndex := 0; radFirstIndex := 6; EOS_gamma := 5 / 3; boltzmann_constant := 1
|}.

(** [sgn] of math_impl.hpp on the reals: the sign as an integer,
    [(0 < x) - (x < 0)]. *)
Definition sign_of (x : R) : Z :=
  ((if Rltb 0 x then 1 else 0) - (if Rltb x 0 then 1 else 0))%Z.

(** An ideal monatomic gas with unit particle mass and unit Boltzmann
    constant. *)
Definition monatomic_gas : EOS_Traits R := {|
  eos_gamma := 5 / 3; eos_cs_isothermal := 0;
  eos_mean_molecular_weight := 1; eos_boltzmann_constant := 1
|}.
(** The logarithmic slope of a quantity between the groups [k] and
    [k + 1], from its means [quant / width] over the two groups and the
    geometric centers of the groups, as the first loop of
    [ComputeRadQuantityExponents] stores it in [logslopes[k]]. *)
Definition logslope {T : Type} `{Scalar T} (std_log : T -> T) (inf : T)
    (quant boundaries : nat -> T) (k : nat) : T :=
  let mean := fun g => s_div (quant g) (s_sub (boundaries (g + 1)%nat) (boundaries g)) in
  let center := fun g => s_sqrt (s_mul (boundaries g) (boundaries (g + 1)%nat)) in
  if s_eqb (mean (k + 1)%nat) (s_ofZ 0) && s_eqb (mean k) (s_ofZ 0) then s_ofZ 0
  else if s_leb (s_mul (mean k) (mean (k + 1)%nat)) (s_ofZ 0) then
    if s_ltb (mean k) (mean (k + 1)%nat) then inf else s_opp inf
  else s_div (std_log (s_abs (s_div (mean (k + 1)%nat) (mean k))))
             (std_log (s_div (center (k + 1)%nat) (center k))).

(** The unit problem with three groups. *)
Definition three_group_traits : RadSystem_Traits R := {|
  c_light := 1; c_hat := 1; radiation_constant := 1; Erad_floor := 1;
  energy_unit := 1; beta_order := 1; nGroups := 3; numMassScalars := 0;
  hydroFirstIndex := 0; radFirstIndex := 6; EOS_gamma := 5 / 3; boltzmann_constant := 1
|}.


(** The ceiling of a real number as an integer. *)
Definition ceil_R (x : R) : Z := (1 - up (- x))%Z.

(** Fluxes of the new state that carry four units of energy out of a
    one-dimensional cell through its upper face. *)
Definition energy_outflow : @CellFluxes R := {|
  flux_lo := fun _ _ => 0;
  flux_hi := fun d n => match d, n with 0%nat, 0%nat => 4 | _, _ => 0 end
|}.

(** The cell [isotropic_cell] and the fluxes [no_flux] and
    [energy_outflow] in binary64. *)
Definition isotropic_cell_binary64 : nat -> PrimFloat.float :=
  fun n => match n with 6%nat => float_ofZ 1 | _ => float_ofZ 0 end.

Definition no_flux_binary64 : @CellFluxes PrimFloat.float := {|
  flux_lo := fun _ _ => float_ofZ 0;
  flux_hi := fun _ _ => float_ofZ 0
|}.

Definition energy_outflow_binary64 : @CellFluxes PrimFloat.float := {|
  flux_lo := fun _ _ => float_ofZ 0;
  flux_hi := fun d n => match d, n with 0%nat, 0%nat => float_ofZ 4 | _, _ => float_ofZ 0 end
|}.



(** * Properties *)

(** ** Exact arithmetic: reading the definitions over the reals *)

Lemma Rltb_true (x y : R) : Rltb x y = true <-> x < y.
Proof. unfold Rltb; destruct (Rlt_dec x y); split; intros; try easy. Qed.

Lemma Rltb_false (x y : R) : Rltb x y = false <-> y <= x.
Proof.
  unfold Rltb; destruct (Rlt_dec x y); split; intros; try easy; lra.
Qed.

Lemma Rleb_true (x y : R) : Rleb x y = true <-> x <= y.
Proof. unfold Rleb; destruct (Rle_dec x y); split; intros; try easy. Qed.

Lemma Rleb_false (x y : R) : Rleb x y = false <-> y < x.
Proof.
  unfold Rleb; destruct (Rle_dec x y); split; intros; try easy; lra.
Qed.

(** Unfolds the scalar operations at the real instance. *)
Ltac real_ops :=
  cbn [s_ofZ s_add s_sub s_mul s_div s_opp s_sqrt s_abs s_ltb s_leb s_eqb R_scalar] in *.

(** Case analysis on a comparison of reals that guards a conditional. *)
Ltac case_Rltb x y :=
  let E := fresh "E" in
  destruct (Rltb x y) eqn:E;
  [ apply Rltb_true in E | apply Rltb_false in E ].

Ltac case_Rleb x y :=
  let E := fresh "E" in
  destruct (Rleb x y) eqn:E;
  [ apply Rleb_true in E | apply Rleb_false in E ].

(** ** The M1 closure *)

Lemma clamp_is_clamp01 (f : R) : clamp f 0 1 = clamp01_spec f.
Proof.
  unfold clamp, clamp01_spec; real_ops.
  case_Rltb f 0; [| case_Rltb 1 f].
  - rewrite Rmin_right by lra. now rewrite Rmax_left by lra.
  - rewrite Rmin_left by lra. now rewrite Rmax_right by lra.
  - rewrite Rmin_right by lra. now rewrite Rmax_right by lra.
Qed.

Lemma ComputeEddingtonFactor_spec (f : R) :
  ComputeEddingtonFactor f = chi_spec (clamp01_spec f).
Proof.
  unfold ComputeEddingtonFactor. rewrite clamp_is_clamp01.
  unfold chi_spec; real_ops.
  now replace (clamp01_spec f ^ 2) with (clamp01_spec f * clamp01_spec f) by ring.
Qed.

Lemma clamp01_range (f : R) : 0 <= clamp01_spec f <= 1.
Proof.
  unfold clamp01_spec, Rmax, Rmin.
  destruct (Rle_dec 1 f); destruct (Rle_dec 0 _); lra.
Qed.

Lemma sqrt_4_3 (g : R) : 0 <= g <= 1 -> 1 <= sqrt (4 - 3 * g ^ 2) <= 2.
Proof.
  intros Hg. split.
  - rewrite <- sqrt_1 at 1. apply sqrt_le_1_alt. nra.
  - assert (Hle : sqrt (4 - 3 * g ^ 2) <= sqrt (2 * 2)) by (apply sqrt_le_1_alt; nra).
    now rewrite sqrt_square in Hle by lra.
Qed.

Lemma chi_spec_range (g : R) : 0 <= g <= 1 -> 1 / 3 <= chi_spec g <= 1.
Proof.
  intros Hg. pose proof (sqrt_4_3 g Hg) as Hs. unfold chi_spec.
  set (s := sqrt (4 - 3 * g ^ 2)) in *.
  assert (Hd : 0 < 5 + 2 * s) by lra.
  split.
  - apply Rmult_le_reg_r with (5 + 2 * s); [exact Hd|].
    unfold Rdiv at 2. rewrite Rmult_assoc, Rinv_l by lra. nra.
  - apply Rmult_le_reg_r with (5 + 2 * s); [exact Hd|].
    unfold Rdiv. rewrite Rmult_assoc, Rinv_l by lra. nra.
Qed.

Lemma ComputeEddingtonFactor_range (f : R) :
  1 / 3 <= ComputeEddingtonFactor f <= 1.
Proof.
  rewrite ComputeEddingtonFactor_spec. apply chi_spec_range, clamp01_range.
Qed.

Lemma ComputeEddingtonFactor_0 : ComputeEddingtonFactor 0 = 1 / 3.
Proof.
  rewrite ComputeEddingtonFactor_spec. unfold clamp01_spec, chi_spec.
  rewrite Rmin_right by lra. rewrite Rmax_left by lra.
  replace (4 - 3 * 0 ^ 2) with (2 * 2) by ring.
  rewrite sqrt_square by lra. field.
Qed.

Lemma ComputeEddingtonFactor_1 : ComputeEddingtonFactor 1 = 1.
Proof.
  rewrite ComputeEddingtonFactor_spec. unfold clamp01_spec, chi_spec.
  rewrite Rmin_left by lra. rewrite Rmax_right by lra.
  replace (4 - 3 * 1 ^ 2) with 1 by ring.
  rewrite sqrt_1. field.
Qed.

(** C2. For every real input [f], [ComputeEddingtonFactor f] is the
    Levermore closure [(3 + 4 g^2) / (5 + 2 sqrt (4 - 3 g^2))] at [g], the
    value of [f] clamped to [[0, 1]]; for [f] in [[0, 1]] the result lies
    in [[1/3, 1]]; the factor is [1/3] at [0] and [1] at [1], hence within
    [1e-12] of these values. *)
Theorem ComputeEddingtonFactor_closure :
  (forall f : R, ComputeEddingtonFactor f = chi_spec (clamp01_spec f)) /\
  (forall f : R, 0 <= f <= 1 -> 1 / 3 <= ComputeEddingtonFactor f <= 1) /\
  ComputeEddingtonFactor 0 = 1 / 3 /\
  ComputeEddingtonFactor 1 = 1 /\
  Rabs (ComputeEddingtonFactor 0 - 1 / 3) <= 1 / 10 ^ 12 /\
  Rabs (ComputeEddingtonFactor 1 - 1) <= 1 / 10 ^ 12.
Proof.
  repeat split.
  - apply ComputeEddingtonFactor_spec.
  - apply ComputeEddingtonFactor_range.
  - apply ComputeEddingtonFactor_range.
  - apply ComputeEddingtonFactor_0.
  - apply ComputeEddingtonFactor_1.
  - rewrite ComputeEddingtonFactor_0.
    replace (1 / 3 - 1 / 3) with 0 by lra. rewrite Rabs_R0.
    apply Rlt_le, Rdiv_lt_0_compat; [lra | apply pow_lt; lra].
  - rewrite ComputeEddingtonFactor_1.
    replace (1 - 1) with 0 by lra. rewrite Rabs_R0.
    apply Rlt_le, Rdiv_lt_0_compat; [lra | apply pow_lt; lra].
Qed.

Lemma ComputeEddingtonFactor_closure_witness :
  1 / 3 <= ComputeEddingtonFactor (1 / 2) <= 1.
Proof.
  apply (proj1 (proj2 ComputeEddingtonFactor_closure)). lra.
Defined.

(** On binary64 the two limits are met exactly: the closure evaluates to
    the double nearest to [1/3] at [0.0] and to [1.0] at [1.0]. *)
Lemma ComputeEddingtonFactor_binary64_limits :
  PrimFloat.eqb (ComputeEddingtonFactor (float_ofZ 0))
                (PrimFloat.div (float_ofZ 1) (float_ofZ 3)) = true /\
  PrimFloat.eqb (ComputeEddingtonFactor (float_ofZ 1)) (float_ofZ 1) = true.
Proof. split; vm_compute; reflexivity. Qed.

(** ** Wave speeds *)

Lemma reduced_component_sq (v a b c : R) :
  (v = a \/ v = b \/ v = c) ->
  0 < sqrt (a * a + b * b + c * c) ->
  0 <= v / sqrt (a * a + b * b + c * c) * (v / sqrt (a * a + b * b + c * c)) <= 1.
Proof.
  intros Hv Hf.
  set (f := sqrt (a * a + b * b + c * c)) in *.
  assert (Hff : f * f = a * a + b * b + c * c) by (apply sqrt_sqrt; nra).
  replace (v / f * (v / f)) with (v * v / (f * f)) by (field; lra).
  assert (Hpos : 0 < f * f) by nra.
  split.
  - apply Rmult_le_reg_r with (f * f); [exact Hpos|].
    unfold Rdiv. rewrite Rmult_assoc, Rinv_l by lra. nra.
  - apply Rmult_le_reg_r with (f * f); [exact Hpos|].
    unfold Rdiv. rewrite Rmult_assoc, Rinv_l by lra.
    destruct Hv as [-> | [-> | ->]]; nra.
Qed.

(** The diagonal entries of the Eddington tensor lie in [[0, 1]]. *)
Lemma ComputeEddingtonTensor_diag_range (fx fy fz : R) (d : nat) :
  (d < 3)%nat -> 0 <= ComputeEddingtonTensor fx fy fz d d <= 1.
Proof.
  intros Hd. unfold ComputeEddingtonTensor. rewrite Nat.eqb_refl. real_ops.
  set (f := sqrt (fx * fx + fy * fy + fz * fz)).
  pose proof (ComputeEddingtonFactor_range f) as Hchi.
  set (chi := ComputeEddingtonFactor f) in *.
  assert (Hn : 0 <= (if Rltb 0 f then vec3 fx fy fz d / f else 0) *
                    (if Rltb 0 f then vec3 fx fy fz d / f else 0) <= 1).
  { case_Rltb 0 f; [| lra].
    apply reduced_component_sq; [| exact E].
    destruct d as [| [| [| d]]]; cbn; auto; lia. }
  set (n2 := _ * _) in Hn. fold n2. nra.
Qed.

(** The signal speed of [ComputeRadPressure] lies in [[0.1, 1]]. *)
Lemma ComputeRadPressure_S_range (DIR : FluxDir) (erad Fx Fy Fz fx fy fz : R) :
  1 / 10 <= RP_S (ComputeRadPressure DIR erad Fx Fy Fz fx fy fz) <= 1.
Proof.
  assert (HT : forall d, (d < 3)%nat ->
            1 / 10 <= std_max (1 / 10) (sqrt (ComputeEddingtonTensor fx fy fz d d)) <= 1).
  { intros d Hd. pose proof (ComputeEddingtonTensor_diag_range fx fy fz d Hd) as [H0 H1].
    set (t := ComputeEddingtonTensor fx fy fz d d) in *.
    assert (Hs : sqrt t <= 1) by (rewrite <- sqrt_1; apply sqrt_le_1_alt; exact H1).
    unfold std_max; real_ops. case_Rltb (1 / 10) (sqrt t); lra. }
  unfold ComputeRadPressure; real_ops.
  destruct DIR; cbn [RP_S]; apply HT; lia.
Qed.

(** C10. For every input with [erad > 0] and any reduced-flux components
    the signal speed [S] returned by [ComputeRadPressure] satisfies
    [0.1 <= S <= 1]; hence, with [c_hat > 0], the speeds that
    [ComputeFluxes] feeds to the star-state formula satisfy
    [|S_L| <= c_hat], [|S_R| <= c_hat] and
    [S_R - S_L >= 0.2 * c_hat > 0], and the divisor [S_R - S_L] is not
    zero. *)
Theorem wavespeed_bounds (P : RadSystem_Traits R) (DIR : FluxDir) (st : FaceState) :
  0 < erad_L st -> 0 < erad_R st -> 0 < c_hat P ->
  let S_left := RP_S (ComputeRadPressure DIR (erad_L st) (Fx_L st) (Fy_L st) (Fz_L st)
                        (fx_L st) (fy_L st) (fz_L st)) in
  let S_right := RP_S (ComputeRadPressure DIR (erad_R st) (Fx_R st) (Fy_R st) (Fz_R st)
                         (fx_R st) (fy_R st) (fz_R st)) in
  let S_L := snd (fst (fst (pressuresAndSpeeds P DIR st))) in
  let S_R := snd (pressuresAndSpeeds P DIR st) in
  (1 / 10 <= S_left <= 1) /\ (1 / 10 <= S_right <= 1) /\
  Rabs S_L <= c_hat P /\ Rabs S_R <= c_hat P /\
  2 / 10 * c_hat P <= S_R - S_L /\ 0 < 2 / 10 * c_hat P /\ S_R - S_L <> 0.
Proof.
  intros HeL HeR Hc S_left S_right S_L S_R.
  pose proof (ComputeRadPressure_S_range DIR (erad_L st) (Fx_L st) (Fy_L st) (Fz_L st)
                (fx_L st) (fy_L st) (fz_L st)) as HL.
  pose proof (ComputeRadPressure_S_range DIR (erad_R st) (Fx_R st) (Fy_R st) (Fz_R st)
                (fx_R st) (fy_R st) (fz_R st)) as HR.
  fold S_left in HL. fold S_right in HR.
  assert (EL : S_L = S_left * -1 * c_hat P) by reflexivity.
  assert (ER : S_R = S_right * c_hat P) by reflexivity.
  rewrite EL, ER.
  repeat split; try lra; try nra.
  - apply Rabs_le. nra.
  - apply Rabs_le. nra.
Qed.

Lemma wavespeed_bounds_witness :
  snd (pressuresAndSpeeds unit_traits X1 isotropic_state)
  - snd (fst (fst (pressuresAndSpeeds unit_traits X1 isotropic_state))) <> 0.
Proof.
  apply (wavespeed_bounds unit_traits X1 isotropic_state); cbn; lra.
Defined.

(** ** Sums over the groups *)

Lemma vsum_S (n : nat) (a : nat -> R) : vsum (S n) a = vsum n a + a n.
Proof. reflexivity. Qed.

Lemma vsum_ext (n : nat) (a b : nat -> R) :
  (forall g, (g < n)%nat -> a g = b g) -> vsum n a = vsum n b.
Proof.
  induction n as [| n IH]; intros Hab; [reflexivity|].
  rewrite !vsum_S, IH, Hab by auto with arith. reflexivity.
Qed.

Lemma vsum_plus (n : nat) (a b : nat -> R) :
  vsum n (fun g => a g + b g) = vsum n a + vsum n b.
Proof.
  induction n as [| n IH]; [cbn; lra|]. rewrite !vsum_S, IH. lra.
Qed.

Lemma vsum_scal (n : nat) (k : R) (a : nat -> R) :
  vsum n (fun g => k * a g) = k * vsum n a.
Proof.
  induction n as [| n IH]; [cbn; lra|]. rewrite !vsum_S, IH. lra.
Qed.

(** ** The arrow-matrix solver *)

(** C4, amended.  In exact real arithmetic, for coefficients with every
    [aii g] nonzero and [a00 - sum_g (a0i g / aii g) * ai0 g] nonzero, and
    every right-hand side, the pair [(x0, xi)] returned by
    [SolveLinearEqs] solves the arrow-structured system exactly:
    [a00 * x0 + sum_g a0i g * xi g = y0] and, for every group [g],
    [ai0 g * x0 + aii g * xi g = yi g]. *)
Theorem SolveLinearEqs_solves (P : RadSystem_Traits R)
    (a00 : R) (a0i ai0 aii : nat -> R) (y0 : R) (yi : nat -> R) :
  (forall g, (g < nGroups P)%nat -> aii g <> 0) ->
  a00 - vsum (nGroups P) (fun g => a0i g / aii g * ai0 g) <> 0 ->
  let x0 := fst (SolveLinearEqs P a00 a0i ai0 aii y0 yi) in
  let xi := snd (SolveLinearEqs P a00 a0i ai0 aii y0 yi) in
  a00 * x0 + vsum (nGroups P) (fun g => a0i g * xi g) = y0 /\
  (forall g, (g < nGroups P)%nat -> ai0 g * x0 + aii g * xi g = yi g).
Proof.
  intros Hdiag Hdet x0 xi.
  set (n := nGroups P) in *.
  set (S1 := vsum n (fun g => a0i g / aii g * yi g)).
  set (S2 := vsum n (fun g => a0i g / aii g * ai0 g)) in *.
  assert (Ex0 : x0 = (- S1 + y0) / (- S2 + a00)) by reflexivity.
  assert (Exi : forall g, xi g = (yi g - ai0 g * x0) / aii g) by reflexivity.
  split.
  - assert (Esum : vsum n (fun g => a0i g * xi g) = S1 + - x0 * S2).
    { unfold S1, S2. rewrite <- vsum_scal, <- vsum_plus.
      apply vsum_ext. intros g Hg. rewrite Exi. field. auto. }
    rewrite Esum, Ex0. field. lra.
  - intros g Hg. rewrite Exi. field. auto.
Qed.

(** The system [[3 1 1; 1 2 0; 1 0 4]] with right-hand side [(5, 3, 5)]. *)
Lemma SolveLinearEqs_solves_witness :
  let a0i := fun _ : nat => 1 in
  let ai0 := fun _ : nat => 1 in
  let aii := fun g : nat => match g with O => 2 | _ => 4 end in
  let yi := fun g : nat => match g with O => 3 | _ => 5 end in
  let x0 := fst (SolveLinearEqs two_group_traits 3 a0i ai0 aii 5 yi) in
  let xi := snd (SolveLinearEqs two_group_traits 3 a0i ai0 aii 5 yi) in
  3 * x0 + vsum 2 (fun g => a0i g * xi g) = 5 /\
  (forall g, (g < 2)%nat -> ai0 g * x0 + aii g * xi g = yi g).
Proof.
  intros a0i ai0 aii yi.
  apply (SolveLinearEqs_solves two_group_traits 3 a0i ai0 aii 5 yi).
  - intros g Hg. destruct g; cbn; lra.
  - cbv [vsum for_loop two_group_traits nGroups a0i ai0 aii]. real_ops. lra.
Defined.

(** C4 as stated fails on [double]: for the system [3 x0 + x1 = 1],
    [x0 + 3 x1 = 1], whose coefficients meet the conditions of the claim,
    the solver returns [x0 = 0.25000000000000006] and [x1 = 0.25], and
    [3 x0 + x1] is [1.0000000000000002], not the right-hand side [1.0]. *)
Lemma SolveLinearEqs_not_exact_binary64 :
  let a00 := float_ofZ 3 in
  let a0i := fun _ : nat => float_ofZ 1 in
  let ai0 := fun _ : nat => float_ofZ 1 in
  let aii := fun _ : nat => float_ofZ 3 in
  let y0 := float_ofZ 1 in
  let yi := fun _ : nat => float_ofZ 1 in
  let x0 := fst (SolveLinearEqs unit_traits_binary64 a00 a0i ai0 aii y0 yi) in
  let xi := snd (SolveLinearEqs unit_traits_binary64 a00 a0i ai0 aii y0 yi) in
  PrimFloat.eqb (aii 0%nat) (float_ofZ 0) = false /\
  PrimFloat.eqb
    (PrimFloat.sub a00
       (vsum 1 (fun g => PrimFloat.mul (PrimFloat.div (a0i g) (aii g)) (ai0 g))))
    (float_ofZ 0) = false /\
  PrimFloat.add (PrimFloat.mul a00 x0) (vsum 1 (fun g => PrimFloat.mul (a0i g) (xi g)))
  <> y0.
Proof.
  cbv zeta. split; [vm_compute; reflexivity | split; [vm_compute; reflexivity |]].
  intros Heq.
  apply (f_equal (fun x => PrimFloat.eqb x (float_ofZ 1))) in Heq.
  vm_compute in Heq. discriminate Heq.
Qed.

(** ** Array updates *)

Lemma upd_eq {A : Type} (a : nat -> A) (i : nat) (v : A) : upd a i v i = v.
Proof. unfold upd. now rewrite Nat.eqb_refl. Qed.

Lemma upd_neq {A : Type} (a : nat -> A) (i j : nat) (v : A) :
  j <> i -> upd a i v j = a j.
Proof. intros Hne. unfold upd. now apply Nat.eqb_neq in Hne; rewrite Hne. Qed.

(** Resolves reads of updated arrays whose indices [lia] can compare. *)
Ltac upd_simpl :=
  repeat first
    [ rewrite upd_eq
    | rewrite upd_neq by (cbv [numRadVars_ radEnergy_index x1RadFlux_index x2RadFlux_index
                               x3RadFlux_index primRadEnergy_index x1ReducedFlux_index
                               x2ReducedFlux_index x3ReducedFlux_index nstartHyperbolic_]; lia) ].

(** ** Conserved to primitive and back *)

(** What [ConservedToPrimitive] stores for group [g], over any scalars. *)
Lemma ConservedToPrimitive_group {T : Type} `{Scalar T} (P : RadSystem_Traits T)
    (cons primVar : nat -> T) (g : nat) :
  (g < nGroups P)%nat ->
  let E_r := cons (radEnergy_index P + 4 * g)%nat in
  let prim := ConservedToPrimitive P cons primVar in
  prim (4 * g)%nat = E_r /\
  prim (1 + 4 * g)%nat = s_div (cons (x1RadFlux_index P + 4 * g)%nat) (s_mul (c_light P) E_r) /\
  prim (2 + 4 * g)%nat = s_div (cons (x2RadFlux_index P + 4 * g)%nat) (s_mul (c_light P) E_r) /\
  prim (3 + 4 * g)%nat = s_div (cons (x3RadFlux_index P + 4 * g)%nat) (s_mul (c_light P) E_r).
Proof.
  unfold ConservedToPrimitive, nGroups_, c_light_.
  induction (nGroups P) as [| n IH]; intros Hg; [lia|].
  cbn [for_loop]. cbv zeta.
  destruct (Nat.eq_dec g n) as [-> | Hne].
  - repeat split; upd_simpl; reflexivity.
  - assert (Hlt : (g < n)%nat) by lia. specialize (IH Hlt). cbv zeta in IH.
    destruct IH as (I0 & I1 & I2 & I3).
    repeat split; upd_simpl; assumption.
Qed.

(** C5 (as amended). For every cell and group with [E_r > 0], and
    [c_light] nonzero, [ConservedToPrimitive] keeps [E_r] and sets
    [f_i = F_i / (c * E_r)], and rebuilding [F_i = f_i * (c * E_r)] gives
    back each of the three flux components exactly in real arithmetic. *)
Theorem ConservedToPrimitive_roundtrip (P : RadSystem_Traits R)
    (cons primVar : nat -> R) (g : nat) :
  (g < nGroups P)%nat ->
  c_light P <> 0 ->
  0 < cons (radEnergy_index P + 4 * g)%nat ->
  let prim := ConservedToPrimitive P cons primVar in
  prim (4 * g)%nat = cons (radEnergy_index P + 4 * g)%nat /\
  unreducedFlux P (prim (1 + 4 * g)%nat) (prim (4 * g)%nat)
    = cons (x1RadFlux_index P + 4 * g)%nat /\
  unreducedFlux P (prim (2 + 4 * g)%nat) (prim (4 * g)%nat)
    = cons (x2RadFlux_index P + 4 * g)%nat /\
  unreducedFlux P (prim (3 + 4 * g)%nat) (prim (4 * g)%nat)
    = cons (x3RadFlux_index P + 4 * g)%nat.
Proof.
  intros Hg Hc HE prim.
  destruct (ConservedToPrimitive_group P cons primVar g Hg) as (E0 & E1 & E2 & E3).
  fold prim in E0, E1, E2, E3.
  unfold unreducedFlux, c_light_. rewrite E0, E1, E2, E3. real_ops.
  repeat split; field; split; lra.
Qed.

Lemma ConservedToPrimitive_roundtrip_witness :
  unreducedFlux unit_traits (ConservedToPrimitive unit_traits cell_49 zeros 1%nat)
                (ConservedToPrimitive unit_traits cell_49 zeros 0%nat) = 1.
Proof.
  apply (ConservedToPrimitive_roundtrip unit_traits cell_49 zeros 0%nat);
    cbn; try lia; lra.
Defined.

(** C5 as stated fails on [double]: with [c = 1], [E_r = 49 > 0] and
    [Fx = 1], the reduced flux is the double nearest to [1/49], and
    multiplying it back by [49] gives [0.99999999999999989], which is not
    the original [1.0]. *)
Lemma ConservedToPrimitive_roundtrip_not_bitwise :
  PrimFloat.ltb (float_ofZ 0) (cell_49_binary64 (radEnergy_index unit_traits_binary64)) = true /\
  unreducedFlux unit_traits_binary64
    (ConservedToPrimitive unit_traits_binary64 cell_49_binary64 zeros 1%nat)
    (ConservedToPrimitive unit_traits_binary64 cell_49_binary64 zeros 0%nat)
  <> cell_49_binary64 (x1RadFlux_index unit_traits_binary64).
Proof.
  split; [vm_compute; reflexivity|].
  intros Heq.
  apply (f_equal (fun x => PrimFloat.eqb x (float_ofZ 1))) in Heq.
  vm_compute in Heq. discriminate Heq.
Qed.

(** ** State validity and amendment *)

(** The local index of variable [v] of group [g] in an array of
    [nvarHyperbolic_] entries. *)
Lemma local_index {T : Type} (P : RadSystem_Traits T) (v g : nat) :
  (nstartHyperbolic_ P + v + numRadVars_ * g - nstartHyperbolic_ P = v + 4 * g)%nat.
Proof. unfold numRadVars_. lia. Qed.

Lemma local_index0 {T : Type} (P : RadSystem_Traits T) (g : nat) :
  (radEnergy_index P + numRadVars_ * g - nstartHyperbolic_ P = 4 * g)%nat.
Proof. unfold radEnergy_index, numRadVars_. lia. Qed.

Ltac local_indices P :=
  unfold x1RadFlux_index, x2RadFlux_index, x3RadFlux_index;
  rewrite ?(local_index0 P), ?(local_index P).

(** [isStateValid] accepts a state exactly when every group passes. *)
Lemma isStateValid_true_iff {T : Type} `{Scalar T} (P : RadSystem_Traits T) (cons : nat -> T) :
  isStateValid P cons = true <->
  (forall g, (g < nGroups P)%nat -> groupValid P cons g = true).
Proof.
  unfold isStateValid, nGroups_.
  induction (nGroups P) as [| n IH]; cbn [for_loop].
  - split; [intros _ g Hg; lia | reflexivity].
  - cbv zeta. local_indices P. rewrite <- andb_assoc, andb_true_iff, IH.
    split.
    + intros [Hall Hn] g Hg. destruct (Nat.eq_dec g n) as [-> | Hne].
      * exact Hn.
      * apply Hall. lia.
    + intros Hall. split; [intros g Hg; apply Hall; lia | apply Hall; lia].
Qed.

(** A pass of [amendRadState] for group [g] leaves the other groups alone. *)
Lemma amendRadState_group_other {T : Type} `{Scalar T} (P : RadSystem_Traits T)
    (cons : nat -> T) (g j : nat) :
  (j < 4 * g \/ 4 * g + 4 <= j)%nat ->
  amendRadState_group P g cons j = cons j.
Proof.
  intros Hj. unfold amendRadState_group. cbv zeta. local_indices P.
  repeat match goal with |- context [if ?b then _ else _] => destruct b end;
    repeat rewrite upd_neq by lia; reflexivity.
Qed.

Lemma amendRadState_group_own {T : Type} `{Scalar T} (P : RadSystem_Traits T)
    (cons : nat -> T) (g v : nat) :
  (v < 4)%nat ->
  amendRadState_group P g cons (v + 4 * g)%nat =
  amendedGroup P (cons (4 * g)%nat) (cons (1 + 4 * g)%nat) (cons (2 + 4 * g)%nat)
               (cons (3 + 4 * g)%nat) v.
Proof.
  intros Hv. unfold amendRadState_group, amendedGroup, c_light_. cbv zeta. local_indices P.
  destruct (s_ltb (cons (4 * g)%nat) (Erad_floor_ P)); repeat rewrite upd_neq by lia;
    match goal with |- context [if ?b then _ else _] => destruct b end;
    destruct v as [| [| [| [| v]]]]; try lia; cbn [vec4 Nat.add];
    repeat first [rewrite upd_eq | rewrite upd_neq by lia]; reflexivity.
Qed.

(** The passes of the groups below [m] leave the entries from [4 * m] on
    alone. *)
Lemma amendRadState_prefix {T : Type} `{Scalar T} (P : RadSystem_Traits T)
    (cons : nat -> T) (m j : nat) :
  (4 * m <= j)%nat -> for_loop m (amendRadState_group P) cons j = cons j.
Proof.
  induction m as [| m IH]; intros Hj; [reflexivity|].
  cbn [for_loop]. rewrite amendRadState_group_other by lia. apply IH. lia.
Qed.

(** After the loop, the entries of group [g] are those that its own pass
    computes from the entries the group had before the loop. *)
Lemma amendRadState_entries {T : Type} `{Scalar T} (P : RadSystem_Traits T)
    (cons : nat -> T) (g v : nat) :
  (g < nGroups P)%nat -> (v < 4)%nat ->
  amendRadState P cons (v + 4 * g)%nat =
  amendedGroup P (cons (4 * g)%nat) (cons (1 + 4 * g)%nat) (cons (2 + 4 * g)%nat)
               (cons (3 + 4 * g)%nat) v.
Proof.
  unfold amendRadState, nGroups_.
  induction (nGroups P) as [| n IH]; intros Hg Hv; [lia|].
  cbn [for_loop].
  destruct (Nat.eq_dec g n) as [-> | Hne].
  - rewrite amendRadState_group_own by exact Hv.
    now rewrite !amendRadState_prefix by lia.
  - rewrite amendRadState_group_other by lia. apply IH; [lia | exact Hv].
Qed.

(** Over the reals, with a positive floor and a positive speed of light,
    the amended entries of a group are valid: the energy is the larger of
    the old energy and the floor, the flux is the old flux times a
    positive factor (which is [1] when the flux was causal), and the norm
    of the new flux is at most [c * E_r]. *)
Lemma amendedGroup_valid (P : RadSystem_Traits R) (E_r0 Fx Fy Fz : R) :
  0 < Erad_floor_ P -> 0 < c_light P ->
  let a := amendedGroup P E_r0 Fx Fy Fz in
  a 0%nat = Rmax E_r0 (Erad_floor_ P) /\
  Erad_floor_ P <= a 0%nat /\
  0 < a 0%nat /\
  sqrt (a 1%nat * a 1%nat + a 2%nat * a 2%nat + a 3%nat * a 3%nat) <= c_light P * a 0%nat /\
  exists k : R, 0 < k /\ a 1%nat = k * Fx /\ a 2%nat = k * Fy /\ a 3%nat = k * Fz.
Proof.
  intros Hfloor Hc a. subst a. unfold amendedGroup. real_ops.
  set (fl := Erad_floor_ P) in *. set (c := c_light P) in *.
  set (E := if Rltb E_r0 fl then fl else E_r0).
  assert (HE : E = Rmax E_r0 fl /\ fl <= E).
  { unfold E. case_Rltb E_r0 fl.
    - rewrite Rmax_right by lra. lra.
    - rewrite Rmax_left by lra. lra. }
  destruct HE as [HEmax HEfl].
  assert (HcE : 0 < c * E) by nra.
  set (F2 := Fx * Fx + Fy * Fy + Fz * Fz).
  assert (HF2 : 0 <= F2) by (unfold F2; nra).
  case_Rltb (c * c * E * E) F2; cbn [vec4].
  - assert (Hn : 0 < sqrt F2) by (apply sqrt_lt_R0; nra).
    assert (Hnn : sqrt F2 * sqrt F2 = F2) by (apply sqrt_sqrt; exact HF2).
    set (s := sqrt F2) in *.
    repeat split; try assumption; try lra.
    + replace (Fx / s * c * E * (Fx / s * c * E) +
               Fy / s * c * E * (Fy / s * c * E) +
               Fz / s * c * E * (Fz / s * c * E))
        with ((c * E) * (c * E) * ((Fx * Fx + Fy * Fy + Fz * Fz) / (s * s)))
        by (field; lra).
      fold F2. rewrite Hnn. unfold Rdiv. rewrite Rinv_r by nra. rewrite Rmult_1_r.
      rewrite sqrt_square by lra. lra.
    + exists (c * E / s). repeat split; try (field; lra).
      apply Rdiv_lt_0_compat; assumption.
  - repeat split; try assumption; try lra.
    + fold F2. rewrite <- (sqrt_square (c * E)) by lra.
      apply sqrt_le_1_alt. lra.
    + exists 1. repeat split; lra.
Qed.

(** Support for C1: with a positive floor [Erad_floor / nGroups] and a
    positive speed of light, [amendRadState] turns every state into one
    that [isStateValid] accepts; every group's energy is at least the
    floor and positive, and its flux keeps its direction. *)
Lemma amendRadState_valid_positive_floor (P : RadSystem_Traits R) (cons : nat -> R) :
  0 < Erad_floor_ P -> 0 < c_light P ->
  isStateValid P (amendRadState P cons) = true /\
  (forall g, (g < nGroups P)%nat ->
     let cons' := amendRadState P cons in
     Erad_floor_ P <= cons' (4 * g)%nat /\ 0 < cons' (4 * g)%nat /\
     sqrt (cons' (1 + 4 * g)%nat * cons' (1 + 4 * g)%nat +
           cons' (2 + 4 * g)%nat * cons' (2 + 4 * g)%nat +
           cons' (3 + 4 * g)%nat * cons' (3 + 4 * g)%nat)
       <= c_light P * cons' (4 * g)%nat /\
     exists k : R, 0 < k /\
       cons' (1 + 4 * g)%nat = k * cons (1 + 4 * g)%nat /\
       cons' (2 + 4 * g)%nat = k * cons (2 + 4 * g)%nat /\
       cons' (3 + 4 * g)%nat = k * cons (3 + 4 * g)%nat).
Proof.
  intros Hfloor Hc.
  assert (Hgroup : forall g, (g < nGroups P)%nat ->
     let cons' := amendRadState P cons in
     Erad_floor_ P <= cons' (4 * g)%nat /\ 0 < cons' (4 * g)%nat /\
     sqrt (cons' (1 + 4 * g)%nat * cons' (1 + 4 * g)%nat +
           cons' (2 + 4 * g)%nat * cons' (2 + 4 * g)%nat +
           cons' (3 + 4 * g)%nat * cons' (3 + 4 * g)%nat)
       <= c_light P * cons' (4 * g)%nat /\
     exists k : R, 0 < k /\
       cons' (1 + 4 * g)%nat = k * cons (1 + 4 * g)%nat /\
       cons' (2 + 4 * g)%nat = k * cons (2 + 4 * g)%nat /\
       cons' (3 + 4 * g)%nat = k * cons (3 + 4 * g)%nat).
  { intros g Hg cons'. subst cons'.
    pose proof (amendRadState_entries P cons g 0 Hg ltac:(lia)) as E0.
    pose proof (amendRadState_entries P cons g 1 Hg ltac:(lia)) as E1.
    pose proof (amendRadState_entries P cons g 2 Hg ltac:(lia)) as E2.
    pose proof (amendRadState_entries P cons g 3 Hg ltac:(lia)) as E3.
    cbn [Nat.add] in E0. rewrite E0, E1, E2, E3.
    destruct (amendedGroup_valid P (cons (4 * g)%nat) (cons (1 + 4 * g)%nat)
                (cons (2 + 4 * g)%nat) (cons (3 + 4 * g)%nat) Hfloor Hc)
      as (_ & H1 & H2 & H3 & H4).
    repeat split; assumption. }
  split; [| exact Hgroup].
  apply isStateValid_true_iff. intros g Hg.
  destruct (Hgroup g Hg) as (_ & Hpos & Hnorm & _).
  unfold groupValid. real_ops. apply andb_true_iff. split.
  - apply Rltb_true. exact Hpos.
  - apply Rleb_true.
    set (E := amendRadState P cons (4 * g)%nat) in *.
    assert (HcE : 0 < c_light P * E) by nra.
    apply Rmult_le_reg_r with (c_light P * E); [exact HcE|].
    unfold Rdiv. rewrite Rmult_assoc, Rinv_l by lra. lra.
Qed.

(** C1 at the failing inputs. With the floor [0] the amended energy of
    the state [E_r = -1], [F = (1, 0, 0)] is [0], and [isStateValid],
    which asks for [E_r > 0], rejects the amended state, in exact
    arithmetic and on binary64 alike.  On binary64 the amendment also
    fails with a positive floor: with [Erad_floor = 1] and [c = 1] the
    state [E_r = 3], [F = (0, 3, 3)] is rescaled to a flux whose reduced
    norm rounds to [1.0000000000000002], which [isStateValid] rejects.
    In both cases the assertion [AMREX_ASSERT(isStateValid(cons))] that
    follows the amendment in [PredictStep] and [AddFluxesRK2] fails. *)
Theorem amendRadState_invalid_after_amendment :
  amendRadState zero_floor_traits negative_energy_state 0%nat = 0 /\
  isStateValid zero_floor_traits (amendRadState zero_floor_traits negative_energy_state) = false /\
  isStateValid zero_floor_traits_binary64
    (amendRadState zero_floor_traits_binary64 negative_energy_state_binary64) = false /\
  isStateValid unit_traits_binary64
    (amendRadState unit_traits_binary64 superluminal_state_binary64) = false.
Proof.
  assert (E0 : amendRadState zero_floor_traits negative_energy_state 0%nat = 0).
  { rewrite (amendRadState_entries zero_floor_traits negative_energy_state 0 0)
      by (cbn; lia).
    unfold amendedGroup, Erad_floor_, nGroups_. cbn. real_ops.
    replace (0 / 1) with 0 by lra.
    case_Rltb (-1) 0; [| lra].
    match goal with |- context [if ?b then _ else _] => destruct b end; reflexivity. }
  split; [exact E0 | split; [| split]].
  - apply not_true_iff_false. intros Hv.
    pose proof (proj1 (isStateValid_true_iff zero_floor_traits _) Hv 0%nat) as Hg.
    specialize (Hg ltac:(cbn; lia)). clear Hv. rename Hg into Hv.
    unfold groupValid in Hv. apply andb_true_iff in Hv. destruct Hv as [Hpos _].
    real_ops. apply Rltb_true in Hpos. change (4 * 0)%nat with 0%nat in Hpos.
    rewrite E0 in Hpos. lra.
  - vm_compute. reflexivity.
  - vm_compute. reflexivity.
Qed.

(** The rescaled flux of the last state and its reduced norm, as binary64
    computes them. *)
Lemma amendRadState_binary64_rounding :
  let cons' := amendRadState unit_traits_binary64 superluminal_state_binary64 in
  PrimFloat.eqb (cons' 0%nat) (float_ofZ 3) = true /\
  PrimFloat.ltb (float_ofZ 1)
    (PrimFloat.div
       (PrimFloat.sqrt (PrimFloat.add (PrimFloat.add (PrimFloat.mul (cons' 1%nat) (cons' 1%nat))
                                                     (PrimFloat.mul (cons' 2%nat) (cons' 2%nat)))
                                      (PrimFloat.mul (cons' 3%nat) (cons' 3%nat))))
       (PrimFloat.mul (float_ofZ 1) (cons' 0%nat))) = true.
Proof. split; vm_compute; reflexivity. Qed.

(** ** The interface flux kernel *)

Lemma storeFlux_own {T : Type} (P : RadSystem_Traits T) (g v : nat) (x1Flux F : nat -> T) :
  (v < 4)%nat -> storeFlux P g x1Flux F (v + 4 * g)%nat = F v.
Proof.
  intros Hv. unfold storeFlux. cbv zeta. local_indices P.
  destruct v as [| [| [| [| v]]]]; try lia; cbn [Nat.add];
    repeat first [rewrite upd_eq | rewrite upd_neq by lia]; reflexivity.
Qed.

Lemma storeFlux_other {T : Type} (P : RadSystem_Traits T) (g j : nat) (x1Flux F : nat -> T) :
  (j < 4 * g \/ 4 * g + 4 <= j)%nat -> storeFlux P g x1Flux F j = x1Flux j.
Proof.
  intros Hj. unfold storeFlux. cbv zeta. local_indices P.
  repeat rewrite upd_neq by lia. reflexivity.
Qed.

Section ComputeFluxes_entries.

Context {T : Type} `{Scalar T}.
Variables (P : RadSystem_Traits T) (Hy : HyperParams T) (DIR : FluxDir) (i j k : Z).
Variables (tau_cell x1LeftState x1RightState consVar_im1 consVar_i : nat -> T).

(** The pair of fluxes that the pass of group [g] computes. *)
Let groupFluxes (g : nat) : (nat -> T) * (nat -> T) :=
  hllFluxes P DIR (wavespeedCorrection Hy i j k tau_cell g)
            (gatherStates P g x1LeftState x1RightState consVar_im1 consVar_i).

Lemma ComputeFluxes_group_fst (g : nat) (out : (nat -> T) * (nat -> T)) :
  fst (ComputeFluxes_group P Hy DIR i j k tau_cell x1LeftState x1RightState
         consVar_im1 consVar_i g out) = storeFlux P g (fst out) (fst (groupFluxes g)).
Proof.
  unfold ComputeFluxes_group, groupFluxes. cbv zeta.
  destruct (hllFluxes _ _ _ _) as [F dF]. reflexivity.
Qed.

Lemma ComputeFluxes_group_snd (g : nat) (out : (nat -> T) * (nat -> T)) :
  snd (ComputeFluxes_group P Hy DIR i j k tau_cell x1LeftState x1RightState
         consVar_im1 consVar_i g out) = storeFlux P g (snd out) (snd (groupFluxes g)).
Proof.
  unfold ComputeFluxes_group, groupFluxes. cbv zeta.
  destruct (hllFluxes _ _ _ _) as [F dF]. reflexivity.
Qed.

(** After [n] passes of the group loop the entries of a group [g < n] in
    the two flux arrays are the two fluxes of that group's own pass. *)
Lemma group_loop_entries (n g v : nat) (out : (nat -> T) * (nat -> T)) :
  (g < n)%nat -> (v < 4)%nat ->
  let res := for_loop n (ComputeFluxes_group P Hy DIR i j k tau_cell x1LeftState
                           x1RightState consVar_im1 consVar_i) out in
  fst res (v + 4 * g)%nat = fst (groupFluxes g) v /\
  snd res (v + 4 * g)%nat = snd (groupFluxes g) v.
Proof.
  intros Hg Hv. cbv zeta.
  induction n as [| n IH]; [lia|].
  cbn [for_loop]. rewrite ComputeFluxes_group_fst, ComputeFluxes_group_snd.
  destruct (Nat.eq_dec g n) as [-> | Hne].
  - now rewrite !storeFlux_own by exact Hv.
  - rewrite !storeFlux_other by lia. apply IH. lia.
Qed.

End ComputeFluxes_entries.

(** The admissibility test over the reals. *)
Lemma inadmissible_true_iff (st : @FaceState R) :
  inadmissible st = true <->
  (erad_L st <= 0 \/ erad_R st <= 0 \/ 1 <= f_L st \/ 1 <= f_R st).
Proof.
  unfold inadmissible. real_ops.
  rewrite !orb_true_iff, !Rleb_true. tauto.
Qed.

(** C3. In [ComputeFluxes], for every face and every group [g]: if the
    reconstructed pair has [erad_L <= 0] or [erad_R <= 0] or [f_L >= 1] or
    [f_R >= 1], the states that enter the HLL flux of that group are the
    conserved values of the two adjacent cells, with the primitive
    variables recomputed from them; otherwise they are the reconstructed
    states, unchanged.  The fluxes stored for group [g] are the HLL fluxes
    of these states, whatever the other groups do. *)
Theorem ComputeFluxes_admissibility_fallback
    (P : RadSystem_Traits R) (Hy : HyperParams R) (NAN : R)
    (ComputeTgasFromEint : R -> R -> (nat -> R) -> R)
    (ComputeFluxMeanOpacity : R -> R -> nat -> R)
    (DIR : FluxDir) (i j k : Z)
    (x1LeftState x1RightState consVar_im1 consVar_i dx : nat -> R)
    (out : (nat -> R) * (nat -> R)) (g : nat) :
  (g < nGroups P)%nat ->
  let c := c_light P in
  let eL := x1LeftState (4 * g)%nat in
  let eR := x1RightState (4 * g)%nat in
  let fxL := x1LeftState (1 + 4 * g)%nat in
  let fxR := x1RightState (1 + 4 * g)%nat in
  let fyL := x1LeftState (2 + 4 * g)%nat in
  let fyR := x1RightState (2 + 4 * g)%nat in
  let fzL := x1LeftState (3 + 4 * g)%nat in
  let fzR := x1RightState (3 + 4 * g)%nat in
  let fL := sqrt (fxL * fxL + fyL * fyL + fzL * fzL) in
  let fR := sqrt (fxR * fxR + fyR * fyR + fzR * fzR) in
  let EL := consVar_im1 (radFirstIndex P + 4 * g)%nat in
  let ER := consVar_i (radFirstIndex P + 4 * g)%nat in
  let FxL := consVar_im1 (radFirstIndex P + 1 + 4 * g)%nat in
  let FxR := consVar_i (radFirstIndex P + 1 + 4 * g)%nat in
  let FyL := consVar_im1 (radFirstIndex P + 2 + 4 * g)%nat in
  let FyR := consVar_i (radFirstIndex P + 2 + 4 * g)%nat in
  let FzL := consVar_im1 (radFirstIndex P + 3 + 4 * g)%nat in
  let FzR := consVar_i (radFirstIndex P + 3 + 4 * g)%nat in
  let st := gatherStates P g x1LeftState x1RightState consVar_im1 consVar_i in
  let tau_cell :=
    if use_wavespeed_correction Hy
    then ComputeCellOpticalDepth P NAN ComputeTgasFromEint ComputeFluxMeanOpacity
           DIR consVar_im1 consVar_i dx
    else zeros in
  let res := ComputeFluxes P Hy NAN ComputeTgasFromEint ComputeFluxMeanOpacity
               DIR i j k x1LeftState x1RightState consVar_im1 consVar_i dx out in
  (eL <= 0 \/ eR <= 0 \/ 1 <= fL \/ 1 <= fR ->
   st = {| erad_L := EL; erad_R := ER;
           Fx_L := FxL; Fx_R := FxR; Fy_L := FyL; Fy_R := FyR; Fz_L := FzL; Fz_R := FzR;
           fx_L := FxL / (c * EL); fx_R := FxR / (c * ER);
           fy_L := FyL / (c * EL); fy_R := FyR / (c * ER);
           fz_L := FzL / (c * EL); fz_R := FzR / (c * ER);
           f_L := sqrt (FxL / (c * EL) * (FxL / (c * EL)) + FyL / (c * EL) * (FyL / (c * EL))
                        + FzL / (c * EL) * (FzL / (c * EL)));
           f_R := sqrt (FxR / (c * ER) * (FxR / (c * ER)) + FyR / (c * ER) * (FyR / (c * ER))
                        + FzR / (c * ER) * (FzR / (c * ER))) |}) /\
  (~ (eL <= 0 \/ eR <= 0 \/ 1 <= fL \/ 1 <= fR) ->
   st = {| erad_L := eL; erad_R := eR;
           Fx_L := fxL * (c * eL); Fx_R := fxR * (c * eR);
           Fy_L := fyL * (c * eL); Fy_R := fyR * (c * eR);
           Fz_L := fzL * (c * eL); Fz_R := fzR * (c * eR);
           fx_L := fxL; fx_R := fxR; fy_L := fyL; fy_R := fyR; fz_L := fzL; fz_R := fzR;
           f_L := fL; f_R := fR |}) /\
  (forall v, (v < 4)%nat ->
     fst res (v + 4 * g)%nat
       = fst (hllFluxes P DIR (wavespeedCorrection Hy i j k tau_cell g) st) v /\
     snd res (v + 4 * g)%nat
       = snd (hllFluxes P DIR (wavespeedCorrection Hy i j k tau_cell g) st) v).
Proof.
  intros Hg. cbv zeta.
  pose proof (inadmissible_true_iff (reconstructedStates P g x1LeftState x1RightState)) as Hadm.
  assert (Hrec : reconstructedStates P g x1LeftState x1RightState =
    {| erad_L := x1LeftState (4 * g)%nat; erad_R := x1RightState (4 * g)%nat;
       Fx_L := x1LeftState (1 + 4 * g)%nat * (c_light P * x1LeftState (4 * g)%nat);
       Fx_R := x1RightState (1 + 4 * g)%nat * (c_light P * x1RightState (4 * g)%nat);
       Fy_L := x1LeftState (2 + 4 * g)%nat * (c_light P * x1LeftState (4 * g)%nat);
       Fy_R := x1RightState (2 + 4 * g)%nat * (c_light P * x1RightState (4 * g)%nat);
       Fz_L := x1LeftState (3 + 4 * g)%nat * (c_light P * x1LeftState (4 * g)%nat);
       Fz_R := x1RightState (3 + 4 * g)%nat * (c_light P * x1RightState (4 * g)%nat);
       fx_L := x1LeftState (1 + 4 * g)%nat; fx_R := x1RightState (1 + 4 * g)%nat;
       fy_L := x1LeftState (2 + 4 * g)%nat; fy_R := x1RightState (2 + 4 * g)%nat;
       fz_L := x1LeftState (3 + 4 * g)%nat; fz_R := x1RightState (3 + 4 * g)%nat;
       f_L := sqrt (x1LeftState (1 + 4 * g)%nat * x1LeftState (1 + 4 * g)%nat
                    + x1LeftState (2 + 4 * g)%nat * x1LeftState (2 + 4 * g)%nat
                    + x1LeftState (3 + 4 * g)%nat * x1LeftState (3 + 4 * g)%nat);
       f_R := sqrt (x1RightState (1 + 4 * g)%nat * x1RightState (1 + 4 * g)%nat
                    + x1RightState (2 + 4 * g)%nat * x1RightState (2 + 4 * g)%nat
                    + x1RightState (3 + 4 * g)%nat * x1RightState (3 + 4 * g)%nat) |})
    by reflexivity.
  rewrite Hrec in Hadm. cbn [erad_L erad_R f_L f_R] in Hadm.
  split; [| split].
  - intros Hbad. apply (proj2 Hadm) in Hbad.
    unfold gatherStates. rewrite Hrec, Hbad.
    unfold donorCellStates, radEnergy_index, x1RadFlux_index, x2RadFlux_index,
      x3RadFlux_index, nstartHyperbolic_, numRadVars_, c_light_.
    reflexivity.
  - intros Hgood. unfold gatherStates. rewrite Hrec.
    destruct (inadmissible _) eqn:Ebad; [| reflexivity].
    exfalso. apply Hgood. apply (proj1 Hadm). reflexivity.
  - intros v Hv. unfold ComputeFluxes, nGroups_.
    apply (group_loop_entries P Hy DIR i j k _ x1LeftState x1RightState consVar_im1
             consVar_i (nGroups P) g v out Hg Hv).
Qed.

Lemma ComputeFluxes_admissibility_fallback_witness :
  gatherStates unit_traits 0 noncausal_left isotropic_right left_cell right_cell
  = donorCellStates unit_traits 0 left_cell right_cell.
Proof.
  pose proof (ComputeFluxes_admissibility_fallback unit_traits source_hyper 0
                (fun _ _ _ => 0) (fun _ _ _ => 0) X1 0%Z 0%Z 0%Z
                noncausal_left isotropic_right left_cell right_cell (fun _ => 1)
                (zeros, zeros) 0%nat ltac:(cbn; lia)) as Hthm.
  cbv zeta in Hthm. destruct Hthm as (Hdonor & _ & _).
  rewrite Hdonor; [reflexivity|].
  right; right; left. cbn.
  replace (1 * 1 + 0 * 0 + 0 * 0) with 1 by ring. rewrite sqrt_1. lra.
Defined.

(** C6. When [use_wavespeed_correction] is false, as the source sets it,
    for every face and every group the flux that [ComputeFluxes] stores in
    [x1Flux] equals, component by component, the diffusive flux it stores
    in [x1FluxDiffusive]: the correction factor is [(1, 1, 1, 1)] and both
    are computed by the same star-state formula. *)
Theorem ComputeFluxes_flux_is_diffusive
    (P : RadSystem_Traits R) (Hy : HyperParams R) (NAN : R)
    (ComputeTgasFromEint : R -> R -> (nat -> R) -> R)
    (ComputeFluxMeanOpacity : R -> R -> nat -> R)
    (DIR : FluxDir) (i j k : Z)
    (x1LeftState x1RightState consVar_im1 consVar_i dx : nat -> R)
    (out : (nat -> R) * (nat -> R)) (g v : nat) :
  use_wavespeed_correction Hy = false ->
  (g < nGroups P)%nat -> (v < 4)%nat ->
  let res := ComputeFluxes P Hy NAN ComputeTgasFromEint ComputeFluxMeanOpacity
               DIR i j k x1LeftState x1RightState consVar_im1 consVar_i dx out in
  wavespeedCorrection Hy i j k zeros g v = 1 /\
  fst res (v + 4 * g)%nat = snd res (v + 4 * g)%nat.
Proof.
  intros Hoff Hg Hv. cbv zeta.
  assert (Heps : forall tau, wavespeedCorrection Hy i j k tau g v = 1).
  { intros tau. unfold wavespeedCorrection. rewrite Hoff.
    destruct v as [| [| [| [| v]]]]; try lia; reflexivity. }
  split; [apply Heps|].
  unfold ComputeFluxes, nGroups_.
  destruct (group_loop_entries P Hy DIR i j k
              (if use_wavespeed_correction Hy
               then ComputeCellOpticalDepth P NAN ComputeTgasFromEint ComputeFluxMeanOpacity
                      DIR consVar_im1 consVar_i dx
               else zeros)
              x1LeftState x1RightState consVar_im1 consVar_i (nGroups P) g v out Hg Hv)
    as [EF EdF].
  rewrite EF, EdF. unfold hllFluxes.
  destruct (pressuresAndSpeeds P DIR _) as [[[F_L S_L] F_R] S_R].
  cbn [fst snd]. unfold vadd, vsub, vmul, vsmul, svmul. real_ops.
  rewrite Heps. ring.
Qed.

Lemma ComputeFluxes_flux_is_diffusive_witness :
  fst (ComputeFluxes unit_traits source_hyper 0 (fun _ _ _ => 0) (fun _ _ _ => 0) X1
         0%Z 0%Z 0%Z noncausal_left isotropic_right left_cell right_cell (fun _ => 1)
         (zeros, zeros)) 0%nat
  = snd (ComputeFluxes unit_traits source_hyper 0 (fun _ _ _ => 0) (fun _ _ _ => 0) X1
           0%Z 0%Z 0%Z noncausal_left isotropic_right left_cell right_cell (fun _ => 1)
           (zeros, zeros)) 0%nat.
Proof.
  apply (ComputeFluxes_flux_is_diffusive unit_traits source_hyper 0
           (fun _ _ _ => 0) (fun _ _ _ => 0) X1 0%Z 0%Z 0%Z
           noncausal_left isotropic_right left_cell right_cell (fun _ => 1)
           (zeros, zeros) 0%nat 0%nat);
    [reflexivity | cbn; lia | lia].
Defined.

(** On binary64 too the two fluxes of a face agree in every component:
    multiplying by the factor [1.0] is exact.  The energy flux of the
    face above is not zero, so the agreement is not between two empty
    arrays. *)
Example ComputeFluxes_flux_is_diffusive_binary64 :
  PrimFloat.eqb (fst face_fluxes_binary64 0%nat) (snd face_fluxes_binary64 0%nat) = true /\
  PrimFloat.eqb (fst face_fluxes_binary64 1%nat) (snd face_fluxes_binary64 1%nat) = true /\
  PrimFloat.eqb (fst face_fluxes_binary64 2%nat) (snd face_fluxes_binary64 2%nat) = true /\
  PrimFloat.eqb (fst face_fluxes_binary64 3%nat) (snd face_fluxes_binary64 3%nat) = true /\
  PrimFloat.eqb (fst face_fluxes_binary64 0%nat) (float_ofZ 0) = false.
Proof. repeat split; vm_compute; reflexivity. Qed.

(** ** The stage-2 update *)

Lemma AMREX_D_TERM_sum (d : SpaceDim) (dt : R) (dx : nat -> R) (flux : @CellFluxes R) (n : nat) :
  AMREX_D_TERM d
    (dt / dx 0%nat * (flux_lo flux 0 n - flux_hi flux 0 n))
    (dt / dx 1%nat * (flux_lo flux 1 n - flux_hi flux 1 n))
    (dt / dx 2%nat * (flux_lo flux 2 n - flux_hi flux 2 n))
  = dt * fluxDifference_spec d dx flux n.
Proof.
  unfold AMREX_D_TERM, fluxDifference_spec, vsum.
  destruct d; cbn [dims for_loop]; real_ops; unfold Rdiv; ring.
Qed.

(** The loop that fills the local state writes entry [n] once. *)
Lemma fill_loop_entry {T : Type} (m n : nat) (f : nat -> T) (init : nat -> T) :
  (n < m)%nat -> for_loop m (fun n a => upd a n (f n)) init n = f n.
Proof.
  induction m as [| m IH]; intros Hn; [lia|].
  cbn [for_loop]. destruct (Nat.eq_dec n m) as [-> | Hne].
  - apply upd_eq.
  - rewrite upd_neq by exact Hne. apply IH. lia.
Qed.

Lemma storeHyperbolic_entry {T : Type} (P : RadSystem_Traits T) (U_new cons : nat -> T)
    (n : nat) :
  (n < 4 * nGroups P)%nat ->
  storeHyperbolic P U_new cons (radFirstIndex P + n)%nat = cons n.
Proof.
  unfold storeHyperbolic, nvarHyperbolic_, numRadVars_, nstartHyperbolic_.
  induction (4 * nGroups P)%nat as [| m IH]; intros Hn; [lia|].
  cbn [for_loop]. destruct (Nat.eq_dec n m) as [-> | Hne].
  - apply upd_eq.
  - rewrite upd_neq by lia. apply IH. lia.
Qed.

Lemma storeHyperbolic_other {T : Type} (P : RadSystem_Traits T) (U_new cons : nat -> T)
    (j : nat) :
  (j < radFirstIndex P \/ radFirstIndex P + 4 * nGroups P <= j)%nat ->
  storeHyperbolic P U_new cons j = U_new j.
Proof.
  unfold storeHyperbolic, nvarHyperbolic_, numRadVars_, nstartHyperbolic_.
  induction (4 * nGroups P)%nat as [| m IH]; intros Hj; [reflexivity|].
  cbn [for_loop]. rewrite upd_neq by lia. apply IH. lia.
Qed.

(** The candidate of stage 2 and what is done with it.  For every cell
    and every hyperbolic variable [n], in exact arithmetic, [AddFluxesRK2]
    computes the candidate
    [(1 - a32) U0 + a32 U1 + (0.5 - a32) dt div(flux0) + 0.5 dt div(flux1)],
    the flux differences being summed over the space dimensions (with the
    source's [a32 = 0.5] this is [0.5 U0 + 0.5 U1 + 0.5 dt div(flux1)]);
    it keeps a candidate that [isStateValid] accepts and replaces any
    other by its amendment, valid or not; and it writes the
    result to the hyperbolic variables of the output array, leaving the
    other entries alone. *)
Theorem AddFluxesRK2_stage2
    (P : RadSystem_Traits R) (Hy : HyperParams R) (d : SpaceDim)
    (U_new U0 U1 : nat -> R) (fluxArrayOld fluxArray : @CellFluxes R)
    (dt : R) (dx : nat -> R) (n : nat) :
  (n < 4 * nGroups P)%nat ->
  let a32 := IMEX_a32 Hy in
  let cand := AddFluxesRK2_candidate P Hy d U0 U1 fluxArrayOld fluxArray dt dx in
  let out := AddFluxesRK2 P Hy d U_new U0 U1 fluxArrayOld fluxArray dt dx in
  cand n = stage2_spec a32 dt (U0 (radFirstIndex P + n)%nat) (U1 (radFirstIndex P + n)%nat)
             (fluxDifference_spec d dx fluxArrayOld n) (fluxDifference_spec d dx fluxArray n) /\
  (a32 = 1 / 2 ->
   cand n = 1 / 2 * U0 (radFirstIndex P + n)%nat + 1 / 2 * U1 (radFirstIndex P + n)%nat
            + 1 / 2 * dt * fluxDifference_spec d dx fluxArray n) /\
  IMEX_a32 (@source_hyper R _) = 1 / 2 /\
  (isStateValid P cand = true -> out (radFirstIndex P + n)%nat = cand n) /\
  (isStateValid P cand = false -> out (radFirstIndex P + n)%nat = amendRadState P cand n) /\
  (forall j, (j < radFirstIndex P \/ radFirstIndex P + 4 * nGroups P <= j)%nat ->
     out j = U_new j).
Proof.
  intros Hn. cbv zeta.
  assert (Hcand : AddFluxesRK2_candidate P Hy d U0 U1 fluxArrayOld fluxArray dt dx n
    = stage2_spec (IMEX_a32 Hy) dt (U0 (radFirstIndex P + n)%nat) (U1 (radFirstIndex P + n)%nat)
        (fluxDifference_spec d dx fluxArrayOld n) (fluxDifference_spec d dx fluxArray n)).
  { unfold AddFluxesRK2_candidate, nvarHyperbolic_, numRadVars_. cbv zeta.
    rewrite (fill_loop_entry (4 * nGroups P) n
               (fun n => _) zeros Hn).
    rewrite !AMREX_D_TERM_sum. unfold stage2_spec, nstartHyperbolic_. real_ops. ring. }
  split; [exact Hcand | split; [| split; [| split; [| split]]]].
  - intros Ha. rewrite Hcand, Ha. unfold stage2_spec. field.
  - reflexivity.
  - intros Hvalid. unfold AddFluxesRK2. cbv zeta.
    rewrite storeHyperbolic_entry by exact Hn.
    unfold enforceValidity. now rewrite Hvalid.
  - intros Hinvalid. unfold AddFluxesRK2. cbv zeta.
    rewrite storeHyperbolic_entry by exact Hn.
    unfold enforceValidity. now rewrite Hinvalid.
  - intros j Hj. unfold AddFluxesRK2. cbv zeta.
    apply storeHyperbolic_other. exact Hj.
Qed.

Lemma AddFluxesRK2_stage2_witness :
  AddFluxesRK2_candidate unit_traits source_hyper Dim1 (fun _ => 1) (fun _ => 3)
    unit_inflow unit_inflow 1 (fun _ => 1) 0%nat
  = stage2_spec (1 / 2) 1 1 3
      (fluxDifference_spec Dim1 (fun _ => 1) unit_inflow 0)
      (fluxDifference_spec Dim1 (fun _ => 1) unit_inflow 0).
Proof.
  assert (Hn : (0 < 4 * nGroups unit_traits)%nat) by (cbn; lia).
  exact (proj1 (AddFluxesRK2_stage2 unit_traits source_hyper Dim1 zeros (fun _ => 1)
                  (fun _ => 3) unit_inflow unit_inflow 1 (fun _ => 1) 0%nat Hn)).
Defined.

(** ** Planck energy fractions *)

Section PlanckFractions.

Variable P : RadSystem_Traits R.
Variable integrate_planck_from_0_to_x : R -> R.
Variable boundaries : nat -> R.
Variable temperature : R.





End PlanckFractions.





(** ** Groups of zero optical depth in the energy exchange *)

(** Neither arithmetic finds [0 > 0]. *)
Lemma zero_not_positive_real : s_ltb (s_ofZ 0 : R) (s_ofZ 0) = false.
Proof. real_ops. apply Rltb_false. lra. Qed.

Lemma zero_not_positive_binary64 : s_ltb (s_ofZ 0 : PrimFloat.float) (s_ofZ 0) = false.
Proof. vm_compute. reflexivity. Qed.

Section TransparentGroup.

Context {T : Type} `{Scalar T}.
Variable P : RadSystem_Traits T.

(** A group whose test [tau[g] > 0.0] fails keeps its guessed energy. *)
Lemma updateEradVec_guess_skip (tau kappaPoverE fourPiBoverC Rvec work EradVec_guess : nat -> T)
    (g : nat) :
  s_ltb (s_ofZ 0) (tau g) = false ->
  updateEradVec_guess P tau kappaPoverE fourPiBoverC Rvec work EradVec_guess g
  = EradVec_guess g.
Proof.
  intros Htau. unfold updateEradVec_guess.
  induction (nGroups_ P) as [| n IH]; [reflexivity|].
  cbn [for_loop]. destruct (s_ltb (s_ofZ 0) (tau n)) eqn:En; [| exact IH].
  rewrite upd_neq; [exact IH|].
  intros ->. rewrite Htau in En. discriminate En.
Qed.

(** Such a group adds nothing to [F_D_abs_sum] and to [F_G]: the two
    accumulated values do not depend on its [F_D] and [Rvec]. *)
Lemma accumulateResiduals_skip (tau F_D Rvec : nat -> T) (F_G x y : T) (g : nat) :
  s_ltb (s_ofZ 0) (tau g) = false ->
  accumulateResiduals P tau (upd F_D g y) (upd Rvec g x) F_G
  = accumulateResiduals P tau F_D Rvec F_G.
Proof.
  intros Htau. unfold accumulateResiduals.
  induction (nGroups_ P) as [| n IH]; [reflexivity|].
  cbn [for_loop]. rewrite IH.
  destruct (s_ltb (s_ofZ 0) (tau n)) eqn:En; [| reflexivity].
  assert (Hne : n <> g) by (intros ->; rewrite Htau in En; discriminate En).
  now rewrite !upd_neq by exact Hne.
Qed.

End TransparentGroup.

Section EnergyExchange.

Context {T : Type} `{Scalar T}.
Variables (P : RadSystem_Traits T) (Hy : HyperParams T) (NAN infinity : T).
Variable std_pow : T -> T -> T.
Variable ComputeTgasFromEint : T -> T -> (nat -> T) -> T.
Variable ComputeEintTempDerivative : T -> T -> (nat -> T) -> T.
Variable ComputePlanckOpacity : T -> T -> nat -> T.
Variable ComputeEnergyMeanOpacity : T -> T -> nat -> T.
Variable ComputeFluxMeanOpacity : T -> T -> nat -> T.
Variable integrate_planck_from_0_to_x : T -> T.
Variables (consPrev radEnergySource boundaries : nat -> T) (dt_radiation : T) (stage : Z).
Variable g : nat.

Let setup := exchangeSetup P Hy NAN std_pow ComputeTgasFromEint ComputePlanckOpacity
               ComputeEnergyMeanOpacity ComputeFluxMeanOpacity integrate_planck_from_0_to_x
               consPrev radEnergySource boundaries dt_radiation stage.
Let ex := fst setup.
Let st0 := snd setup.
Let residuals := NR_residuals P Hy std_pow ComputeTgasFromEint ComputePlanckOpacity
                   ComputeEnergyMeanOpacity integrate_planck_from_0_to_x ex.
Let update := NR_update P Hy infinity std_pow ComputeEintTempDerivative
                integrate_planck_from_0_to_x ex.
Let loop (fuel : nat) :=
  NewtonRaphson P Hy infinity std_pow ComputeTgasFromEint ComputeEintTempDerivative
    ComputePlanckOpacity ComputeEnergyMeanOpacity integrate_planck_from_0_to_x fuel ex.

(** The arithmetic does not find [0 > 0]. *)
Hypothesis zero_not_positive : s_ltb (s_ofZ 0) (s_ofZ 0) = false.

(** The optical depth that a pass computes is the one of the temperature
    of its gas energy guess. *)
Lemma residuals_tau (st : NRState) :
  tau (residuals st)
  = opticalDepth P ex
      (ComputeEnergyMeanOpacity (ex_rho ex)
         (ComputeTgasFromEint (ex_rho ex) (Egas_guess st) (ex_massScalars ex))).
Proof. reflexivity. Qed.

(** The first half of a pass in which [tau[g]] is zero does not overwrite
    the guess of group [g]. *)
Lemma residuals_keep_guess (st : NRState) :
  tau (residuals st) g = s_ofZ 0 ->
  EradVec_guess (residuals st) g = EradVec_guess st g.
Proof.
  intros Htau. unfold residuals, NR_residuals. cbn [EradVec_guess].
  apply updateEradVec_guess_skip.
  rewrite residuals_tau in Htau. now rewrite Htau.
Qed.

(** The second half of a pass does not write [EradVec_guess] at all. *)
Lemma update_keep_guess (st : NRState) :
  EradVec_guess (update st) = EradVec_guess st.
Proof. reflexivity. Qed.

(** The residuals of a pass as the accumulation loop returns them. *)
Lemma residuals_accumulated (st : NRState) :
  (F_D_abs_sum (residuals st), F_G (residuals st))
  = accumulateResiduals P (tau (residuals st)) (F_D (residuals st)) (Rvec (residuals st))
      (s_sub (Egas_guess st) (ex_Egas0 ex)).
Proof.
  unfold residuals, NR_residuals. cbn [F_D_abs_sum F_G tau F_D Rvec].
  now destruct (accumulateResiduals _ _ _ _ _).
Qed.

(** In a pass in which [tau[g]] is zero the two residuals are the same
    whatever [Rvec[g]] and [F_D[g]] are. *)
Lemma residuals_ignore_group (st : NRState) (x y : T) :
  tau (residuals st) g = s_ofZ 0 ->
  (F_D_abs_sum (residuals st), F_G (residuals st))
  = accumulateResiduals P (tau (residuals st))
      (upd (F_D (residuals st)) g y) (upd (Rvec (residuals st)) g x)
      (s_sub (Egas_guess st) (ex_Egas0 ex)).
Proof.
  intros Htau. rewrite (accumulateResiduals_skip P).
  - apply residuals_accumulated.
  - now rewrite Htau.
Qed.

(** The optical depth of group [g] is exactly zero at every gas
    temperature. *)
Hypothesis tau_zero : forall Tgas : T,
  opticalDepth P ex (ComputeEnergyMeanOpacity (ex_rho ex) Tgas) g = s_ofZ 0.

(** The guess of group [g] is the same after the loop, however many
    passes it makes and whether it converges or not. *)
Lemma loop_keep_guess (fuel : nat) (st : NRState) :
  EradVec_guess (fst (loop fuel st)) g = EradVec_guess st g.
Proof.
  assert (Hpass : forall st', EradVec_guess (residuals st') g = EradVec_guess st' g).
  { intros st'. apply residuals_keep_guess. rewrite residuals_tau. apply tau_zero. }
  revert st. induction fuel as [| fuel IH]; intros st; [reflexivity|].
  unfold loop in *. cbn [NewtonRaphson].
  fold (residuals st). destruct (NR_converged P ex (residuals st)).
  - cbn [fst]. apply Hpass.
  - fold (update (residuals st)). rewrite IH, update_keep_guess. apply Hpass.
Qed.

(** [EradVec_guess = Erad0Vec] before the loop, [Erad0Vec] being the
    radiation energies loaded from the cell. *)
Lemma setup_guess_is_Erad0Vec :
  EradVec_guess st0 = ex_Erad0Vec ex /\
  ex_Erad0Vec ex g = consPrev (radEnergy_index P + 4 * g)%nat.
Proof.
  unfold st0, ex, setup, exchangeSetup. cbv zeta.
  destruct (lorentzFactors P NAN _) as [[l lv] lvv]. split; reflexivity.
Qed.

(** The energy exchange leaves the guess of group [g] at the radiation
    energy the cell had. *)
Lemma energyExchange_keep_guess :
  (forall fuel : nat, EradVec_guess (fst (loop fuel st0)) g = ex_Erad0Vec ex g) /\
  EradVec_guess
    (fst (energyExchange P Hy NAN infinity std_pow ComputeTgasFromEint
            ComputeEintTempDerivative ComputePlanckOpacity ComputeEnergyMeanOpacity
            ComputeFluxMeanOpacity integrate_planck_from_0_to_x
            consPrev radEnergySource boundaries dt_radiation stage)) g
  = consPrev (radEnergy_index P + 4 * g)%nat.
Proof.
  destruct setup_guess_is_Erad0Vec as [Hinit Hload].
  assert (Hloop : forall fuel, EradVec_guess (fst (loop fuel st0)) g = ex_Erad0Vec ex g).
  { intros fuel. rewrite loop_keep_guess. now rewrite Hinit. }
  split; [exact Hloop|].
  rewrite <- Hload, <- (Hloop maxIter).
  unfold energyExchange, loop, st0, ex, setup.
  now destruct (exchangeSetup _ _ _ _ _ _ _ _ _ _ _ _ _ _) as [ex' st'].
Qed.

End EnergyExchange.

Section ZeroOpticalDepth.

Context {T : Type} `{Scalar T}.
Variables (P : RadSystem_Traits T) (Hy : HyperParams T) (NAN infinity : T).
Variable std_pow : T -> T -> T.
Variable ComputeTgasFromEint : T -> T -> (nat -> T) -> T.
Variable ComputeEintTempDerivative : T -> T -> (nat -> T) -> T.
Variable ComputePlanckOpacity : T -> T -> nat -> T.
Variable ComputeEnergyMeanOpacity : T -> T -> nat -> T.
Variable ComputeFluxMeanOpacity : T -> T -> nat -> T.
Variable integrate_planck_from_0_to_x : T -> T.
Variables (consPrev radEnergySource boundaries : nat -> T) (dt_radiation : T) (stage : Z).
Variable g : nat.

Let setup := exchangeSetup P Hy NAN std_pow ComputeTgasFromEint ComputePlanckOpacity
               ComputeEnergyMeanOpacity ComputeFluxMeanOpacity integrate_planck_from_0_to_x
               consPrev radEnergySource boundaries dt_radiation stage.
Let ex := fst setup.
Let st0 := snd setup.
Let residuals := NR_residuals P Hy std_pow ComputeTgasFromEint ComputePlanckOpacity
                   ComputeEnergyMeanOpacity integrate_planck_from_0_to_x ex.
Let update := NR_update P Hy infinity std_pow ComputeEintTempDerivative
                integrate_planck_from_0_to_x ex.
Let loop (fuel : nat) :=
  NewtonRaphson P Hy infinity std_pow ComputeTgasFromEint ComputeEintTempDerivative
    ComputePlanckOpacity ComputeEnergyMeanOpacity integrate_planck_from_0_to_x fuel ex.

(** C9. In the Newton-Raphson loop of the energy exchange, a group [g]
    whose optical depth [tau[g]] is exactly [0] does not have its guessed
    radiation energy overwritten: neither half of such a pass changes
    [EradVec_guess[g]], and in such a pass the group adds nothing to the
    residual [F_G] nor to the sum [F_D_abs_sum], which are the same
    whatever [Rvec[g]] and [F_D[g]] are.  When [tau[g]] is [0] at every
    temperature, [EradVec_guess[g]], which starts as [Erad0Vec[g]], is
    still [Erad0Vec[g]] after any number of passes, and so when the
    energy exchange ends. *)
Theorem energy_exchange_zero_optical_depth :
  s_ltb (s_ofZ 0) (s_ofZ 0) = false ->
  (forall st : NRState,
     tau (residuals st) g = s_ofZ 0 ->
     EradVec_guess (residuals st) g = EradVec_guess st g /\
     EradVec_guess (update (residuals st)) g = EradVec_guess st g /\
     (forall x y : T,
        (F_D_abs_sum (residuals st), F_G (residuals st))
        = accumulateResiduals P (tau (residuals st))
            (upd (F_D (residuals st)) g y) (upd (Rvec (residuals st)) g x)
            (s_sub (Egas_guess st) (ex_Egas0 ex)))) /\
  ((forall Tgas : T,
      opticalDepth P ex (ComputeEnergyMeanOpacity (ex_rho ex) Tgas) g = s_ofZ 0) ->
   EradVec_guess st0 g = ex_Erad0Vec ex g /\
   ex_Erad0Vec ex g = consPrev (radEnergy_index P + 4 * g)%nat /\
   (forall fuel : nat, EradVec_guess (fst (loop fuel st0)) g = ex_Erad0Vec ex g) /\
   EradVec_guess
     (fst (energyExchange P Hy NAN infinity std_pow ComputeTgasFromEint
             ComputeEintTempDerivative ComputePlanckOpacity ComputeEnergyMeanOpacity
             ComputeFluxMeanOpacity integrate_planck_from_0_to_x
             consPrev radEnergySource boundaries dt_radiation stage)) g
     = consPrev (radEnergy_index P + 4 * g)%nat).
Proof.
  intros Hzero. split.
  - intros st Htau.
    pose proof (residuals_keep_guess P Hy NAN std_pow ComputeTgasFromEint
                  ComputePlanckOpacity ComputeEnergyMeanOpacity ComputeFluxMeanOpacity
                  integrate_planck_from_0_to_x consPrev radEnergySource boundaries
                  dt_radiation stage g Hzero st Htau) as Hkeep.
    repeat split.
    + exact Hkeep.
    + exact Hkeep.
    + intros x y.
      apply (residuals_ignore_group P Hy NAN std_pow ComputeTgasFromEint
               ComputePlanckOpacity ComputeEnergyMeanOpacity ComputeFluxMeanOpacity
               integrate_planck_from_0_to_x consPrev radEnergySource boundaries
               dt_radiation stage g Hzero st x y Htau).
  - intros Htau.
    destruct (setup_guess_is_Erad0Vec P Hy NAN std_pow ComputeTgasFromEint
                ComputePlanckOpacity ComputeEnergyMeanOpacity ComputeFluxMeanOpacity
                integrate_planck_from_0_to_x consPrev radEnergySource boundaries
                dt_radiation stage g) as [Hinit Hload].
    destruct (energyExchange_keep_guess P Hy NAN infinity std_pow ComputeTgasFromEint
                ComputeEintTempDerivative ComputePlanckOpacity ComputeEnergyMeanOpacity
                ComputeFluxMeanOpacity integrate_planck_from_0_to_x consPrev
                radEnergySource boundaries dt_radiation stage g Hzero Htau)
      as [Hloop Hend].
    repeat split.
    + exact (f_equal (fun a => a g) Hinit).
    + exact Hload.
    + exact Hloop.
    + exact Hend.
Qed.

End ZeroOpticalDepth.

Lemma energy_exchange_zero_optical_depth_witness :
  EradVec_guess
    (fst (energyExchange unit_traits_binary64 source_hyper PrimFloat.nan PrimFloat.infinity
            fourth_power_binary64 ideal_gas_temperature_binary64
            ideal_gas_heat_capacity_binary64 no_opacity_binary64 no_opacity_binary64
            no_opacity_binary64 (fun x => x)
            cell_at_rest_binary64 (fun _ => float_ofZ 0) (fun g => float_ofZ (Z.of_nat g))
            (float_ofZ 1) 1%Z)) 0%nat
  = cell_at_rest_binary64 6%nat.
Proof.
  assert (Hzero : PrimFloat.ltb (float_ofZ 0) (float_ofZ 0) = false)
    by (vm_compute; reflexivity).
  pose proof (energy_exchange_zero_optical_depth unit_traits_binary64 source_hyper
                PrimFloat.nan PrimFloat.infinity
                fourth_power_binary64 ideal_gas_temperature_binary64
                ideal_gas_heat_capacity_binary64 no_opacity_binary64 no_opacity_binary64
                no_opacity_binary64 (fun x => x)
                cell_at_rest_binary64 (fun _ => float_ofZ 0)
                (fun g => float_ofZ (Z.of_nat g)) (float_ofZ 1) 1%Z 0%nat Hzero) as Hthm.
  assert (Htau : forall Tgas : PrimFloat.float,
            opticalDepth unit_traits_binary64
              (fst (exchangeSetup unit_traits_binary64 source_hyper PrimFloat.nan
                      fourth_power_binary64 ideal_gas_temperature_binary64
                      no_opacity_binary64 no_opacity_binary64 no_opacity_binary64
                      (fun x => x) cell_at_rest_binary64 (fun _ => float_ofZ 0)
                      (fun g => float_ofZ (Z.of_nat g)) (float_ofZ 1) 1%Z))
              (no_opacity_binary64
                 (ex_rho (fst (exchangeSetup unit_traits_binary64 source_hyper PrimFloat.nan
                      fourth_power_binary64 ideal_gas_temperature_binary64
                      no_opacity_binary64 no_opacity_binary64 no_opacity_binary64
                      (fun x => x) cell_at_rest_binary64 (fun _ => float_ofZ 0)
                      (fun g => float_ofZ (Z.of_nat g)) (float_ofZ 1) 1%Z))) Tgas) 0%nat
            = float_ofZ 0)
    by (intros Tgas; vm_compute; reflexivity).
  destruct Hthm as [_ Hblanket].
  destruct (Hblanket Htau) as (_ & _ & _ & Hend).
  exact Hend.
Defined.

(** ** The exchange on binary64 *)

(** The energy exchange evaluates on binary64.  In an optically thick
    cell with gas energy [1] and radiation energy [2] the Newton-Raphson
    loop leaves through its convergence test, and the total energy [3] is
    kept to within [1e-11]. *)
Example energyExchange_equilibrium_binary64 :
  let res := energyExchange unit_traits_binary64 source_hyper PrimFloat.nan PrimFloat.infinity
               fourth_power_binary64 ideal_gas_temperature_binary64
               ideal_gas_heat_capacity_binary64 thick_opacity_binary64 thick_opacity_binary64
               thick_opacity_binary64 (fun x => x)
               cell_at_rest_binary64 (fun _ => float_ofZ 0)
               (fun g => float_ofZ (Z.of_nat g)) (float_ofZ 1) 1%Z in
  snd res = true /\
  PrimFloat.ltb
    (PrimFloat.abs (PrimFloat.sub (PrimFloat.add (Egas_guess (fst res))
                                                 (EradVec_guess (fst res) 0%nat))
                                  (float_ofZ 3)))
    (PrimFloat.div (float_ofZ 1) (float_ofZ 100000000000)) = true.
Proof. split; vm_compute; reflexivity. Qed.

(** ** The 3x3 solver *)

(** X1. Whenever the three pivots of the elimination are nonzero (the
    entry [C00], the reduced entry [E11] and the reduced determinant
    [E22 - E12 E21 / E11]), the triple returned by [Solve3x3matrix] solves
    the system [C X = Y] exactly in real arithmetic. *)
Theorem Solve3x3matrix_solves (C00 C01 C02 C10 C11 C12 C20 C21 C22 Y0 Y1 Y2 : R) :
  let E11 := C11 - C01 * C10 / C00 in
  let E12 := C12 - C02 * C10 / C00 in
  let E21 := C21 - C01 * C20 / C00 in
  let E22 := C22 - C02 * C20 / C00 in
  C00 <> 0 -> E11 <> 0 -> E22 - E12 * E21 / E11 <> 0 ->
  let X := Solve3x3matrix C00 C01 C02 C10 C11 C12 C20 C21 C22 Y0 Y1 Y2 in
  let X0 := fst (fst X) in
  let X1 := snd (fst X) in
  let X2 := snd X in
  C00 * X0 + C01 * X1 + C02 * X2 = Y0 /\
  C10 * X0 + C11 * X1 + C12 * X2 = Y1 /\
  C20 * X0 + C21 * X1 + C22 * X2 = Y2.
Proof.
  intros E11 E12 E21 E22 H00 H11 Hdet X X0 X1 X2.
  set (Z1 := Y1 - Y0 * C10 / C00). set (Z2 := Y2 - Y0 * C20 / C00).
  assert (D11 : E11 = C11 - C01 * C10 / C00) by reflexivity.
  assert (D12 : E12 = C12 - C02 * C10 / C00) by reflexivity.
  assert (D21 : E21 = C21 - C01 * C20 / C00) by reflexivity.
  assert (D22 : E22 = C22 - C02 * C20 / C00) by reflexivity.
  assert (DZ1 : Z1 = Y1 - Y0 * C10 / C00) by reflexivity.
  assert (DZ2 : Z2 = Y2 - Y0 * C20 / C00) by reflexivity.
  assert (EX2 : X2 = (Z2 - Z1 * E21 / E11) / (E22 - E12 * E21 / E11)) by reflexivity.
  assert (EX1 : X1 = (Z1 - E12 * X2) / E11) by reflexivity.
  assert (EX0 : X0 = (Y0 - C01 * X1 - C02 * X2) / C00) by reflexivity.
  clearbody X0 X1 X2 E11 E12 E21 E22 Z1 Z2. clear X.
  assert (R1 : E11 * X1 + E12 * X2 = Z1). { rewrite EX1; field. exact H11. }
  assert (R2 : E21 * X1 + E22 * X2 = Z2).
  { rewrite EX1.
    replace (E21 * ((Z1 - E12 * X2) / E11) + E22 * X2)
      with (Z1 * E21 / E11 + X2 * (E22 - E12 * E21 / E11)) by (field; exact H11).
    rewrite EX2 at 1. field. split; [exact H11|].
    intros Hc. apply Hdet.
    replace (E22 - E12 * E21 / E11) with ((E22 * E11 - E12 * E21) / E11) by (field; exact H11).
    rewrite Hc. unfold Rdiv. ring. }
  assert (R0 : C00 * X0 = Y0 - C01 * X1 - C02 * X2) by (rewrite EX0; field; exact H00).
  assert (Q0 : X0 = (Y0 - C01 * X1 - C02 * X2) / C00) by exact EX0.
  clear EX0 EX1 EX2.
  rewrite D11, D12, DZ1 in R1. rewrite D21, D22, DZ2 in R2.
  repeat split.
  - lra.
  - rewrite Q0. rewrite <- (Rminus_0_r Y1).
    replace 0 with (Y1 - Y0 * C10 / C00 - ((C11 - C01 * C10 / C00) * X1 + (C12 - C02 * C10 / C00) * X2))
      by (rewrite R1; ring).
    field. exact H00.
  - rewrite Q0. rewrite <- (Rminus_0_r Y2).
    replace 0 with (Y2 - Y0 * C20 / C00 - ((C21 - C01 * C20 / C00) * X1 + (C22 - C02 * C20 / C00) * X2))
      by (rewrite R2; ring).
    field. exact H00.
Qed.

Lemma Solve3x3matrix_solves_witness :
  let X := Solve3x3matrix 2 1 0 1 3 1 0 1 4 3 5 5 in
  2 * fst (fst X) + 1 * snd (fst X) + 0 * snd X = 3 /\
  1 * fst (fst X) + 3 * snd (fst X) + 1 * snd X = 5 /\
  0 * fst (fst X) + 1 * snd (fst X) + 4 * snd X = 5.
Proof.
  apply (Solve3x3matrix_solves 2 1 0 1 3 1 0 1 4 3 5 5); lra.
Defined.

(** ** The Eddington tensor *)

(** The reduced flux has the norm [f]: for [f > 0] the unit vector
    [n = (fx, fy, fz) / f] has [n . n = 1]. *)
Lemma unit_vector_norm (fx fy fz : R) :
  let f := sqrt (fx * fx + fy * fy + fz * fz) in
  0 < f -> f * f = fx * fx + fy * fy + fz * fz.
Proof.
  intros f _. apply sqrt_sqrt. nra.
Qed.

Lemma zero_norm_zero_vector (fx fy fz : R) :
  sqrt (fx * fx + fy * fy + fz * fz) <= 0 -> fx = 0 /\ fy = 0 /\ fz = 0.
Proof.
  intros Hle.
  assert (H0 : sqrt (fx * fx + fy * fy + fz * fz) = 0)
    by (pose proof (sqrt_pos (fx * fx + fy * fy + fz * fz)); lra).
  apply sqrt_eq_0 in H0; [| nra].
  repeat split; nra.
Qed.

(** X2. In exact arithmetic, for every reduced flux the Eddington tensor
    is symmetric and has unit trace, also at zero flux, where it is a
    third of the identity.  On binary64 the trace is [1] up to rounding
    only ([ComputeEddingtonTensor_binary64_rounding]). *)
Theorem ComputeEddingtonTensor_symmetric_unit_trace (fx fy fz : R) :
  let Tedd := ComputeEddingtonTensor fx fy fz in
  (forall i j : nat, Tedd i j = Tedd j i) /\
  Tedd 0%nat 0%nat + Tedd 1%nat 1%nat + Tedd 2%nat 2%nat = 1 /\
  (forall i j : nat, ComputeEddingtonTensor 0 0 0 i j = if Nat.eqb i j then 1 / 3 else 0).
Proof.
  intros Tedd. subst Tedd. unfold ComputeEddingtonTensor. cbv zeta. real_ops.
  pose proof (unit_vector_norm fx fy fz) as Hunit. cbv zeta in Hunit.
  pose proof (zero_norm_zero_vector fx fy fz) as Hzero.
  set (f := sqrt (fx * fx + fy * fy + fz * fz)) in *.
  split; [| split].
  - intros i j. rewrite (Nat.eqb_sym i j). ring.
  - cbn [Nat.eqb vec3].
    case_Rltb 0 f.
    + specialize (Hunit E).
      replace (fx / f * (fx / f)) with (fx * fx / (f * f)) by (field; lra).
      replace (fy / f * (fy / f)) with (fy * fy / (f * f)) by (field; lra).
      replace (fz / f * (fz / f)) with (fz * fz / (f * f)) by (field; lra).
      set (chi := ComputeEddingtonFactor f).
      replace ((1 - chi) / 2 * 1 + (3 * chi - 1) / 2 * (fx * fx / (f * f)) +
               ((1 - chi) / 2 * 1 + (3 * chi - 1) / 2 * (fy * fy / (f * f))) +
               ((1 - chi) / 2 * 1 + (3 * chi - 1) / 2 * (fz * fz / (f * f))))
        with (3 * (1 - chi) / 2 + (3 * chi - 1) / 2 * ((fx * fx + fy * fy + fz * fz) / (f * f)))
        by (field; lra).
      rewrite <- Hunit. unfold Rdiv at 3. rewrite Rinv_r by nra. field.
    + assert (Hf : f = 0) by (pose proof (sqrt_pos (fx * fx + fy * fy + fz * fz)); fold f in H; lra).
      rewrite Hf, ComputeEddingtonFactor_0. field.
  - intros i j. clear.
    replace (0 * 0 + 0 * 0 + 0 * 0) with 0 by ring. rewrite sqrt_0.
    case_Rltb 0 0; [lra|]. rewrite ComputeEddingtonFactor_0.
    destruct (Nat.eqb i j); field.
Qed.

(** X3. In exact arithmetic the reduced flux is an eigenvector of the
    Eddington tensor, and its eigenvalue is the Eddington factor:
    [Tedd . f = chi(|f|) f].  On binary64 the two sides agree up to
    rounding only ([ComputeEddingtonTensor_binary64_rounding]). *)
Theorem ComputeEddingtonTensor_flux_eigenvector (fx fy fz : R) :
  let Tedd := ComputeEddingtonTensor fx fy fz in
  let chi := ComputeEddingtonFactor (sqrt (fx * fx + fy * fy + fz * fz)) in
  Tedd 0%nat 0%nat * fx + Tedd 0%nat 1%nat * fy + Tedd 0%nat 2%nat * fz = chi * fx /\
  Tedd 1%nat 0%nat * fx + Tedd 1%nat 1%nat * fy + Tedd 1%nat 2%nat * fz = chi * fy /\
  Tedd 2%nat 0%nat * fx + Tedd 2%nat 1%nat * fy + Tedd 2%nat 2%nat * fz = chi * fz.
Proof.
  intros Tedd chi. subst Tedd. unfold ComputeEddingtonTensor. cbv zeta. real_ops.
  pose proof (unit_vector_norm fx fy fz) as Hunit. cbv zeta in Hunit.
  pose proof (zero_norm_zero_vector fx fy fz) as Hzero.
  set (f := sqrt (fx * fx + fy * fy + fz * fz)) in *.
  fold chi. clearbody chi. cbn [Nat.eqb vec3].
  case_Rltb 0 f.
  - specialize (Hunit E).
    assert (Hdot : forall v : R,
              v / f * (fx / f) * fx + v / f * (fy / f) * fy + v / f * (fz / f) * fz = v).
    { intros v.
      replace (v / f * (fx / f) * fx + v / f * (fy / f) * fy + v / f * (fz / f) * fz)
        with (v * ((fx * fx + fy * fy + fz * fz) / (f * f))) by (field; lra).
      rewrite <- Hunit. unfold Rdiv. rewrite Rinv_r by nra. ring. }
    repeat split.
    + replace (chi * fx) with ((1 - chi) / 2 * fx + (3 * chi - 1) / 2 *
        (fx / f * (fx / f) * fx + fx / f * (fy / f) * fy + fx / f * (fz / f) * fz))
        by (rewrite Hdot; field).
      ring.
    + replace (chi * fy) with ((1 - chi) / 2 * fy + (3 * chi - 1) / 2 *
        (fy / f * (fx / f) * fx + fy / f * (fy / f) * fy + fy / f * (fz / f) * fz))
        by (rewrite Hdot; field).
      ring.
    + replace (chi * fz) with ((1 - chi) / 2 * fz + (3 * chi - 1) / 2 *
        (fz / f * (fx / f) * fx + fz / f * (fy / f) * fy + fz / f * (fz / f) * fz))
        by (rewrite Hdot; field).
      ring.
  - destruct (Hzero E) as (-> & -> & ->). repeat split; ring.
Qed.

(** On binary64 the three identities hold up to rounding only: at zero
    flux the diagonal is [0.33333333333333337], one unit in the last
    place above the double nearest to [1/3]; at the reduced flux
    [(0.3, 0.4, 0.1)] the trace is [0.99999999999999978], and the first
    component of [Tedd . f] differs from [chi f_x] in its last place. *)
Lemma ComputeEddingtonTensor_binary64_rounding :
  let tenths := fun z : Z => PrimFloat.div (float_ofZ z) (float_ofZ 10) in
  let fx := tenths 3%Z in
  let fy := tenths 4%Z in
  let fz := tenths 1%Z in
  let Tedd := ComputeEddingtonTensor fx fy fz in
  let f := PrimFloat.sqrt (PrimFloat.add (PrimFloat.add (PrimFloat.mul fx fx)
                                            (PrimFloat.mul fy fy)) (PrimFloat.mul fz fz)) in
  PrimFloat.eqb (ComputeEddingtonTensor (float_ofZ 0) (float_ofZ 0) (float_ofZ 0) 0%nat 0%nat)
                (PrimFloat.div (float_ofZ 1) (float_ofZ 3)) = false /\
  PrimFloat.eqb (PrimFloat.add (PrimFloat.add (Tedd 0%nat 0%nat) (Tedd 1%nat 1%nat))
                               (Tedd 2%nat 2%nat)) (float_ofZ 1) = false /\
  PrimFloat.eqb (PrimFloat.add (PrimFloat.add (PrimFloat.mul (Tedd 0%nat 0%nat) fx)
                                              (PrimFloat.mul (Tedd 0%nat 1%nat) fy))
                               (PrimFloat.mul (Tedd 0%nat 2%nat) fz))
                (PrimFloat.mul (ComputeEddingtonFactor f) fx) = false.
Proof. cbv zeta. repeat split; vm_compute; reflexivity. Qed.

(** ** Gas energies *)

(** X4. In exact arithmetic [ComputeEintFromEgas] and [ComputeEgasFromEint]
    are inverse to each other at fixed density and momentum: subtracting
    and adding the kinetic energy [p^2 / (2 rho)] cancel. *)
Theorem gas_energy_roundtrip (rho p1 p2 p3 E : R) :
  ComputeEintFromEgas rho p1 p2 p3 (ComputeEgasFromEint rho p1 p2 p3 E) = E /\
  ComputeEgasFromEint rho p1 p2 p3 (ComputeEintFromEgas rho p1 p2 p3 E) = E.
Proof.
  unfold ComputeEintFromEgas, ComputeEgasFromEint. cbv zeta. real_ops. split; ring.
Qed.

(** ** The floor on the thermal radiation energy *)




(** ** The stage-1 update *)

(** The candidate of [PredictStep] for variable [n]. *)
Lemma PredictStep_candidate_entry (P : RadSystem_Traits R) (d : SpaceDim)
    (consVarOld : nat -> R) (fluxArray : @CellFluxes R) (dt : R) (dx : nat -> R) (n : nat) :
  (n < 4 * nGroups P)%nat ->
  PredictStep_candidate P d consVarOld fluxArray dt dx n
  = consVarOld (radFirstIndex P + n)%nat + dt * fluxDifference_spec d dx fluxArray n.
Proof.
  intros Hn. unfold PredictStep_candidate, nvarHyperbolic_, numRadVars_. cbv zeta.
  rewrite (fill_loop_entry (4 * nGroups P) n (fun n => _) zeros Hn).
  rewrite AMREX_D_TERM_sum. reflexivity.
Qed.



(** ** Conservation *)

Lemma vsum_telescope (N : nat) (a : nat -> R) :
  vsum N (fun i => a i - a (S i)) = a 0%nat - a N.
Proof.
  induction N as [| N IH]; [cbn; lra|]. rewrite vsum_S, IH. lra.
Qed.

(** X7. In exact arithmetic the stage-1 update is in conservation
    form.  In a row of [N]
    cells in one dimension, where cell [i] reads the faces [i] and [i + 1]
    of the flux array, the candidates of every hyperbolic variable add up
    to the old total plus [dt / dx] times the flux that enters through
    face [0] minus the flux that leaves through face [N]; the interior
    faces cancel.  With periodic fluxes the total is unchanged. *)
Theorem PredictStep_row_conservation (P : RadSystem_Traits R)
    (consVarOld : nat -> nat -> R) (x1Flux : nat -> nat -> R)
    (dt : R) (dx : nat -> R) (N n : nat) :
  (n < 4 * nGroups P)%nat ->
  let total_old := vsum N (fun i => consVarOld i (radFirstIndex P + n)%nat) in
  let total_new :=
    vsum N (fun i => PredictStep_candidate P Dim1 (consVarOld i) (rowFluxes x1Flux i) dt dx n) in
  total_new = total_old + dt / dx 0%nat * (x1Flux 0%nat n - x1Flux N n) /\
  (x1Flux N n = x1Flux 0%nat n -> total_new = total_old).
Proof.
  intros Hn total_old total_new.
  assert (Hsum : total_new = total_old + dt / dx 0%nat * (x1Flux 0%nat n - x1Flux N n)).
  { unfold total_new, total_old.
    rewrite <- (vsum_telescope N (fun i => x1Flux i n)), <- vsum_scal, <- vsum_plus.
    apply vsum_ext. intros i _.
    rewrite PredictStep_candidate_entry by exact Hn.
    unfold fluxDifference_spec, vsum. cbn [dims for_loop rowFluxes flux_lo flux_hi].
    real_ops. unfold Rdiv. ring. }
  split; [exact Hsum|].
  intros Hper. rewrite Hsum, Hper. ring.
Qed.

Lemma PredictStep_row_conservation_witness :
  vsum 2 (fun i => PredictStep_candidate unit_traits Dim1 (fun _ => 1)
                     (rowFluxes (fun _ _ => 1) i) 1 (fun _ => 1) 0%nat)
  = vsum 2 (fun _ => 1).
Proof.
  assert (Hn : (0 < 4 * nGroups unit_traits)%nat) by (cbn; lia).
  exact (proj2 (PredictStep_row_conservation unit_traits (fun _ _ => 1) (fun _ _ => 1) 1
                  (fun _ => 1) 2 0%nat Hn) eq_refl).
Defined.

(** ** The two stages together *)

(** X8. In exact arithmetic: when the stage-1 candidate is valid, so
    that [PredictStep] stores it unamended, the stage-2 candidate that
    [AddFluxesRK2] computes from the old state and the stage-1 state is
    the Heun update [U0 + dt / 2 (div(flux0) + div(flux1))], whatever the
    weight [IMEX_a32] is. *)
Theorem AddFluxesRK2_after_PredictStep
    (P : RadSystem_Traits R) (Hy : HyperParams R) (d : SpaceDim)
    (U0 consVarNew : nat -> R) (fluxArrayOld fluxArray : @CellFluxes R)
    (dt : R) (dx : nat -> R) (n : nat) :
  (n < 4 * nGroups P)%nat ->
  isStateValid P (PredictStep_candidate P d U0 fluxArrayOld dt dx) = true ->
  let U1 := PredictStep P d U0 consVarNew fluxArrayOld dt dx in
  AddFluxesRK2_candidate P Hy d U0 U1 fluxArrayOld fluxArray dt dx n
  = U0 (radFirstIndex P + n)%nat
    + dt / 2 * (fluxDifference_spec d dx fluxArrayOld n + fluxDifference_spec d dx fluxArray n).
Proof.
  intros Hn Hvalid U1.
  assert (HU1 : U1 (radFirstIndex P + n)%nat
                = U0 (radFirstIndex P + n)%nat + dt * fluxDifference_spec d dx fluxArrayOld n).
  { unfold U1, PredictStep. cbv zeta.
    rewrite storeHyperbolic_entry by exact Hn.
    unfold enforceValidity. rewrite Hvalid. cbn [negb].
    apply PredictStep_candidate_entry. exact Hn. }
  unfold AddFluxesRK2_candidate, nvarHyperbolic_, numRadVars_. cbv zeta.
  rewrite (fill_loop_entry (4 * nGroups P) n (fun n => _) zeros Hn).
  rewrite !AMREX_D_TERM_sum. unfold nstartHyperbolic_. rewrite HU1. real_ops. field.
Qed.

(** Without fluxes the candidate of the isotropic cell is the cell itself,
    which is valid. *)
Lemma isotropic_candidate_valid :
  isStateValid unit_traits
    (PredictStep_candidate unit_traits Dim1 isotropic_cell no_flux 1 (fun _ => 1)) = true.
Proof.
  apply isStateValid_true_iff. intros g Hg.
  assert (g = 0%nat) as -> by (cbn in Hg; lia).
  assert (Hentry : forall n, (n < 4)%nat ->
            PredictStep_candidate unit_traits Dim1 isotropic_cell no_flux 1 (fun _ => 1) n
            = isotropic_cell (6 + n)%nat).
  { intros n Hn. rewrite PredictStep_candidate_entry by (cbn; lia).
    unfold fluxDifference_spec, vsum. cbn. lra. }
  unfold groupValid. cbn [Nat.mul Nat.add].
  rewrite !Hentry by lia. cbn [isotropic_cell Nat.add c_light unit_traits]. real_ops.
  replace (0 * 0 + 0 * 0 + 0 * 0) with 0 by ring. rewrite sqrt_0.
  apply andb_true_iff. split; [apply Rltb_true | apply Rleb_true]; lra.
Qed.

Lemma AddFluxesRK2_after_PredictStep_witness :
  AddFluxesRK2_candidate unit_traits source_hyper Dim1 isotropic_cell
    (PredictStep unit_traits Dim1 isotropic_cell zeros no_flux 1 (fun _ => 1))
    no_flux unit_inflow 1 (fun _ => 1) 0%nat
  = isotropic_cell 6%nat
    + 1 / 2 * (fluxDifference_spec Dim1 (fun _ => 1) no_flux 0
               + fluxDifference_spec Dim1 (fun _ => 1) unit_inflow 0).
Proof.
  assert (Hn : (0 < 4 * nGroups unit_traits)%nat) by (cbn; lia).
  exact (AddFluxesRK2_after_PredictStep unit_traits source_hyper Dim1 isotropic_cell zeros
           no_flux unit_inflow 1 (fun _ => 1) 0%nat Hn isotropic_candidate_valid).
Defined.

(** ** Validity after the updates *)

(** [isStateValid] reads the entries below [4 * nGroups] only. *)
Lemma isStateValid_ext {T : Type} `{Scalar T} (P : RadSystem_Traits T) (a b : nat -> T) :
  (forall n, (n < 4 * nGroups P)%nat -> a n = b n) ->
  isStateValid P a = isStateValid P b.
Proof.
  intros Hab.
  assert (Hgroup : forall g, (g < nGroups P)%nat -> groupValid P a g = groupValid P b g).
  { intros g Hg. unfold groupValid. now rewrite !Hab by lia. }
  destruct (isStateValid P b) eqn:Eb.
  - apply isStateValid_true_iff. intros g Hg. rewrite Hgroup by exact Hg.
    revert g Hg. now apply isStateValid_true_iff.
  - apply not_true_iff_false. intros Ea. apply not_true_iff_false in Eb. apply Eb.
    apply isStateValid_true_iff. intros g Hg. rewrite <- Hgroup by exact Hg.
    revert g Hg. now apply isStateValid_true_iff.
Qed.

Lemma enforceValidity_valid (P : RadSystem_Traits R) (cons : nat -> R) :
  0 < Erad_floor_ P -> 0 < c_light P ->
  isStateValid P (enforceValidity P cons) = true.
Proof.
  intros Hfloor Hc. unfold enforceValidity.
  destruct (isStateValid P cons) eqn:E; cbn [negb].
  - exact E.
  - apply amendRadState_valid_positive_floor; assumption.
Qed.

(** X9. In exact arithmetic, with a positive floor [Erad_floor / nGroups]
    and a positive speed of light, the hyperbolic variables that
    [PredictStep] and [AddFluxesRK2] store always form a state that
    [isStateValid] accepts, whatever the old states, the fluxes, the time
    step and the cell sizes are: the assertion that follows the
    enforcement in both kernels cannot fail. *)
Theorem hyperbolic_updates_store_valid_states
    (P : RadSystem_Traits R) (Hy : HyperParams R) (d : SpaceDim)
    (U_new U0 U1 : nat -> R) (fluxArrayOld fluxArray : @CellFluxes R)
    (dt : R) (dx : nat -> R) :
  0 < Erad_floor_ P -> 0 < c_light P ->
  isStateValid P (fun n => PredictStep P d U0 U_new fluxArrayOld dt dx (radFirstIndex P + n)%nat)
  = true /\
  isStateValid P
    (fun n => AddFluxesRK2 P Hy d U_new U0 U1 fluxArrayOld fluxArray dt dx (radFirstIndex P + n)%nat)
  = true.
Proof.
  intros Hfloor Hc. split.
  - unfold PredictStep. cbv zeta.
    rewrite (isStateValid_ext P _
               (enforceValidity P (PredictStep_candidate P d U0 fluxArrayOld dt dx))).
    + apply enforceValidity_valid; assumption.
    + intros n Hn. apply storeHyperbolic_entry. exact Hn.
  - unfold AddFluxesRK2. cbv zeta.
    rewrite (isStateValid_ext P _
               (enforceValidity P
                  (AddFluxesRK2_candidate P Hy d U0 U1 fluxArrayOld fluxArray dt dx))).
    + apply enforceValidity_valid; assumption.
    + intros n Hn. apply storeHyperbolic_entry. exact Hn.
Qed.

Lemma unit_floor_positive : 0 < Erad_floor_ unit_traits.
Proof. unfold Erad_floor_, nGroups_. cbn. lra. Qed.

Lemma hyperbolic_updates_store_valid_states_witness :
  isStateValid unit_traits
    (fun n => PredictStep unit_traits Dim1 (fun _ => -1) zeros unit_inflow 1 (fun _ => 1)
                (radFirstIndex unit_traits + n)%nat) = true.
Proof.
  assert (Hc : 0 < c_light unit_traits) by (cbn; lra).
  exact (proj1 (hyperbolic_updates_store_valid_states unit_traits source_hyper Dim1 zeros
                  (fun _ => -1) zeros unit_inflow unit_inflow 1 (fun _ => 1)
                  unit_floor_positive Hc)).
Defined.

(** ** Amending twice *)

(** Amending the entries of an amended group changes nothing. *)
Lemma amendedGroup_idempotent (P : RadSystem_Traits R) (E_r0 Fx Fy Fz : R) (v : nat) :
  let a := amendedGroup P E_r0 Fx Fy Fz in
  amendedGroup P (a 0%nat) (a 1%nat) (a 2%nat) (a 3%nat) v = a v.
Proof.
  intros a. subst a. unfold amendedGroup. real_ops.
  set (fl := Erad_floor_ P). set (c := c_light P).
  set (E := if Rltb E_r0 fl then fl else E_r0).
  assert (HE : Rltb E fl = false).
  { apply Rltb_false. unfold E. case_Rltb E_r0 fl; lra. }
  set (F2 := Fx * Fx + Fy * Fy + Fz * Fz).
  case_Rltb (c * c * E * E) F2; cbn [vec4]; rewrite HE.
  - assert (HF2 : 0 < F2) by nra.
    assert (Hn : 0 < sqrt F2) by (apply sqrt_lt_R0; exact HF2).
    assert (Hnn : sqrt F2 * sqrt F2 = F2) by (apply sqrt_sqrt; lra).
    set (s := sqrt F2) in *.
    assert (Hnew : Fx / s * c * E * (Fx / s * c * E) + Fy / s * c * E * (Fy / s * c * E)
                   + Fz / s * c * E * (Fz / s * c * E) = c * c * E * E).
    { replace (Fx / s * c * E * (Fx / s * c * E) + Fy / s * c * E * (Fy / s * c * E)
               + Fz / s * c * E * (Fz / s * c * E))
        with (c * c * E * E * ((Fx * Fx + Fy * Fy + Fz * Fz) / (s * s))) by (field; lra).
      fold F2. rewrite Hnn. unfold Rdiv. rewrite Rinv_r by lra. ring. }
    rewrite Hnew.
    case_Rltb (c * c * E * E) (c * c * E * E); [lra | reflexivity].
  - fold F2. case_Rltb (c * c * E * E) F2; [lra | reflexivity].
Qed.

(** X10. In exact arithmetic [amendRadState] is idempotent: a state that
    has been amended is left as it is by a second amendment, entry by
    entry, for every floor and every speed of light. *)
Theorem amendRadState_idempotent (P : RadSystem_Traits R) (cons : nat -> R) (j : nat) :
  amendRadState P (amendRadState P cons) j = amendRadState P cons j.
Proof.
  destruct (le_lt_dec (4 * nGroups P) j) as [Hout | Hin].
  - unfold amendRadState, nGroups_. now rewrite !amendRadState_prefix by exact Hout.
  - assert (Hj : j = (j mod 4 + 4 * (j / 4))%nat).
    { pose proof (Nat.div_mod_eq j 4). lia. }
    assert (Hg : (j / 4 < nGroups P)%nat) by (apply Nat.Div0.div_lt_upper_bound; lia).
    assert (Hv : (j mod 4 < 4)%nat) by (apply Nat.mod_upper_bound; lia).
    set (g := (j / 4)%nat) in *. set (v := (j mod 4)%nat) in *. rewrite Hj.
    rewrite (amendRadState_entries P (amendRadState P cons) g v Hg Hv).
    pose proof (amendRadState_entries P cons g 0 Hg ltac:(lia)) as E0.
    pose proof (amendRadState_entries P cons g 1 Hg ltac:(lia)) as E1.
    pose proof (amendRadState_entries P cons g 2 Hg ltac:(lia)) as E2.
    pose proof (amendRadState_entries P cons g 3 Hg ltac:(lia)) as E3.
    cbn [Nat.add] in E0. rewrite E0, E1, E2, E3.
    rewrite (amendRadState_entries P cons g v Hg Hv).
    apply amendedGroup_idempotent.
Qed.

(** ** Leaving the Newton-Raphson loop *)

Section NewtonRaphsonExit.

Context {T : Type} `{Scalar T}.
Variables (P : RadSystem_Traits T) (Hy : HyperParams T) (NAN infinity : T).
Variable std_pow : T -> T -> T.
Variable ComputeTgasFromEint : T -> T -> (nat -> T) -> T.
Variable ComputeEintTempDerivative : T -> T -> (nat -> T) -> T.
Variable ComputePlanckOpacity : T -> T -> nat -> T.
Variable ComputeEnergyMeanOpacity : T -> T -> nat -> T.
Variable ComputeFluxMeanOpacity : T -> T -> nat -> T.
Variable integrate_planck_from_0_to_x : T -> T.

Let residuals := NR_residuals P Hy std_pow ComputeTgasFromEint ComputePlanckOpacity
                   ComputeEnergyMeanOpacity integrate_planck_from_0_to_x.
Let loop := NewtonRaphson P Hy infinity std_pow ComputeTgasFromEint ComputeEintTempDerivative
              ComputePlanckOpacity ComputeEnergyMeanOpacity integrate_planck_from_0_to_x.

(** When the loop leaves through [break], the state it leaves is the one
    that the first half of a pass computed, and it passed the test. *)
Lemma NewtonRaphson_exit (fuel : nat) (ex : ExchangeSetup) (st : NRState) :
  snd (loop fuel ex st) = true ->
  exists st' : NRState,
    fst (loop fuel ex st) = residuals ex st' /\
    NR_converged P ex (residuals ex st') = true.
Proof.
  revert st. induction fuel as [| fuel IH]; intros st; [discriminate|].
  unfold loop in *. cbn [NewtonRaphson]. fold (residuals ex st).
  destruct (NR_converged P ex (residuals ex st)) eqn:E.
  - intros _. exists st. split; [reflexivity | exact E].
  - apply IH.
Qed.

End NewtonRaphsonExit.

(** X11. Over any arithmetic: when the energy exchange of a cell reports
    convergence, that is, when the assertion [n < maxIter] after the
    Newton-Raphson loop holds, the state it returns passed the convergence
    test of the loop: [|F_G / Etot0| < 1e-11] and
    [(c / chat) F_D_abs_sum / Etot0 < 1e-11]. *)
Theorem energyExchange_converged {T : Type} `{Scalar T}
    (P : RadSystem_Traits T) (Hy : HyperParams T) (NAN infinity : T)
    (std_pow : T -> T -> T)
    (ComputeTgasFromEint ComputeEintTempDerivative : T -> T -> (nat -> T) -> T)
    (ComputePlanckOpacity ComputeEnergyMeanOpacity ComputeFluxMeanOpacity : T -> T -> nat -> T)
    (integrate_planck_from_0_to_x : T -> T)
    (consPrev radEnergySource boundaries : nat -> T) (dt_radiation : T) (stage : Z) :
  let res := energyExchange P Hy NAN infinity std_pow ComputeTgasFromEint
               ComputeEintTempDerivative ComputePlanckOpacity ComputeEnergyMeanOpacity
               ComputeFluxMeanOpacity integrate_planck_from_0_to_x
               consPrev radEnergySource boundaries dt_radiation stage in
  let ex := fst (exchangeSetup P Hy NAN std_pow ComputeTgasFromEint ComputePlanckOpacity
                   ComputeEnergyMeanOpacity ComputeFluxMeanOpacity integrate_planck_from_0_to_x
                   consPrev radEnergySource boundaries dt_radiation stage) in
  snd res = true ->
  s_ltb (s_abs (s_div (F_G (fst res)) (ex_Etot0 ex))) (resid_tol) = true /\
  s_ltb (s_div (s_mul (s_div (c_light P) (c_hat P)) (F_D_abs_sum (fst res))) (ex_Etot0 ex))
        (resid_tol) = true.
Proof.
  intros res ex. subst res ex. unfold energyExchange.
  destruct (exchangeSetup _ _ _ _ _ _ _ _ _ _ _ _ _ _) as [ex st]. cbn [fst].
  intros Hflag.
  destruct (NewtonRaphson_exit P Hy infinity std_pow ComputeTgasFromEint
              ComputeEintTempDerivative ComputePlanckOpacity ComputeEnergyMeanOpacity
              integrate_planck_from_0_to_x maxIter ex st Hflag) as (st' & Hres & Hconv).
  rewrite Hres. unfold NR_converged in Hconv. apply andb_true_iff in Hconv. exact Hconv.
Qed.

Lemma energyExchange_converged_witness :
  let res := energyExchange unit_traits_binary64 source_hyper PrimFloat.nan PrimFloat.infinity
               fourth_power_binary64 ideal_gas_temperature_binary64
               ideal_gas_heat_capacity_binary64 thick_opacity_binary64 thick_opacity_binary64
               thick_opacity_binary64 (fun x => x)
               cell_at_rest_binary64 (fun _ => float_ofZ 0)
               (fun g => float_ofZ (Z.of_nat g)) (float_ofZ 1) 1%Z in
  let ex := fst (exchangeSetup unit_traits_binary64 source_hyper PrimFloat.nan
                   fourth_power_binary64 ideal_gas_temperature_binary64
                   thick_opacity_binary64 thick_opacity_binary64 thick_opacity_binary64
                   (fun x => x) cell_at_rest_binary64 (fun _ => float_ofZ 0)
                   (fun g => float_ofZ (Z.of_nat g)) (float_ofZ 1) 1%Z) in
  PrimFloat.ltb (PrimFloat.abs (PrimFloat.div (F_G (fst res)) (ex_Etot0 ex))) resid_tol = true.
Proof.
  intros res ex.
  assert (Hflag : snd res = true) by (vm_compute; reflexivity).
  exact (proj1 (energyExchange_converged unit_traits_binary64 source_hyper PrimFloat.nan
                  PrimFloat.infinity fourth_power_binary64 ideal_gas_temperature_binary64
                  ideal_gas_heat_capacity_binary64 thick_opacity_binary64
                  thick_opacity_binary64 thick_opacity_binary64 (fun x => x)
                  cell_at_rest_binary64 (fun _ => float_ofZ 0)
                  (fun g => float_ofZ (Z.of_nat g)) (float_ofZ 1) 1%Z Hflag)).
Defined.
(** ** Energy conservation of the exchange *)

Lemma vsum_abs (n : nat) (a : nat -> R) : Rabs (vsum n a) <= vsum n (fun g => Rabs (a g)).
Proof.
  induction n as [| n IH].
  - cbn. rewrite Rabs_R0. lra.
  - rewrite !vsum_S. pose proof (Rabs_triang (vsum n a) (a n)). lra.
Qed.

(** With every group optically thick enough to be counted, the loop of
    the residuals adds up all of them. *)
Lemma accumulateResiduals_all (P : RadSystem_Traits R) (tau F_D Rvec : nat -> R) (F_G : R) :
  (forall g, (g < nGroups P)%nat -> 0 < tau g) ->
  accumulateResiduals P tau F_D Rvec F_G
  = (vsum (nGroups P) (fun g => Rabs (F_D g)),
     F_G + c_light P / c_hat P * vsum (nGroups P) Rvec).
Proof.
  unfold accumulateResiduals, nGroups_, c_light_, c_hat_.
  induction (nGroups P) as [| n IH]; intros Htau.
  - cbn. f_equal. lra.
  - cbn [for_loop]. rewrite IH by (intros g Hg; apply Htau; lia).
    real_ops. case_Rltb 0 (tau n); [| specialize (Htau n ltac:(lia)); lra].
    cbn [fst snd]. rewrite !vsum_S. f_equal. lra.
Qed.

Lemma vsum_balance (n : nat) (Eg E0 Rv Src : nat -> R) :
  vsum n (vsub (vsub Eg E0) (vadd Rv Src)) = vsum n Eg - vsum n E0 - vsum n Rv - vsum n Src.
Proof.
  unfold vsub, vadd. real_ops.
  induction n as [| n IH]; [cbn; lra|]. rewrite !vsum_S, IH. lra.
Qed.

Section ExchangeEnergy.

Variables (P : RadSystem_Traits R) (Hy : HyperParams R) (NAN infinity : R).
Variable std_pow : R -> R -> R.
Variable ComputeTgasFromEint : R -> R -> (nat -> R) -> R.
Variable ComputeEintTempDerivative : R -> R -> (nat -> R) -> R.
Variable ComputePlanckOpacity : R -> R -> nat -> R.
Variable ComputeEnergyMeanOpacity : R -> R -> nat -> R.
Variable ComputeFluxMeanOpacity : R -> R -> nat -> R.
Variable integrate_planck_from_0_to_x : R -> R.

Let residuals := NR_residuals P Hy std_pow ComputeTgasFromEint ComputePlanckOpacity
                   ComputeEnergyMeanOpacity integrate_planck_from_0_to_x.

(** The energy balance of a pass: the guessed energies differ from the
    energies before the exchange, sources included, by the residuals. *)
Lemma residuals_energy_balance (ex : ExchangeSetup) (st : NRState) :
  (forall g, (g < nGroups P)%nat -> 0 < tau (residuals ex st) g) ->
  let st' := residuals ex st in
  Egas_guess st' + c_light P / c_hat P * vsum (nGroups P) (EradVec_guess st')
  = ex_Egas0 ex
    + c_light P / c_hat P * (vsum (nGroups P) (ex_Erad0Vec ex) + vsum (nGroups P) (ex_Src ex))
    + F_G st' + c_light P / c_hat P * vsum (nGroups P) (F_D st') /\
  F_D_abs_sum st' = vsum (nGroups P) (fun g => Rabs (F_D st' g)).
Proof.
  intros Htau st'. subst st'. revert Htau. unfold residuals, NR_residuals. cbv zeta.
  cbn [tau Egas_guess EradVec_guess F_G F_D F_D_abs_sum]. intros Htau.
  rewrite accumulateResiduals_all by exact Htau. cbn [fst snd].
  split; [| reflexivity].
  rewrite vsum_balance. real_ops. ring.
Qed.

Variables (consPrev radEnergySource boundaries : nat -> R) (dt_radiation : R) (stage : Z).

Let setup := exchangeSetup P Hy NAN std_pow ComputeTgasFromEint ComputePlanckOpacity
               ComputeEnergyMeanOpacity ComputeFluxMeanOpacity integrate_planck_from_0_to_x
               consPrev radEnergySource boundaries dt_radiation stage.

(** The energies before the exchange as the set up loads them from the
    cell. *)
Lemma setup_energies :
  let dt := if (stage =? 2)%Z then (1 - IMEX_a32 Hy) * dt_radiation else dt_radiation in
  let Egas0 := ComputeEintFromEgas (consPrev (hydroFirstIndex P))
                 (consPrev (hydroFirstIndex P + 1)%nat) (consPrev (hydroFirstIndex P + 2)%nat)
                 (consPrev (hydroFirstIndex P + 3)%nat) (consPrev (hydroFirstIndex P + 4)%nat) in
  ex_Egas0 (fst setup) = Egas0 /\
  ex_Erad0Vec (fst setup) = (fun g => consPrev (radFirstIndex P + 4 * g)%nat) /\
  ex_Src (fst setup) = (fun g => dt * (c_hat P * radEnergySource g)) /\
  ex_Etot0 (fst setup)
  = Egas0 + c_light P / c_hat P *
      (vsum (nGroups P) (fun g => consPrev (radFirstIndex P + 4 * g)%nat)
       + vsum (nGroups P) (fun g => dt * (c_hat P * radEnergySource g))).
Proof.
  unfold setup, exchangeSetup. cbv zeta.
  destruct (lorentzFactors P NAN _) as [[l lv] lvv]. cbn [fst ex_Egas0 ex_Erad0Vec ex_Src ex_Etot0].
  repeat split.
Qed.

(** X12. In exact arithmetic the energy exchange conserves the total
    energy up to the tolerance of its convergence test.  When the
    Newton-Raphson loop of a cell converges with a positive optical depth in
    every group, the new gas internal energy plus [c / chat] times the new
    radiation energy of all groups differs from the energy [Etot0] before
    the exchange (gas internal energy plus [c / chat] times the radiation
    energy and the source term of all groups) by less than
    [2e-11 * Etot0]. *)
Theorem energyExchange_conserves_energy :
  let res := energyExchange P Hy NAN infinity std_pow ComputeTgasFromEint
               ComputeEintTempDerivative ComputePlanckOpacity ComputeEnergyMeanOpacity
               ComputeFluxMeanOpacity integrate_planck_from_0_to_x
               consPrev radEnergySource boundaries dt_radiation stage in
  let dt := if (stage =? 2)%Z then (1 - IMEX_a32 Hy) * dt_radiation else dt_radiation in
  let Egas0 := ComputeEintFromEgas (consPrev (hydroFirstIndex P))
                 (consPrev (hydroFirstIndex P + 1)%nat) (consPrev (hydroFirstIndex P + 2)%nat)
                 (consPrev (hydroFirstIndex P + 3)%nat) (consPrev (hydroFirstIndex P + 4)%nat) in
  let Etot0 :=
    Egas0 + c_light P / c_hat P *
      (vsum (nGroups P) (fun g => consPrev (radFirstIndex P + 4 * g)%nat)
       + vsum (nGroups P) (fun g => dt * (c_hat P * radEnergySource g))) in
  snd res = true ->
  (forall g, (g < nGroups P)%nat -> 0 < tau (fst res) g) ->
  0 < c_light P / c_hat P ->
  0 < Etot0 ->
  Rabs (Egas_guess (fst res)
        + c_light P / c_hat P * vsum (nGroups P) (EradVec_guess (fst res)) - Etot0)
  < 2 / 10 ^ 11 * Etot0.
Proof.
  intros res dt Egas0 Etot0 Hflag Htau Hratio Hpos.
  destruct setup_energies as (HEgas0 & HErad0 & HSrc & HEtot0).
  fold dt Egas0 in HEgas0, HErad0, HSrc, HEtot0. fold Etot0 in HEtot0.
  revert Hflag Htau. unfold res, energyExchange. fold setup.
  destruct setup as [ex st]. cbn [fst] in *. intros Hflag Htau.
  destruct (NewtonRaphson_exit P Hy infinity std_pow ComputeTgasFromEint
              ComputeEintTempDerivative ComputePlanckOpacity ComputeEnergyMeanOpacity
              integrate_planck_from_0_to_x maxIter ex st Hflag) as (st' & Hres & Hconv).
  rewrite Hres in *. fold (residuals ex st') in *.
  destruct (residuals_energy_balance ex st' Htau) as [Hbal Habs]. cbv zeta in Hbal, Habs.
  rewrite Hbal, HEgas0, HErad0, HSrc.
  unfold NR_converged in Hconv. apply andb_true_iff in Hconv. destruct Hconv as [HG HD].
  unfold resid_tol, c_light_, c_hat_ in HG, HD. real_ops.
  apply Rltb_true in HG. apply Rltb_true in HD. rewrite HEtot0 in HG, HD.
  rewrite Habs in HD.
  set (FG := F_G (residuals ex st')) in *.
  set (FD := F_D (residuals ex st')) in *.
  set (r := c_light P / c_hat P) in *.
  assert (HG' : Rabs FG < 1 / 100000000000 * Etot0).
  { unfold Rdiv in HG. rewrite Rabs_mult, (Rabs_pos_eq (/ Etot0)) in HG
      by (apply Rlt_le, Rinv_0_lt_compat; exact Hpos).
    apply (Rmult_lt_compat_r Etot0) in HG; [| exact Hpos].
    rewrite Rmult_assoc, Rinv_l, Rmult_1_r in HG by lra. lra. }
  assert (HD' : r * vsum (nGroups P) (fun g => Rabs (FD g)) < 1 / 100000000000 * Etot0).
  { unfold Rdiv in HD at 1.
    apply (Rmult_lt_compat_r Etot0) in HD; [| exact Hpos].
    rewrite Rmult_assoc, Rinv_l, Rmult_1_r in HD by lra. lra. }
  pose proof (vsum_abs (nGroups P) FD) as Htri.
  assert (Hr : Rabs (r * vsum (nGroups P) FD) <= r * vsum (nGroups P) (fun g => Rabs (FD g))).
  { rewrite Rabs_mult, (Rabs_pos_eq r) by lra. apply Rmult_le_compat_l; lra. }
  replace (Egas0 + r * (vsum (nGroups P) (fun g => consPrev (radFirstIndex P + 4 * g)%nat) +
             vsum (nGroups P) (fun g => dt * (c_hat P * radEnergySource g)))
           + FG + r * vsum (nGroups P) FD - Etot0)
    with (FG + r * vsum (nGroups P) FD) by (unfold Etot0; ring).
  pose proof (Rabs_triang FG (r * vsum (nGroups P) FD)) as Htri2.
  replace (2 / 10 ^ 11) with (1 / 100000000000 + 1 / 100000000000) by (simpl; field).
  lra.
Qed.

End ExchangeEnergy.
(** Evaluates the structure of a term and leaves its real arithmetic. *)
Ltac real_eval :=
  cbv -[Rplus Rminus Rmult Rdiv Rinv Ropp sqrt Rabs Rltb Rleb Reqb IZR].

(** Settles the comparisons of real constants that guard conditionals. *)
Ltac decide_real_tests :=
  repeat (match goal with
    | |- context [Rltb ?a ?b] =>
        first [ rewrite (proj2 (Rltb_true a b)) by lra
              | rewrite (proj2 (Rltb_false a b)) by lra ]
    | |- context [Rleb ?a ?b] =>
        first [ rewrite (proj2 (Rleb_true a b)) by lra
              | rewrite (proj2 (Rleb_false a b)) by lra ]
    end; real_eval).

(** Settles the absolute values of real constants that are zero. *)
Ltac zero_abs :=
  repeat match goal with
    | |- context [Rabs ?x] =>
        let E := fresh "E" in
        assert (E : x = 0) by first [lra | field; lra | field];
        rewrite E, Rabs_R0; clear E
    end.

(** A pass that meets the convergence test ends the loop. *)
Lemma NewtonRaphson_first_pass {T : Type} `{Scalar T}
    (P : RadSystem_Traits T) (Hy : HyperParams T) (infinity : T) (std_pow : T -> T -> T)
    (ComputeTgasFromEint ComputeEintTempDerivative : T -> T -> (nat -> T) -> T)
    (ComputePlanckOpacity ComputeEnergyMeanOpacity : T -> T -> nat -> T)
    (integrate_planck_from_0_to_x : T -> T)
    (fuel : nat) (ex : ExchangeSetup) (st : NRState) :
  let st' := NR_residuals P Hy std_pow ComputeTgasFromEint ComputePlanckOpacity
               ComputeEnergyMeanOpacity integrate_planck_from_0_to_x ex st in
  NR_converged P ex st' = true ->
  NewtonRaphson P Hy infinity std_pow ComputeTgasFromEint ComputeEintTempDerivative
    ComputePlanckOpacity ComputeEnergyMeanOpacity integrate_planck_from_0_to_x (S fuel) ex st
  = (st', true).
Proof.
  intros st' Hconv. cbn [NewtonRaphson]. fold st'. now rewrite Hconv.
Qed.

(** In the equilibrium cell the first pass of the loop converges. *)
Lemma equilibrium_exchange :
  let setup := exchangeSetup unit_traits source_hyper 0 unit_power unit_temperature
                 unit_opacity unit_opacity unit_opacity (fun x => x)
                 equilibrium_cell (fun _ => 0) (fun g => INR g) 1 1%Z in
  energyExchange unit_traits source_hyper 0 0 unit_power unit_temperature
    unit_heat_capacity unit_opacity unit_opacity unit_opacity (fun x => x)
    equilibrium_cell (fun _ => 0) (fun g => INR g) 1 1%Z
  = (NR_residuals unit_traits source_hyper unit_power unit_temperature unit_opacity
       unit_opacity (fun x => x) (fst setup) (snd setup), true).
Proof.
  intros setup.
  assert (Hconv : NR_converged unit_traits (fst setup)
            (NR_residuals unit_traits source_hyper unit_power unit_temperature unit_opacity
               unit_opacity (fun x => x) (fst setup) (snd setup)) = true).
  { real_eval. decide_real_tests. zero_abs. decide_real_tests. reflexivity. }
  unfold energyExchange. fold setup. destruct setup as [ex st]. cbn [fst snd] in *.
  change maxIter with (S 399).
  now rewrite NewtonRaphson_first_pass by exact Hconv.
Qed.

Lemma energyExchange_conserves_energy_witness :
  let res := energyExchange unit_traits source_hyper 0 0 unit_power unit_temperature
               unit_heat_capacity unit_opacity unit_opacity unit_opacity (fun x => x)
               equilibrium_cell (fun _ => 0) (fun g => INR g) 1 1%Z in
  let Egas0 := ComputeEintFromEgas (equilibrium_cell 0%nat) (equilibrium_cell 1%nat)
                 (equilibrium_cell 2%nat) (equilibrium_cell 3%nat) (equilibrium_cell 4%nat) in
  let Etot0 :=
    Egas0 + c_light unit_traits / c_hat unit_traits *
      (vsum 1 (fun g => equilibrium_cell (6 + 4 * g)%nat)
       + vsum 1 (fun g => 1 * (c_hat unit_traits * 0))) in
  Rabs (Egas_guess (fst res)
        + c_light unit_traits / c_hat unit_traits * vsum 1 (EradVec_guess (fst res)) - Etot0)
  < 2 / 10 ^ 11 * Etot0.
Proof.
  intros res Egas0 Etot0.
  assert (Hflag : snd res = true) by (unfold res; now rewrite equilibrium_exchange).
  assert (Htau : forall g, (g < nGroups unit_traits)%nat -> 0 < tau (fst res) g).
  { intros g Hg. assert (g = 0%nat) as -> by (cbn in Hg; lia).
    unfold res. rewrite equilibrium_exchange. real_eval. lra. }
  assert (Hratio : 0 < c_light unit_traits / c_hat unit_traits) by (cbn; lra).
  assert (Hpos : 0 < Etot0) by (unfold Etot0, Egas0; real_eval; lra).
  exact (energyExchange_conserves_energy unit_traits source_hyper 0 0 unit_power
           unit_temperature unit_heat_capacity unit_opacity unit_opacity unit_opacity
           (fun x => x) equilibrium_cell (fun _ => 0) (fun g => INR g) 1 1%Z
           Hflag Htau Hratio Hpos).
Defined.

(** ** The kernel of the source terms *)

Section SourceTermsKernel.

Context {T : Type} `{Scalar T}.
Variables (P : RadSystem_Traits T) (Hy : HyperParams T) (NAN infinity : T).
Variable std_pow : T -> T -> T.
Variable ComputeTgasFromEint : T -> T -> (nat -> T) -> T.
Variable ComputeEintTempDerivative : T -> T -> (nat -> T) -> T.
Variable ComputePlanckOpacity : T -> T -> nat -> T.
Variable ComputeEnergyMeanOpacity : T -> T -> nat -> T.
Variable ComputeFluxMeanOpacity : T -> T -> nat -> T.
Variable integrate_planck_from_0_to_x : T -> T.
Variables (consVar radEnergySource boundaries : nat -> T) (dt_radiation : T) (stage : Z).

Let pass := fun ite s =>
  fullStepPass P Hy NAN infinity std_pow ComputeTgasFromEint ComputeEintTempDerivative
    ComputePlanckOpacity ComputeEnergyMeanOpacity ComputeFluxMeanOpacity
    integrate_planck_from_0_to_x ite s consVar radEnergySource boundaries dt_radiation stage.
Let iteration := fun fuel ite s =>
  fullStepIteration P Hy NAN infinity std_pow ComputeTgasFromEint ComputeEintTempDerivative
    ComputePlanckOpacity ComputeEnergyMeanOpacity ComputeFluxMeanOpacity
    integrate_planck_from_0_to_x fuel ite s consVar radEnergySource boundaries
    dt_radiation stage.

(** The first pass sets up the exchange as [exchangeSetup] does. *)
Lemma exchangeSetupAt_first :
  exchangeSetupAt P Hy NAN std_pow ComputeTgasFromEint ComputePlanckOpacity
    ComputeEnergyMeanOpacity ComputeFluxMeanOpacity integrate_planck_from_0_to_x 0
    (sourceState0 NAN (fun g => consVar (radEnergy_index P + numRadVars_ * g)%nat))
    consVar radEnergySource boundaries dt_radiation stage
  = exchangeSetup P Hy NAN std_pow ComputeTgasFromEint ComputePlanckOpacity
      ComputeEnergyMeanOpacity ComputeFluxMeanOpacity integrate_planck_from_0_to_x
      consVar radEnergySource boundaries dt_radiation stage.
Proof.
  unfold exchangeSetupAt, exchangeSetup. cbv zeta.
  destruct (lorentzFactors P NAN _) as [[l lv] lvv].
  cbn [ss_work ss_EradVec_guess ss_kappaPoverE ss_tau sourceState0 Nat.eqb]. reflexivity.
Qed.

(** The state that the full-step iteration returns is the state after a
    pass that left through [break]. *)
Lemma fullStepIteration_last_pass (fuel ite : nat) (s s' : SourceState) :
  iteration fuel ite s = Some s' ->
  exists (ite' : nat) (s0 : SourceState), pass ite' s0 = Some (s', true).
Proof.
  revert ite s. induction fuel as [| fuel IH]; intros ite s; [discriminate|].
  unfold iteration in *. cbn [fullStepIteration]. fold (pass ite s).
  destruct (pass ite s) as [[s1 [|]] |] eqn:E.
  - intros [= <-]. now exists ite, s.
  - apply IH.
  - discriminate.
Qed.

(** The stores of the radiation variables write the entries of their
    group. *)
Lemma radStore_loop_other (b : bool) (m : nat) (E : nat -> T) (F : nat -> nat -> T)
    (a : nat -> T) (j : nat) :
  (j < radFirstIndex P \/ radFirstIndex P + 4 * m <= j)%nat ->
  for_loop m (fun g consNew =>
    let consNew :=
      if b then upd consNew (radEnergy_index P + numRadVars_ * g) (E g) else consNew in
    let consNew := upd consNew (x1RadFlux_index P + numRadVars_ * g) (F 0%nat g) in
    let consNew := upd consNew (x2RadFlux_index P + numRadVars_ * g) (F 1%nat g) in
    let consNew := upd consNew (x3RadFlux_index P + numRadVars_ * g) (F 2%nat g) in
    consNew) a j = a j.
Proof.
  induction m as [| m IH]; intros Hj; [reflexivity|].
  cbn [for_loop]. cbv zeta. destruct b; upd_simpl; apply IH; lia.
Qed.

(** The energy of a group is written only when [b] holds, that is, for
    [gamma_ != 1.0]; its three flux components are always written. *)
Lemma radStore_loop_own (b : bool) (m : nat) (E : nat -> T) (F : nat -> nat -> T)
    (a : nat -> T) (g v : nat) :
  (g < m)%nat -> (v < 4)%nat ->
  for_loop m (fun g consNew =>
    let consNew :=
      if b then upd consNew (radEnergy_index P + numRadVars_ * g) (E g) else consNew in
    let consNew := upd consNew (x1RadFlux_index P + numRadVars_ * g) (F 0%nat g) in
    let consNew := upd consNew (x2RadFlux_index P + numRadVars_ * g) (F 1%nat g) in
    let consNew := upd consNew (x3RadFlux_index P + numRadVars_ * g) (F 2%nat g) in
    consNew) a (radFirstIndex P + v + 4 * g)%nat
  = match v with
    | 0%nat => if b then E g else a (radFirstIndex P + 0 + 4 * g)%nat
    | S v' => F v' g
    end.
Proof.
  induction m as [| m IH]; intros Hg Hv; [lia|].
  cbn [for_loop]. cbv zeta.
  destruct (Nat.eq_dec g m) as [-> | Hne].
  - destruct b; destruct v as [| [| [| [| v]]]]; try lia; upd_simpl;
      try reflexivity.
    all: try (apply (radStore_loop_other false m E F); lia).
    all: unfold radEnergy_index, x1RadFlux_index, x2RadFlux_index, x3RadFlux_index,
           nstartHyperbolic_, numRadVars_;
      match goal with |- upd _ ?i _ ?j = _ => replace j with i by lia end;
      apply upd_eq.
  - destruct b; upd_simpl; (apply IH; [lia | exact Hv]).
Qed.

(** One pass of the group loop of the flux update writes the fluxes of its
    own group only, and adds to [dMomentum[n]] the change of the flux of
    that group, [-(Frad_t1[n][g] - Frad_t0[n]) / (c * chat)], whichever branch
    computes the new flux. *)
Lemma fluxUpdate_group_momentum (rho dt : T) (gasMtm0 : nat -> T) (l lv lvv : T)
    (fourPiBoverC kappaPVec kappaEVec kappaFVec EradVec_guess : nat -> T)
    (g : nat) (Frad_t1 : nat -> nat -> T) (dMomentum : nat -> T) :
  let acc' := fluxUpdate_group P std_pow rho dt gasMtm0 l lv lvv fourPiBoverC kappaPVec
                kappaEVec kappaFVec EradVec_guess consVar g (Frad_t1, dMomentum) in
  let Frad_t0 := vec3 (consVar (x1RadFlux_index P + numRadVars_ * g)%nat)
                      (consVar (x2RadFlux_index P + numRadVars_ * g)%nat)
                      (consVar (x3RadFlux_index P + numRadVars_ * g)%nat) in
  (forall n g', g' <> g -> fst acc' n g' = Frad_t1 n g') /\
  (forall n, (n < 3)%nat ->
     snd acc' n = s_add (dMomentum n)
                    (s_div (s_opp (s_sub (fst acc' n g) (Frad_t0 n)))
                           (s_mul (c_light P) (c_hat P)))).
Proof.
  cbv zeta. unfold fluxUpdate_group, c_light_, c_hat_. cbv zeta. cbn [fst snd].
  set (Frad_t0 := vec3 _ _ _).
  assert (Hrow : forall (a : nat -> nat -> T) n m g' v,
            g' <> g -> upd2 a m g v n g' = a n g').
  { intros a n m g' v Hne. unfold upd2, upd.
    destruct (Nat.eqb n m) eqn:E; [| reflexivity].
    apply Nat.eqb_eq in E. subst m. apply Nat.eqb_neq in Hne. now rewrite Hne. }
  assert (Hown : forall (a : nat -> nat -> T) n v, upd2 a n g v n g = v).
  { intros a n v. unfold upd2. now rewrite !upd_eq. }
  assert (Hoth : forall (a : nat -> nat -> T) n m v, n <> m -> upd2 a m g v n g = a n g).
  { intros a n m v Hne. unfold upd2. now rewrite upd_neq by exact Hne. }
  destruct (negb (beta_order_ P =? 0)%Z);
    [destruct (beta_order_ P =? 1)%Z;
       [| destruct (s_eqb (kappaFVec g) (kappaEVec g));
            [| destruct (Solve3x3matrix _ _ _ _ _ _ _ _ _ _ _ _) as [[sol0 sol1] sol2]]] |];
    unfold momentumUpdate; cbn [for_loop fst snd]; split.
  all: try (intros n g' Hne; now rewrite !Hrow by exact Hne).
  all: intros n Hn; destruct n as [| [| [| n]]]; try lia;
    repeat first [rewrite upd_eq | rewrite upd_neq by lia
                 | rewrite Hown | rewrite Hoth by lia]; reflexivity.
Qed.

Lemma sum_loop_ext (m : nat) (a b : nat -> T) (init : T) :
  (forall g, (g < m)%nat -> a g = b g) ->
  for_loop m (fun g acc => s_add acc (a g)) init
  = for_loop m (fun g acc => s_add acc (b g)) init.
Proof.
  induction m as [| m IH]; intros Hab; [reflexivity|].
  cbn [for_loop]. rewrite IH by (intros g Hg; apply Hab; lia).
  now rewrite Hab by lia.
Qed.

(** The momentum that the gas gains in a group, per unit of its flux
    change. *)
Let gain (Frad_t1 : nat -> nat -> T) (n g : nat) : T :=
  s_div (s_opp (s_sub (Frad_t1 n g)
                  (vec3 (consVar (x1RadFlux_index P + numRadVars_ * g)%nat)
                        (consVar (x2RadFlux_index P + numRadVars_ * g)%nat)
                        (consVar (x3RadFlux_index P + numRadVars_ * g)%nat) n)))
        (s_mul (c_light P) (c_hat P)).

(** After the group loop of the flux update, [dMomentum[n]] is the sum
    over the groups of the momentum gained from each. *)
Lemma fluxUpdate_loop_momentum (rho dt : T) (gasMtm0 : nat -> T) (l lv lvv : T)
    (fourPiBoverC kappaPVec kappaEVec kappaFVec EradVec_guess : nat -> T)
    (m : nat) (Frad_t1 : nat -> nat -> T) :
  let acc' := for_loop m
                (fluxUpdate_group P std_pow rho dt gasMtm0 l lv lvv fourPiBoverC kappaPVec
                   kappaEVec kappaFVec EradVec_guess consVar) (Frad_t1, zeros) in
  (forall n g, (m <= g)%nat -> fst acc' n g = Frad_t1 n g) /\
  (forall n, (n < 3)%nat -> snd acc' n = vsum m (gain (fst acc') n)).
Proof.
  induction m as [| m IH]; cbv zeta.
  - split; [reflexivity | intros n _; reflexivity].
  - cbn [for_loop]. cbv zeta in IH. destruct IH as [IHF IHM].
    destruct (for_loop m _ (Frad_t1, zeros)) as [Fm dMm] eqn:Eloop. cbn [fst snd] in *.
    pose proof (fluxUpdate_group_momentum rho dt gasMtm0 l lv lvv fourPiBoverC kappaPVec
                  kappaEVec kappaFVec EradVec_guess m Fm dMm) as Hgroup.
    cbv zeta in Hgroup. destruct Hgroup as [HF HM].
    split.
    + intros n g Hg. rewrite HF by lia. apply IHF. lia.
    + intros n Hn. rewrite HM, IHM by exact Hn.
      unfold vsum. cbn [for_loop]. fold (gain (fst (fluxUpdate_group P std_pow rho dt gasMtm0
        l lv lvv fourPiBoverC kappaPVec kappaEVec kappaFVec EradVec_guess consVar m
        (Fm, dMm))) n m).
      f_equal. apply sum_loop_ext. intros g Hg. unfold gain. now rewrite HF by lia.
Qed.

(** The pass of a group with [gamma_ == 1.0]: it writes the fluxes of its
    own group only, each the old flux divided by
    [1 + rho * kappaF * chat * dt], and adds the change to [dMomentum]. *)
Lemma fluxUpdate_group_isothermal_entries (rho dt : T) (kappaFVec : nat -> T)
    (g : nat) (Frad_t1 : nat -> nat -> T) (dMomentum : nat -> T) :
  let acc' := fluxUpdate_group_isothermal P rho dt kappaFVec consVar g (Frad_t1, dMomentum) in
  (forall n g', g' <> g -> fst acc' n g' = Frad_t1 n g') /\
  (forall n, (n < 3)%nat -> snd acc' n = s_add (dMomentum n) (gain (fst acc') n g)) /\
  (forall n, (n < 3)%nat ->
     fst acc' n g
     = s_div (consVar (radFirstIndex P + 1 + n + 4 * g)%nat)
             (s_add (s_ofZ 1) (s_mul (s_mul (s_mul rho (kappaFVec g)) (c_hat P)) dt))).
Proof.
  cbv zeta. unfold gain, fluxUpdate_group_isothermal, c_light_, c_hat_. cbv zeta.
  set (Frad_t0 := vec3 _ _ _).
  assert (Hrow : forall (a : nat -> nat -> T) n m g' v,
            g' <> g -> upd2 a m g v n g' = a n g').
  { intros a n m g' v Hne. unfold upd2, upd.
    destruct (Nat.eqb n m) eqn:E; [| reflexivity].
    apply Nat.eqb_eq in E. subst m. apply Nat.eqb_neq in Hne. now rewrite Hne. }
  assert (Hown : forall (a : nat -> nat -> T) n v, upd2 a n g v n g = v).
  { intros a n v. unfold upd2. now rewrite !upd_eq. }
  assert (Hoth : forall (a : nat -> nat -> T) n m v, n <> m -> upd2 a m g v n g = a n g).
  { intros a n m v Hne. unfold upd2. now rewrite upd_neq by exact Hne. }
  cbn [for_loop fst snd]. split; [| split].
  - intros n g' Hne. now rewrite !Hrow by exact Hne.
  - intros n Hn. destruct n as [| [| [| n]]]; try lia;
      repeat first [rewrite upd_eq | rewrite upd_neq by lia
                   | rewrite Hown | rewrite Hoth by lia]; reflexivity.
  - intros n Hn. unfold Frad_t0, x1RadFlux_index, x2RadFlux_index, x3RadFlux_index,
      nstartHyperbolic_, numRadVars_.
    destruct n as [| [| [| n]]]; try lia;
      repeat first [rewrite Hown | rewrite Hoth by lia]; cbn [vec3];
      f_equal; f_equal; lia.
Qed.

Lemma fluxUpdate_isothermal_loop (rho dt : T) (kappaFVec : nat -> T)
    (m : nat) (Frad_t1 : nat -> nat -> T) :
  let acc' := for_loop m (fluxUpdate_group_isothermal P rho dt kappaFVec consVar)
                (Frad_t1, zeros) in
  (forall n g, (m <= g)%nat -> fst acc' n g = Frad_t1 n g) /\
  (forall n, (n < 3)%nat -> snd acc' n = vsum m (gain (fst acc') n)) /\
  (forall n g, (g < m)%nat -> (n < 3)%nat ->
     fst acc' n g
     = s_div (consVar (radFirstIndex P + 1 + n + 4 * g)%nat)
             (s_add (s_ofZ 1) (s_mul (s_mul (s_mul rho (kappaFVec g)) (c_hat P)) dt))).
Proof.
  induction m as [| m IH]; cbv zeta.
  - split; [reflexivity | split; [intros n _; reflexivity | intros n g Hg; lia]].
  - cbn [for_loop]. cbv zeta in IH. destruct IH as (IHF & IHM & IHE).
    destruct (for_loop m _ (Frad_t1, zeros)) as [Fm dMm] eqn:Eloop. cbn [fst snd] in *.
    pose proof (fluxUpdate_group_isothermal_entries rho dt kappaFVec m Fm dMm) as Hgroup.
    cbv zeta in Hgroup. destruct Hgroup as (HF & HM & HE).
    split; [| split].
    + intros n g Hg. rewrite HF by lia. apply IHF. lia.
    + intros n Hn. rewrite HM, IHM by exact Hn.
      unfold vsum. cbn [for_loop]. f_equal. apply sum_loop_ext.
      intros g Hg. unfold gain. now rewrite HF by lia.
    + intros n g Hg Hn. destruct (Nat.eq_dec g m) as [-> | Hne].
      * apply HE. exact Hn.
      * rewrite HF by exact Hne. apply IHE; [lia | exact Hn].
Qed.

(** Every pass leaves in [dMomentum] the momentum that the gas gains from
    the flux changes it leaves in [Frad_t1]. *)
Lemma fullStepPass_momentum (ite : nat) (s s' : SourceState) (b : bool) (n : nat) :
  pass ite s = Some (s', b) -> (n < 3)%nat ->
  ss_dMomentum s' n = vsum (nGroups P) (gain (ss_Frad_t1 s') n).
Proof.
  unfold pass, fullStepPass. cbv zeta.
  destruct (s_eqb (gamma_ P) (s_ofZ 1)).
  { match goal with
    | |- context [for_loop (nGroups_ P) (fluxUpdate_group_isothermal P ?rho ?dt ?kF consVar)
                    (?F, zeros)] =>
        pose proof (fluxUpdate_isothermal_loop rho dt kF (nGroups P) F) as Hloop;
        cbv zeta in Hloop; unfold nGroups_ in *;
        destruct (for_loop (nGroups P) (fluxUpdate_group_isothermal P rho dt kF consVar)
                    (F, zeros)) as [F1 dM]
    end.
    cbn [fst snd] in Hloop. destruct Hloop as (_ & HM & _).
    intros [= <- <-] Hn. cbn [ss_dMomentum ss_Frad_t1]. apply HM. exact Hn. }
  destruct (lorentzFactors P NAN _) as [[l lv] lvv].
  destruct (exchangeSetupAt _ _ _ _ _ _ _ _ _ _ _ _ _ _ _ _) as [ex st0].
  destruct (NewtonRaphson _ _ _ _ _ _ _ _ _ _ _ _) as [st conv].
  destruct (negb _); [discriminate|].
  match goal with
  | |- context [for_loop (nGroups_ P) (fluxUpdate_group P std_pow ?rho ?dt ?mtm ?l ?lv ?lvv
                                         ?B ?kP ?kE ?kF ?Er consVar) (?F, zeros)] =>
      pose proof (fluxUpdate_loop_momentum rho dt mtm l lv lvv B kP kE kF Er (nGroups P) F)
        as Hloop;
      cbv zeta in Hloop; unfold nGroups_ in *;
      destruct (for_loop (nGroups P) (fluxUpdate_group P std_pow rho dt mtm l lv lvv
                                        B kP kE kF Er consVar) (F, zeros)) as [F1 dM]
  end.
  cbn [fst snd] in Hloop. destruct Hloop as [_ HM].
  match goal with
  | |- context [let '(Egas_guess, EradVec_guess) := ?x in _] => destruct x as [Eg Er]
  end.
  destruct (_ || _).
  - intros [= <- <-] Hn. cbn [ss_dMomentum ss_Frad_t1]. apply HM. exact Hn.
  - match goal with
    | |- context [let '(work, work_prev) := ?x in _] => destruct x as [w wp]
    end.
    intros [= <- <-] Hn. cbn [ss_dMomentum ss_Frad_t1]. apply HM. exact Hn.
Qed.

(** The gas variables never overlap the radiation variables: the six gas
    variables come first. *)
Hypothesis layout : (hydroFirstIndex P + 6 <= radFirstIndex P)%nat.

Let gas_update_factor := if (stage =? 1)%Z then IMEX_a32 Hy else s_ofZ 1.
Let Egas0 := ComputeEintFromEgas (consVar (gasDensity_index P))
               (consVar (x1GasMomentum_index P)) (consVar (x2GasMomentum_index P))
               (consVar (x3GasMomentum_index P)) (consVar (gasEnergy_index P)).

(** What the cell holds after the stores of step 4b. *)
Lemma storeSourceTerms_entries (s : SourceState) :
  let consNew := storeSourceTerms P Hy consVar stage s in
  let x1GasMom1 :=
    s_add (consVar (x1GasMomentum_index P)) (s_mul (ss_dMomentum s 0%nat) gas_update_factor) in
  let x2GasMom1 :=
    s_add (consVar (x2GasMomentum_index P)) (s_mul (ss_dMomentum s 1%nat) gas_update_factor) in
  let x3GasMom1 :=
    s_add (consVar (x3GasMomentum_index P)) (s_mul (ss_dMomentum s 2%nat) gas_update_factor) in
  let Egas_guess :=
    s_add Egas0 (s_mul (s_sub (ss_Egas_guess s) Egas0) gas_update_factor) in
  let isothermal := s_eqb (EOS_gamma P) (s_ofZ 1) in
  consNew (gasDensity_index P) = consVar (gasDensity_index P) /\
  consNew (x1GasMomentum_index P) = x1GasMom1 /\
  consNew (x2GasMomentum_index P) = x2GasMom1 /\
  consNew (x3GasMomentum_index P) = x3GasMom1 /\
  consNew (gasInternalEnergy_index P)
  = (if isothermal then consVar (gasInternalEnergy_index P) else Egas_guess) /\
  consNew (gasEnergy_index P)
  = (if isothermal then consVar (gasEnergy_index P)
     else ComputeEgasFromEint (consVar (gasDensity_index P)) x1GasMom1 x2GasMom1 x3GasMom1
            Egas_guess) /\
  (forall g, (g < nGroups P)%nat ->
     consNew (radEnergy_index P + 4 * g)%nat
     = (if isothermal then consVar (radEnergy_index P + 4 * g)%nat else ss_EradVec_guess s g) /\
     consNew (x1RadFlux_index P + 4 * g)%nat = ss_Frad_t1 s 0%nat g /\
     consNew (x2RadFlux_index P + 4 * g)%nat = ss_Frad_t1 s 1%nat g /\
     consNew (x3RadFlux_index P + 4 * g)%nat = ss_Frad_t1 s 2%nat g).
Proof.
  cbv zeta. unfold storeSourceTerms, gamma_. cbv zeta. fold Egas0 gas_update_factor.
  unfold gasDensity_index, x1GasMomentum_index, x2GasMomentum_index, x3GasMomentum_index,
    gasEnergy_index, gasInternalEnergy_index, nGroups_ in *.
  set (isothermal := s_eqb (EOS_gamma P) (s_ofZ 1)).
  repeat split.
  1-6: rewrite radStore_loop_other by lia;
       destruct isothermal; cbn [negb];
       repeat first [rewrite upd_eq | rewrite upd_neq by lia]; reflexivity.
  - unfold radEnergy_index, nstartHyperbolic_.
    replace (radFirstIndex P + 4 * g)%nat with (radFirstIndex P + 0 + 4 * g)%nat by lia.
    rewrite radStore_loop_own by lia.
    destruct isothermal; cbn [negb]; [| reflexivity].
    repeat first [rewrite upd_eq | rewrite upd_neq by lia]. reflexivity.
  - unfold x1RadFlux_index, nstartHyperbolic_. now rewrite radStore_loop_own by lia.
  - unfold x2RadFlux_index, nstartHyperbolic_. now rewrite radStore_loop_own by lia.
  - unfold x3RadFlux_index, nstartHyperbolic_. now rewrite radStore_loop_own by lia.
Qed.

(** X13. Over any arithmetic, binary64 included: when the kernel of
    [AddSourceTerms] returns, the momentum that it adds to the gas in
    direction [n] is, as computed, the sum over the groups of
    [-(F_new - F_old) / (c * chat)] for the flux component [n] that it
    stores, times [gas_update_factor] ([IMEX_a32] in stage 1 and [1]
    otherwise): what the radiation loses the gas gains, whichever branch
    of the flux update ran and however many passes the iteration made. *)
Theorem AddSourceTerms_momentum_exchange (consNew : nat -> T) (n : nat) :
  AddSourceTerms P Hy NAN infinity std_pow ComputeTgasFromEint ComputeEintTempDerivative
    ComputePlanckOpacity ComputeEnergyMeanOpacity ComputeFluxMeanOpacity
    integrate_planck_from_0_to_x consVar radEnergySource boundaries dt_radiation stage
  = Some consNew ->
  (n < 3)%nat ->
  consNew (hydroFirstIndex P + 1 + n)%nat
  = s_add (consVar (hydroFirstIndex P + 1 + n)%nat)
      (s_mul (vsum (nGroups P)
                (fun g => s_div (s_opp (s_sub (consNew (radFirstIndex P + 1 + n + 4 * g)%nat)
                                              (consVar (radFirstIndex P + 1 + n + 4 * g)%nat)))
                                (s_mul (c_light P) (c_hat P))))
             (if (stage =? 1)%Z then IMEX_a32 Hy else s_ofZ 1)).
Proof.
  unfold AddSourceTerms. cbv zeta.
  match goal with
  | |- match ?x with Some _ => _ | None => _ end = _ -> _ => destruct x as [s |] eqn:Eit
  end; [| discriminate].
  intros [= <-] Hn.
  destruct (fullStepIteration_last_pass _ _ _ _ Eit) as (ite' & s0 & Hpass).
  pose proof (fun k => fullStepPass_momentum ite' s0 s true k Hpass) as HdM.
  destruct (storeSourceTerms_entries s) as (_ & H1 & H2 & H3 & _ & _ & Hrad).
  cbv zeta in H1, H2, H3, Hrad. fold gas_update_factor.
  assert (Hsum : vsum (nGroups P)
            (fun g => s_div (s_opp (s_sub
                        (storeSourceTerms P Hy consVar stage s (radFirstIndex P + 1 + n + 4 * g)%nat)
                        (consVar (radFirstIndex P + 1 + n + 4 * g)%nat)))
                      (s_mul (c_light P) (c_hat P)))
          = vsum (nGroups P) (gain (ss_Frad_t1 s) n)).
  { unfold vsum. apply sum_loop_ext. intros g Hg.
    destruct (Hrad g Hg) as (_ & F1 & F2 & F3). unfold gain.
    unfold x1RadFlux_index, x2RadFlux_index, x3RadFlux_index, nstartHyperbolic_, numRadVars_
      in *.
    destruct n as [| [| [| n]]]; try lia; cbn [vec3].
    - replace (radFirstIndex P + 1 + 0 + 4 * g)%nat with (radFirstIndex P + 1 + 4 * g)%nat
        by lia.
      now rewrite F1.
    - replace (radFirstIndex P + 1 + 1 + 4 * g)%nat with (radFirstIndex P + 2 + 4 * g)%nat
        by lia.
      now rewrite F2.
    - replace (radFirstIndex P + 1 + 2 + 4 * g)%nat with (radFirstIndex P + 3 + 4 * g)%nat
        by lia.
      now rewrite F3. }
  rewrite Hsum, <- HdM by exact Hn.
  unfold x1GasMomentum_index, x2GasMomentum_index, x3GasMomentum_index in *.
  destruct n as [| [| [| n]]]; try lia.
  - replace (hydroFirstIndex P + 1 + 0)%nat with (hydroFirstIndex P + 1)%nat by lia.
    exact H1.
  - replace (hydroFirstIndex P + 1 + 1)%nat with (hydroFirstIndex P + 2)%nat by lia.
    exact H2.
  - replace (hydroFirstIndex P + 1 + 2)%nat with (hydroFirstIndex P + 3)%nat by lia.
    exact H3.
Qed.

(** With [gamma_ == 1.0] a pass cannot abort, and it leaves the
    iteration at once. *)
Lemma fullStepPass_isothermal (ite : nat) (s : SourceState) :
  s_eqb (EOS_gamma P) (s_ofZ 1) = true ->
  exists s', pass ite s = Some (s', true).
Proof.
  intros Hiso. unfold pass, fullStepPass, gamma_. cbv zeta. rewrite Hiso.
  destruct (for_loop _ _ _) as [F1 dM]. eexists. reflexivity.
Qed.

(** Without the stores of the radiation energies, the loop of the stores
    leaves every entry that is not a flux component of one of its
    groups. *)
Lemma radStore_loop_frame (m : nat) (E : nat -> T) (F : nat -> nat -> T)
    (a : nat -> T) (j : nat) :
  (forall g n, (g < m)%nat -> (n < 3)%nat -> j <> (radFirstIndex P + 1 + n + 4 * g)%nat) ->
  for_loop m (fun g consNew =>
    let consNew :=
      if false then upd consNew (radEnergy_index P + numRadVars_ * g) (E g) else consNew in
    let consNew := upd consNew (x1RadFlux_index P + numRadVars_ * g) (F 0%nat g) in
    let consNew := upd consNew (x2RadFlux_index P + numRadVars_ * g) (F 1%nat g) in
    let consNew := upd consNew (x3RadFlux_index P + numRadVars_ * g) (F 2%nat g) in
    consNew) a j = a j.
Proof.
  induction m as [| m IH]; intros Hj; [reflexivity|].
  cbn [for_loop]. cbv zeta.
  pose proof (Hj m 0%nat ltac:(lia) ltac:(lia)) as H0.
  pose proof (Hj m 1%nat ltac:(lia) ltac:(lia)) as H1.
  pose proof (Hj m 2%nat ltac:(lia) ltac:(lia)) as H2.
  rewrite !upd_neq
    by (cbv [numRadVars_ x1RadFlux_index x2RadFlux_index x3RadFlux_index nstartHyperbolic_];
        lia).
  apply IH. intros g n Hg Hn. apply Hj; [lia | exact Hn].
Qed.

(** X14. Over any arithmetic, for the two values of the test
    [gamma_ != 1.0].  With [gamma_ == 1.0] the kernel of [AddSourceTerms]
    never aborts, and it writes the three components of the gas momentum
    and the three flux components of every group only: the density, the
    two gas energies, the radiation energy of every group and every other
    entry of the cell are left as they were.  With [gamma_ != 1.0], when
    the kernel returns, the density is unchanged and the total gas energy
    that it stores is [ComputeEgasFromEint] of the density, the momentum
    and the internal energy that it stores. *)
Theorem AddSourceTerms_gas_energy_consistent :
  (s_eqb (EOS_gamma P) (s_ofZ 1) = true ->
   exists consNew : nat -> T,
     AddSourceTerms P Hy NAN infinity std_pow ComputeTgasFromEint ComputeEintTempDerivative
       ComputePlanckOpacity ComputeEnergyMeanOpacity ComputeFluxMeanOpacity
       integrate_planck_from_0_to_x consVar radEnergySource boundaries dt_radiation stage
     = Some consNew /\
     forall j : nat,
       ~ (hydroFirstIndex P + 1 <= j <= hydroFirstIndex P + 3)%nat ->
       (forall g n, (g < nGroups P)%nat -> (n < 3)%nat ->
          j <> (radFirstIndex P + 1 + n + 4 * g)%nat) ->
       consNew j = consVar j) /\
  (s_eqb (EOS_gamma P) (s_ofZ 1) = false ->
   forall consNew : nat -> T,
     AddSourceTerms P Hy NAN infinity std_pow ComputeTgasFromEint ComputeEintTempDerivative
       ComputePlanckOpacity ComputeEnergyMeanOpacity ComputeFluxMeanOpacity
       integrate_planck_from_0_to_x consVar radEnergySource boundaries dt_radiation stage
     = Some consNew ->
     consNew (gasDensity_index P) = consVar (gasDensity_index P) /\
     consNew (gasEnergy_index P)
     = ComputeEgasFromEint (consNew (gasDensity_index P))
         (consNew (x1GasMomentum_index P)) (consNew (x2GasMomentum_index P))
         (consNew (x3GasMomentum_index P)) (consNew (gasInternalEnergy_index P))).
Proof.
  split.
  - intros Hiso. unfold AddSourceTerms, max_ite. cbv zeta. cbn [fullStepIteration].
    destruct (fullStepPass_isothermal 0
                (sourceState0 NAN (fun g => consVar (radEnergy_index P + numRadVars_ * g)%nat))
                Hiso) as [s Hs].
    unfold pass in Hs. rewrite Hs.
    eexists. split; [reflexivity|].
    intros j Hmom Hflux. unfold storeSourceTerms, gamma_. rewrite Hiso. cbn [negb]. cbv zeta.
    rewrite (radStore_loop_frame (nGroups_ P) (ss_EradVec_guess s) (ss_Frad_t1 s))
      by exact Hflux.
    unfold x1GasMomentum_index, x2GasMomentum_index, x3GasMomentum_index.
    now rewrite !upd_neq by lia.
  - intros Hgas consNew. unfold AddSourceTerms. cbv zeta.
    match goal with
    | |- match ?x with Some _ => _ | None => _ end = _ -> _ => destruct x as [s |]
    end; [| discriminate].
    intros [= <-].
    destruct (storeSourceTerms_entries s) as (H0 & H1 & H2 & H3 & H4 & H5 & _).
    cbv zeta in *. rewrite Hgas in H4, H5. split; [exact H0|].
    now rewrite H0, H1, H2, H3, H4.
Qed.


(** *** The flux update without velocity terms *)

(** After the group loop, the flux of a group is the one that its own
    pass computed. *)
Lemma fluxUpdate_loop_entry (rho dt : T) (gasMtm0 : nat -> T) (l lv lvv : T)
    (fourPiBoverC kappaPVec kappaEVec kappaFVec EradVec_guess : nat -> T)
    (m : nat) (acc0 : (nat -> nat -> T) * (nat -> T)) (n g : nat) :
  (g < m)%nat ->
  exists acc,
    fst (for_loop m
           (fluxUpdate_group P std_pow rho dt gasMtm0 l lv lvv fourPiBoverC kappaPVec
              kappaEVec kappaFVec EradVec_guess consVar) acc0) n g
    = fst (fluxUpdate_group P std_pow rho dt gasMtm0 l lv lvv fourPiBoverC kappaPVec
             kappaEVec kappaFVec EradVec_guess consVar g acc) n g.
Proof.
  induction m as [| m IH]; intros Hg; [lia|].
  cbn [for_loop]. destruct (Nat.eq_dec g m) as [-> | Hne].
  - eexists. reflexivity.
  - destruct (IH ltac:(lia)) as [acc Hacc]. exists acc. rewrite <- Hacc.
    destruct (for_loop m _ acc0) as [Fm dMm]. cbn [fst].
    pose proof (fluxUpdate_group_momentum rho dt gasMtm0 l lv lvv fourPiBoverC kappaPVec
                  kappaEVec kappaFVec EradVec_guess m Fm dMm) as Hgroup.
    cbv zeta in Hgroup. destruct Hgroup as [HF _]. apply HF. exact Hne.
Qed.

(** Without velocity terms the pass of a group divides each component of
    its flux by [1 + rho * kappaF * chat * dt]. *)
Lemma fluxUpdate_group_static (rho dt : T) (gasMtm0 : nat -> T) (l lv lvv : T)
    (fourPiBoverC kappaPVec kappaEVec kappaFVec EradVec_guess : nat -> T)
    (acc : (nat -> nat -> T) * (nat -> T)) (n g : nat) :
  beta_order P = 0%Z -> (n < 3)%nat ->
  fst (fluxUpdate_group P std_pow rho dt gasMtm0 l lv lvv fourPiBoverC kappaPVec
         kappaEVec kappaFVec EradVec_guess consVar g acc) n g
  = s_div (consVar (radFirstIndex P + 1 + n + 4 * g)%nat)
          (s_add (s_ofZ 1) (s_mul (s_mul (s_mul rho (kappaFVec g)) (c_hat P)) dt)).
Proof.
  intros Hbeta Hn. unfold fluxUpdate_group, beta_order_, c_hat_. rewrite Hbeta. cbv zeta.
  cbn [Z.eqb negb for_loop fst snd].
  unfold x1RadFlux_index, x2RadFlux_index, x3RadFlux_index, nstartHyperbolic_, numRadVars_.
  unfold upd2.
  destruct n as [| [| [| n]]]; try lia;
    repeat first [rewrite upd_eq | rewrite upd_neq by lia]; cbn [vec3];
    f_equal; f_equal; lia.
Qed.

(** Without velocity terms every pass leaves the iteration. *)
Lemma fullStepPass_static_break (ite : nat) (s s' : SourceState) (b : bool) :
  beta_order P = 0%Z -> pass ite s = Some (s', b) -> b = true.
Proof.
  intros Hbeta. unfold pass, fullStepPass. cbv zeta.
  destruct (s_eqb (gamma_ P) (s_ofZ 1)).
  { destruct (for_loop _ _ _) as [F1 dM]. now intros [= _ <-]. }
  destruct (lorentzFactors P NAN _) as [[l lv] lvv].
  destruct (exchangeSetupAt _ _ _ _ _ _ _ _ _ _ _ _ _ _ _ _) as [ex st0].
  destruct (NewtonRaphson _ _ _ _ _ _ _ _ _ _ _ _) as [st conv].
  destruct (negb _); [discriminate|].
  match goal with
  | |- context [let '(Frad_t1, dMomentum) := ?x in _] => destruct x as [F1 dM]
  end.
  match goal with
  | |- context [let '(Egas_guess, EradVec_guess) := ?x in _] => destruct x as [Eg Er]
  end.
  unfold beta_order_. rewrite Hbeta. cbn [Z.eqb orb]. now intros [= _ <-].
Qed.

(** X15. Over any arithmetic, for the two values of the test
    [gamma_ != 1.0]: without velocity terms ([beta_order_ == 0]) the
    kernel of [AddSourceTerms], when it returns, has divided every
    component of the flux of every group by
    [1 + rho * kappaF * chat * dt], the flux-mean opacity [kappaF] being
    taken at the temperature of the gas energy [Egas].  With
    [gamma_ != 1.0] that is the gas energy at which the Newton-Raphson loop
    of the energy exchange ended, and the internal energy that the kernel
    stores is [Egas0 + (Egas - Egas0) * gas_update_factor]; with
    [gamma_ == 1.0] it is the initial [NAN], and the internal energy of
    the cell is left as it was. *)
Theorem AddSourceTerms_static_flux (consNew : nat -> T) :
  beta_order P = 0%Z ->
  AddSourceTerms P Hy NAN infinity std_pow ComputeTgasFromEint ComputeEintTempDerivative
    ComputePlanckOpacity ComputeEnergyMeanOpacity ComputeFluxMeanOpacity
    integrate_planck_from_0_to_x consVar radEnergySource boundaries dt_radiation stage
  = Some consNew ->
  let dt := if (stage =? 2)%Z
            then s_mul (s_sub (s_ofZ 1) (IMEX_a32 Hy)) dt_radiation else dt_radiation in
  let rho := consVar (gasDensity_index P) in
  let isothermal := s_eqb (EOS_gamma P) (s_ofZ 1) in
  let Egas :=
    if isothermal then NAN
    else Egas_guess
           (fst (energyExchange P Hy NAN infinity std_pow ComputeTgasFromEint
                   ComputeEintTempDerivative ComputePlanckOpacity ComputeEnergyMeanOpacity
                   ComputeFluxMeanOpacity integrate_planck_from_0_to_x
                   consVar radEnergySource boundaries dt_radiation stage)) in
  consNew (gasInternalEnergy_index P)
  = (if isothermal then consVar (gasInternalEnergy_index P)
     else s_add Egas0 (s_mul (s_sub Egas Egas0) gas_update_factor)) /\
  forall g n, (g < nGroups P)%nat -> (n < 3)%nat ->
    consNew (radFirstIndex P + 1 + n + 4 * g)%nat
    = s_div (consVar (radFirstIndex P + 1 + n + 4 * g)%nat)
        (s_add (s_ofZ 1)
           (s_mul (s_mul (s_mul rho
                    (ComputeFluxMeanOpacity rho
                       (ComputeTgasFromEint rho Egas (ComputeMassScalars P consVar)) g))
                    (c_hat P)) dt)).
Proof.
  intros Hbeta. unfold AddSourceTerms, max_ite. cbv zeta. cbn [fullStepIteration].
  set (s0 := sourceState0 NAN (fun g => consVar (radEnergy_index P + numRadVars_ * g)%nat)).
  fold (pass 0 s0).
  destruct (pass 0 s0) as [[s b] |] eqn:Hpass; [| discriminate].
  rewrite (fullStepPass_static_break 0 s0 s b Hbeta Hpass) in *.
  intros [= <-].
  destruct (storeSourceTerms_entries s) as (_ & _ & _ & _ & HEint & _ & Hrad).
  cbv zeta in HEint, Hrad.
  assert (Hstore : forall g n, (g < nGroups P)%nat -> (n < 3)%nat ->
            storeSourceTerms P Hy consVar stage s (radFirstIndex P + 1 + n + 4 * g)%nat
            = ss_Frad_t1 s n g).
  { intros g n Hg Hn. destruct (Hrad g Hg) as (_ & F1 & F2 & F3).
    unfold x1RadFlux_index, x2RadFlux_index, x3RadFlux_index, nstartHyperbolic_ in *.
    destruct n as [| [| [| n]]]; try lia.
    - replace (radFirstIndex P + 1 + 0 + 4 * g)%nat with (radFirstIndex P + 1 + 4 * g)%nat
        by lia.
      exact F1.
    - replace (radFirstIndex P + 1 + 1 + 4 * g)%nat with (radFirstIndex P + 2 + 4 * g)%nat
        by lia.
      exact F2.
    - replace (radFirstIndex P + 1 + 2 + 4 * g)%nat with (radFirstIndex P + 3 + 4 * g)%nat
        by lia.
      exact F3. }
  rewrite HEint. clear HEint Hrad.
  revert Hpass. unfold pass, fullStepPass, gamma_. cbv zeta.
  destruct (s_eqb (EOS_gamma P) (s_ofZ 1)).
  { match goal with
    | |- context [for_loop (nGroups_ P) (fluxUpdate_group_isothermal P ?rho ?dt ?kF consVar)
                    (?F, zeros)] =>
        pose proof (fluxUpdate_isothermal_loop rho dt kF (nGroups P) F) as Hloop;
        cbv zeta in Hloop; unfold nGroups_ in *;
        destruct (for_loop (nGroups P) (fluxUpdate_group_isothermal P rho dt kF consVar)
                    (F, zeros)) as [F1 dM]
    end.
    cbn [fst snd] in Hloop. destruct Hloop as (_ & _ & HE).
    intros [= <-]. split; [reflexivity|].
    intros g n Hg Hn. rewrite Hstore by assumption. cbn [ss_Frad_t1].
    rewrite HE by assumption. reflexivity. }
  unfold s0. rewrite exchangeSetupAt_first. unfold energyExchange.
  destruct (lorentzFactors P NAN _) as [[l lv] lvv].
  destruct (exchangeSetup _ _ _ _ _ _ _ _ _ _ _ _ _ _) as [ex st0].
  destruct (NewtonRaphson _ _ _ _ _ _ _ _ _ _ _ _) as [st conv].
  destruct (negb _); [discriminate|].
  cbn [fst].
  match goal with
  | |- context [for_loop (nGroups_ P) (fluxUpdate_group P std_pow ?rho ?dt ?mtm ?l ?lv ?lvv
                                         ?B ?kP ?kE ?kF ?Er consVar) ?acc0] =>
      assert (Hentry : forall g n, (g < nGroups P)%nat -> (n < 3)%nat ->
                fst (for_loop (nGroups P)
                       (fluxUpdate_group P std_pow rho dt mtm l lv lvv B kP kE kF Er consVar)
                       acc0) n g
                = s_div (consVar (radFirstIndex P + 1 + n + 4 * g)%nat)
                    (s_add (s_ofZ 1) (s_mul (s_mul (s_mul rho (kF g)) (c_hat P)) dt)))
        by (intros g n Hg Hn;
            destruct (fluxUpdate_loop_entry rho dt mtm l lv lvv B kP kE kF Er (nGroups P)
                        acc0 n g Hg) as [acc Hacc];
            rewrite Hacc;
            exact (fluxUpdate_group_static rho dt mtm l lv lvv B kP kE kF Er acc n g Hbeta Hn));
      unfold nGroups_ in *;
      destruct (for_loop (nGroups P) (fluxUpdate_group P std_pow rho dt mtm l lv lvv
                                        B kP kE kF Er consVar) acc0) as [F1 dM]
  end.
  cbn [fst] in Hentry. unfold beta_order_. rewrite Hbeta. cbn [Z.eqb negb orb].
  intros [= <-]. cbn [ss_Frad_t1 ss_Egas_guess]. split; [reflexivity|].
  intros g n Hg Hn. rewrite Hstore by assumption. cbn [ss_Frad_t1].
  apply Hentry; assumption.
Qed.


(** *** Transparent groups *)

Let setup0 := exchangeSetup P Hy NAN std_pow ComputeTgasFromEint ComputePlanckOpacity
                ComputeEnergyMeanOpacity ComputeFluxMeanOpacity integrate_planck_from_0_to_x
                consVar radEnergySource boundaries dt_radiation stage.

(** A Newton-Raphson loop in which the test [tau[g] > 0.0] fails at every
    temperature does not write the guess of group [g]. *)
Lemma NewtonRaphson_keep_guess (ex : ExchangeSetup) (g : nat) :
  (forall Tgas : T,
     s_ltb (s_ofZ 0) (opticalDepth P ex (ComputeEnergyMeanOpacity (ex_rho ex) Tgas) g)
     = false) ->
  forall (fuel : nat) (st : NRState),
    EradVec_guess
      (fst (NewtonRaphson P Hy infinity std_pow ComputeTgasFromEint ComputeEintTempDerivative
              ComputePlanckOpacity ComputeEnergyMeanOpacity integrate_planck_from_0_to_x
              fuel ex st)) g
    = EradVec_guess st g.
Proof.
  intros Htau.
  assert (Hres : forall st,
            EradVec_guess (NR_residuals P Hy std_pow ComputeTgasFromEint ComputePlanckOpacity
                             ComputeEnergyMeanOpacity integrate_planck_from_0_to_x ex st) g
            = EradVec_guess st g).
  { intros st. unfold NR_residuals. cbn [EradVec_guess].
    apply updateEradVec_guess_skip. apply Htau. }
  induction fuel as [| fuel IH]; intros st; [reflexivity|].
  cbn [NewtonRaphson]. destruct (NR_converged P ex _).
  - cbn [fst]. apply Hres.
  - rewrite IH. cbn [NR_update EradVec_guess]. apply Hres.
Qed.

(** Every pass sets up the exchange with the density, the time step and
    the Lorentz factor of the first, hence with the same optical depths,
    and starts from the guess that it inherits. *)
Lemma exchangeSetupAt_inherits (ite : nat) (s : SourceState) :
  let setup := exchangeSetupAt P Hy NAN std_pow ComputeTgasFromEint ComputePlanckOpacity
                 ComputeEnergyMeanOpacity ComputeFluxMeanOpacity
                 integrate_planck_from_0_to_x ite s consVar radEnergySource boundaries
                 dt_radiation stage in
  (forall k, opticalDepth P (fst setup) k = opticalDepth P (fst setup0) k) /\
  ex_rho (fst setup) = ex_rho (fst setup0) /\
  EradVec_guess (snd setup) = ss_EradVec_guess s.
Proof.
  unfold setup0, exchangeSetupAt, exchangeSetup. cbv zeta.
  destruct (lorentzFactors P NAN _) as [[l lv] lvv]. repeat split.
Qed.

(** In the scheme that keeps the work term in the source, and without
    velocity terms, a pass leaves the guess of a transparent group as it
    finds it. *)
Lemma fullStepPass_keep_guess (ite : nat) (s s' : SourceState) (b : bool) (g : nat) :
  (forall Tgas : T,
     s_ltb (s_ofZ 0)
       (opticalDepth P (fst setup0) (ComputeEnergyMeanOpacity (ex_rho (fst setup0)) Tgas) g)
     = false) ->
  include_work_term_in_source Hy = true \/ beta_order P = 0%Z ->
  pass ite s = Some (s', b) ->
  ss_EradVec_guess s' g = ss_EradVec_guess s g.
Proof.
  intros Htau Hscheme. unfold pass, fullStepPass. cbv zeta.
  destruct (s_eqb (gamma_ P) (s_ofZ 1)).
  { destruct (for_loop _ _ _) as [F1 dM]. now intros [= <- <-]. }
  destruct (lorentzFactors P NAN _) as [[l lv] lvv].
  destruct (exchangeSetupAt_inherits ite s) as (Hdepth & Hrho & Hguess). cbv zeta in *.
  destruct (exchangeSetupAt _ _ _ _ _ _ _ _ _ _ _ _ _ _ _ _) as [ex st0].
  cbn [fst snd] in *.
  assert (Hkeep : forall fuel st,
            EradVec_guess
              (fst (NewtonRaphson P Hy infinity std_pow ComputeTgasFromEint
                      ComputeEintTempDerivative ComputePlanckOpacity ComputeEnergyMeanOpacity
                      integrate_planck_from_0_to_x fuel ex st)) g
            = EradVec_guess st g).
  { apply NewtonRaphson_keep_guess. intros Tgas. rewrite Hdepth, Hrho. apply Htau. }
  specialize (Hkeep maxIter st0). rewrite Hguess in Hkeep.
  destruct (NewtonRaphson _ _ _ _ _ _ _ _ _ _ _ _) as [st conv]. cbn [fst] in Hkeep.
  destruct (negb _); [discriminate|].
  match goal with
  | |- context [let '(Frad_t1, dMomentum) := ?x in _] => destruct x as [F1 dM]
  end.
  assert (Hstep3 : forall (Eg Eg' : T) (X : T * (nat -> T)),
            snd (if negb (beta_order_ P =? 0)%Z
                 then if include_work_term_in_source Hy then (Eg', EradVec_guess st) else X
                 else (Eg, EradVec_guess st)) g
            = ss_EradVec_guess s g).
  { intros Eg Eg' X. unfold beta_order_.
    destruct Hscheme as [-> | ->]; [destruct (negb _) | cbn]; exact Hkeep. }
  match goal with
  | |- context [let '(Egas_guess, EradVec_guess) := ?x in _] =>
      pose proof (Hstep3 _ _ _ : snd x g = _) as Hsnd; destruct x as [Eg Er]
  end.
  cbn [snd] in Hsnd.
  destruct (_ || _).
  - intros [= <- <-]. exact Hsnd.
  - match goal with
    | |- context [let '(work, work_prev) := ?x in _] => destruct x as [w wp]
    end.
    intros [= <- <-]. exact Hsnd.
Qed.

Lemma fullStepIteration_keep_guess (fuel ite : nat) (s s' : SourceState) (g : nat) :
  (forall Tgas : T,
     s_ltb (s_ofZ 0)
       (opticalDepth P (fst setup0) (ComputeEnergyMeanOpacity (ex_rho (fst setup0)) Tgas) g)
     = false) ->
  include_work_term_in_source Hy = true \/ beta_order P = 0%Z ->
  iteration fuel ite s = Some s' ->
  ss_EradVec_guess s' g = ss_EradVec_guess s g.
Proof.
  intros Htau Hscheme. revert ite s.
  induction fuel as [| fuel IH]; intros ite s; [discriminate|].
  unfold iteration in *. cbn [fullStepIteration]. fold (pass ite s).
  destruct (pass ite s) as [[s1 [|]] |] eqn:E; [| | discriminate].
  - intros [= <-]. exact (fullStepPass_keep_guess ite s s1 true g Htau Hscheme E).
  - intros Hrest. rewrite (IH _ _ Hrest).
    exact (fullStepPass_keep_guess ite s s1 false g Htau Hscheme E).
Qed.

(** X16. Over any arithmetic in which [0 > 0] fails: in the scheme of the
    source, which keeps the work term in the source term (or without
    velocity terms, [beta_order_ == 0]), a group whose optical depth
    [tau[g]] is exactly [0] at every gas temperature leaves the kernel of
    [AddSourceTerms] with the radiation energy it had: the energy stored
    in the cell is the energy read from it, after any number of passes of
    the full-step iteration. *)
Theorem AddSourceTerms_transparent_group (consNew : nat -> T) (g : nat) :
  s_ltb (s_ofZ 0) (s_ofZ 0) = false ->
  (forall Tgas : T,
     opticalDepth P (fst setup0) (ComputeEnergyMeanOpacity (ex_rho (fst setup0)) Tgas) g
     = s_ofZ 0) ->
  include_work_term_in_source Hy = true \/ beta_order P = 0%Z ->
  (g < nGroups P)%nat ->
  AddSourceTerms P Hy NAN infinity std_pow ComputeTgasFromEint ComputeEintTempDerivative
    ComputePlanckOpacity ComputeEnergyMeanOpacity ComputeFluxMeanOpacity
    integrate_planck_from_0_to_x consVar radEnergySource boundaries dt_radiation stage
  = Some consNew ->
  consNew (radEnergy_index P + 4 * g)%nat = consVar (radEnergy_index P + 4 * g)%nat.
Proof.
  intros Hzero Htau Hscheme Hg.
  assert (Htau' : forall Tgas : T,
            s_ltb (s_ofZ 0)
              (opticalDepth P (fst setup0)
                 (ComputeEnergyMeanOpacity (ex_rho (fst setup0)) Tgas) g) = false)
    by (intros Tgas; now rewrite Htau).
  unfold AddSourceTerms. cbv zeta.
  match goal with
  | |- match ?x with Some _ => _ | None => _ end = _ -> _ => destruct x as [s |] eqn:Eit
  end; [| discriminate].
  intros [= <-].
  destruct (storeSourceTerms_entries s) as (_ & _ & _ & _ & _ & _ & Hrad).
  cbv zeta in Hrad. destruct (Hrad g Hg) as (HE & _). rewrite HE.
  destruct (s_eqb (EOS_gamma P) (s_ofZ 1)); [reflexivity|].
  now rewrite (fullStepIteration_keep_guess _ _ _ _ g Htau' Hscheme Eit).
Qed.

End SourceTermsKernel.
(** The kernel returns on the moving cell, in stage 2 with the time step
    [1] and without a source: no assertion fails, and the full-step
    iteration ends within its five passes. *)
Lemma moving_cell_update_returns :
  exists consNew,
    AddSourceTerms unit_traits_binary64 source_hyper PrimFloat.nan PrimFloat.infinity
      small_power_binary64 ideal_gas_temperature_binary64 ideal_gas_heat_capacity_binary64
      unit_opacity_binary64 unit_opacity_binary64 unit_opacity_binary64 (fun x => x)
      moving_cell_binary64 (fun _ => float_ofZ 0) (fun g => float_ofZ (Z.of_nat g))
      (float_ofZ 1) 2%Z
    = Some consNew.
Proof.
  match goal with |- exists c, ?x = Some c => destruct x as [consNew |] eqn:E end;
    [now exists consNew|].
  match type of E with
  | ?x = None =>
      assert (Hsome : match x with Some _ => true | None => false end = true)
        by (vm_compute; reflexivity)
  end.
  rewrite E in Hsome. discriminate Hsome.
Qed.

Lemma unit_layout_binary64 :
  (hydroFirstIndex unit_traits_binary64 + 6 <= radFirstIndex unit_traits_binary64)%nat.
Proof. cbn. lia. Qed.

Lemma isothermal_layout_binary64 :
  (hydroFirstIndex isothermal_traits_binary64 + 6
   <= radFirstIndex isothermal_traits_binary64)%nat.
Proof. cbn. lia. Qed.

Lemma AddSourceTerms_momentum_exchange_witness :
  exists consNew,
    AddSourceTerms unit_traits_binary64 source_hyper PrimFloat.nan PrimFloat.infinity
      small_power_binary64 ideal_gas_temperature_binary64 ideal_gas_heat_capacity_binary64
      unit_opacity_binary64 unit_opacity_binary64 unit_opacity_binary64 (fun x => x)
      moving_cell_binary64 (fun _ => float_ofZ 0) (fun g => float_ofZ (Z.of_nat g))
      (float_ofZ 1) 2%Z
    = Some consNew /\
    consNew 1%nat
    = PrimFloat.add (moving_cell_binary64 1%nat)
        (PrimFloat.mul
           (vsum 1 (fun g => PrimFloat.div
                               (PrimFloat.opp (PrimFloat.sub (consNew (7 + 4 * g)%nat)
                                                 (moving_cell_binary64 (7 + 4 * g)%nat)))
                               (PrimFloat.mul (float_ofZ 1) (float_ofZ 1))))
           (float_ofZ 1)).
Proof.
  destruct moving_cell_update_returns as [consNew E]. exists consNew. split; [exact E|].
  exact (AddSourceTerms_momentum_exchange unit_traits_binary64 source_hyper PrimFloat.nan
           PrimFloat.infinity small_power_binary64 ideal_gas_temperature_binary64
           ideal_gas_heat_capacity_binary64 unit_opacity_binary64 unit_opacity_binary64
           unit_opacity_binary64 (fun x => x) moving_cell_binary64 (fun _ => float_ofZ 0)
           (fun g => float_ofZ (Z.of_nat g)) (float_ofZ 1) 2%Z unit_layout_binary64
           consNew 0%nat E ltac:(lia)).
Defined.
Lemma AddSourceTerms_gas_energy_consistent_witness :
  exists consNew,
    AddSourceTerms unit_traits_binary64 source_hyper PrimFloat.nan PrimFloat.infinity
      small_power_binary64 ideal_gas_temperature_binary64 ideal_gas_heat_capacity_binary64
      unit_opacity_binary64 unit_opacity_binary64 unit_opacity_binary64 (fun x => x)
      moving_cell_binary64 (fun _ => float_ofZ 0) (fun g => float_ofZ (Z.of_nat g))
      (float_ofZ 1) 2%Z
    = Some consNew /\
    consNew 4%nat
    = ComputeEgasFromEint (consNew 0%nat) (consNew 1%nat) (consNew 2%nat) (consNew 3%nat)
        (consNew 5%nat) /\
    exists isoNew,
      AddSourceTerms isothermal_traits_binary64 source_hyper PrimFloat.nan PrimFloat.infinity
        small_power_binary64 ideal_gas_temperature_binary64 ideal_gas_heat_capacity_binary64
        unit_opacity_binary64 unit_opacity_binary64 unit_opacity_binary64 (fun x => x)
        moving_cell_binary64 (fun _ => float_ofZ 0) (fun g => float_ofZ (Z.of_nat g))
        (float_ofZ 1) 2%Z
      = Some isoNew /\
      isoNew 0%nat = moving_cell_binary64 0%nat /\
      isoNew 4%nat = moving_cell_binary64 4%nat /\
      isoNew 5%nat = moving_cell_binary64 5%nat /\
      isoNew 6%nat = moving_cell_binary64 6%nat.
Proof.
  destruct moving_cell_update_returns as [consNew E]. exists consNew. split; [exact E|].
  assert (Hgas : s_eqb (EOS_gamma unit_traits_binary64) (s_ofZ 1) = false)
    by (vm_compute; reflexivity).
  assert (Hiso : s_eqb (EOS_gamma isothermal_traits_binary64) (s_ofZ 1) = true)
    by (vm_compute; reflexivity).
  split.
  - exact (proj2 (proj2 (AddSourceTerms_gas_energy_consistent unit_traits_binary64
                    source_hyper PrimFloat.nan PrimFloat.infinity small_power_binary64
                    ideal_gas_temperature_binary64 ideal_gas_heat_capacity_binary64
                    unit_opacity_binary64 unit_opacity_binary64 unit_opacity_binary64
                    (fun x => x) moving_cell_binary64 (fun _ => float_ofZ 0)
                    (fun g => float_ofZ (Z.of_nat g)) (float_ofZ 1) 2%Z unit_layout_binary64)
                  Hgas consNew E)).
  - destruct (proj1 (AddSourceTerms_gas_energy_consistent isothermal_traits_binary64
                source_hyper PrimFloat.nan PrimFloat.infinity small_power_binary64
                ideal_gas_temperature_binary64 ideal_gas_heat_capacity_binary64
                unit_opacity_binary64 unit_opacity_binary64 unit_opacity_binary64
                (fun x => x) moving_cell_binary64 (fun _ => float_ofZ 0)
                (fun g => float_ofZ (Z.of_nat g)) (float_ofZ 1) 2%Z isothermal_layout_binary64)
              Hiso) as [isoNew [Eiso Hframe]].
    exists isoNew. split; [exact Eiso|].
    repeat split; apply Hframe; cbn; try lia; intros g n Hg Hn; lia.
Defined.

(** The kernel returns on the cell at rest in a medium without opacity. *)
Lemma transparent_cell_update_returns :
  exists consNew,
    AddSourceTerms unit_traits_binary64 source_hyper PrimFloat.nan PrimFloat.infinity
      small_power_binary64 ideal_gas_temperature_binary64 ideal_gas_heat_capacity_binary64
      no_opacity_binary64 no_opacity_binary64 no_opacity_binary64 (fun x => x)
      cell_at_rest_binary64 (fun _ => float_ofZ 0) (fun g => float_ofZ (Z.of_nat g))
      (float_ofZ 1) 1%Z
    = Some consNew.
Proof.
  match goal with |- exists c, ?x = Some c => destruct x as [consNew |] eqn:E end;
    [now exists consNew|].
  match type of E with
  | ?x = None =>
      assert (Hsome : match x with Some _ => true | None => false end = true)
        by (vm_compute; reflexivity)
  end.
  rewrite E in Hsome. discriminate Hsome.
Qed.

Lemma AddSourceTerms_transparent_group_witness :
  exists consNew,
    AddSourceTerms unit_traits_binary64 source_hyper PrimFloat.nan PrimFloat.infinity
      small_power_binary64 ideal_gas_temperature_binary64 ideal_gas_heat_capacity_binary64
      no_opacity_binary64 no_opacity_binary64 no_opacity_binary64 (fun x => x)
      cell_at_rest_binary64 (fun _ => float_ofZ 0) (fun g => float_ofZ (Z.of_nat g))
      (float_ofZ 1) 1%Z
    = Some consNew /\
    consNew 6%nat = cell_at_rest_binary64 6%nat.
Proof.
  destruct transparent_cell_update_returns as [consNew E]. exists consNew. split; [exact E|].
  assert (Hzero : PrimFloat.ltb (float_ofZ 0) (float_ofZ 0) = false)
    by (vm_compute; reflexivity).
  assert (Htau : forall Tgas : PrimFloat.float,
            opticalDepth unit_traits_binary64
              (fst (exchangeSetup unit_traits_binary64 source_hyper PrimFloat.nan
                      small_power_binary64 ideal_gas_temperature_binary64
                      no_opacity_binary64 no_opacity_binary64 no_opacity_binary64
                      (fun x => x) cell_at_rest_binary64 (fun _ => float_ofZ 0)
                      (fun g => float_ofZ (Z.of_nat g)) (float_ofZ 1) 1%Z))
              (no_opacity_binary64
                 (ex_rho (fst (exchangeSetup unit_traits_binary64 source_hyper PrimFloat.nan
                      small_power_binary64 ideal_gas_temperature_binary64
                      no_opacity_binary64 no_opacity_binary64 no_opacity_binary64
                      (fun x => x) cell_at_rest_binary64 (fun _ => float_ofZ 0)
                      (fun g => float_ofZ (Z.of_nat g)) (float_ofZ 1) 1%Z))) Tgas) 0%nat
            = float_ofZ 0)
    by (intros Tgas; vm_compute; reflexivity).
  assert (Hg : (0 < nGroups unit_traits_binary64)%nat) by (cbn; lia).
  exact (AddSourceTerms_transparent_group unit_traits_binary64 source_hyper
           PrimFloat.nan PrimFloat.infinity small_power_binary64
           ideal_gas_temperature_binary64 ideal_gas_heat_capacity_binary64
           no_opacity_binary64 no_opacity_binary64 no_opacity_binary64
           (fun x => x) cell_at_rest_binary64 (fun _ => float_ofZ 0)
           (fun g => float_ofZ (Z.of_nat g)) (float_ofZ 1) 1%Z unit_layout_binary64
           consNew 0%nat Hzero Htau (or_introl eq_refl) Hg E).
Defined.

(** The kernel returns on the moving cell without velocity terms. *)
Lemma static_cell_update_returns :
  exists consNew,
    AddSourceTerms static_traits_binary64 source_hyper PrimFloat.nan PrimFloat.infinity
      small_power_binary64 ideal_gas_temperature_binary64 ideal_gas_heat_capacity_binary64
      unit_opacity_binary64 unit_opacity_binary64 unit_opacity_binary64 (fun x => x)
      moving_cell_binary64 (fun _ => float_ofZ 0) (fun g => float_ofZ (Z.of_nat g))
      (float_ofZ 1) 2%Z
    = Some consNew.
Proof.
  match goal with |- exists c, ?x = Some c => destruct x as [consNew |] eqn:E end;
    [now exists consNew|].
  match type of E with
  | ?x = None =>
      assert (Hsome : match x with Some _ => true | None => false end = true)
        by (vm_compute; reflexivity)
  end.
  rewrite E in Hsome. discriminate Hsome.
Qed.

Lemma static_layout_binary64 :
  (hydroFirstIndex static_traits_binary64 + 6 <= radFirstIndex static_traits_binary64)%nat.
Proof. cbn. lia. Qed.

Lemma AddSourceTerms_static_flux_witness :
  exists consNew,
    AddSourceTerms static_traits_binary64 source_hyper PrimFloat.nan PrimFloat.infinity
      small_power_binary64 ideal_gas_temperature_binary64 ideal_gas_heat_capacity_binary64
      unit_opacity_binary64 unit_opacity_binary64 unit_opacity_binary64 (fun x => x)
      moving_cell_binary64 (fun _ => float_ofZ 0) (fun g => float_ofZ (Z.of_nat g))
      (float_ofZ 1) 2%Z
    = Some consNew /\
    PrimFloat.eqb (consNew 7%nat) (PrimFloat.div (float_ofZ 1) (float_ofZ 3)) = true.
Proof.
  destruct static_cell_update_returns as [consNew E]. exists consNew. split; [exact E|].
  destruct (AddSourceTerms_static_flux static_traits_binary64 source_hyper
              PrimFloat.nan PrimFloat.infinity small_power_binary64
              ideal_gas_temperature_binary64 ideal_gas_heat_capacity_binary64
              unit_opacity_binary64 unit_opacity_binary64 unit_opacity_binary64
              (fun x => x) moving_cell_binary64 (fun _ => float_ofZ 0)
              (fun g => float_ofZ (Z.of_nat g)) (float_ofZ 1) 2%Z static_layout_binary64
              consNew eq_refl E) as (_ & Hflux).
  change (consNew 7%nat)
    with (consNew (radFirstIndex static_traits_binary64 + 1 + 0 + 4 * 0)%nat).
  rewrite (Hflux 0%nat 0%nat ltac:(cbn; lia) ltac:(lia)).
  vm_compute. reflexivity.
Defined.

(** ** The 3x3 branch of the flux update *)

(** X17. In exact arithmetic the branch of the flux update that builds
    the matrix [A = (1 + F_coeff) I + K0 v v^T] and calls [Solve3x3matrix]
    gives the same flux as the branch for [kappaF == kappaE]: because
    [gasVel] is value-initialised and never assigned, [A] is
    [(1 + F_coeff) I], and with velocity terms ([beta_order_ != 0]) every
    branch stores [(Frad_t0[n] + v_terms[n]) / (1 + F_coeff)], whatever
    [K0] is. *)
Theorem fluxUpdate_group_branches_agree (P : RadSystem_Traits R) (std_pow : R -> R -> R)
    (rho dt : R) (gasMtm0 : nat -> R) (l lv lvv : R)
    (fourPiBoverC kappaPVec kappaEVec kappaFVec EradVec_guess consPrev : nat -> R)
    (g : nat) (acc : (nat -> nat -> R) * (nat -> R)) (n : nat) :
  beta_order P <> 0%Z ->
  1 + c_hat P * rho * kappaFVec g * dt * l <> 0 ->
  (n < 3)%nat ->
  let Frad_t0 := consPrev (radFirstIndex P + 1 + n + 4 * g)%nat in
  let erad := EradVec_guess g in
  let Tedd := ComputeEddingtonTensor (consPrev (radFirstIndex P + 1 + 4 * g)%nat / (c_light P * erad))
                (consPrev (radFirstIndex P + 2 + 4 * g)%nat / (c_light P * erad))
                (consPrev (radFirstIndex P + 3 + 4 * g)%nat / (c_light P * erad)) in
  fst (fluxUpdate_group P std_pow rho dt gasMtm0 l lv lvv fourPiBoverC kappaPVec kappaEVec
         kappaFVec EradVec_guess consPrev g acc) n g
  = (Frad_t0 + v_terms P std_pow dt gasMtm0 lv fourPiBoverC kappaPVec kappaEVec kappaFVec
                 erad Tedd g n)
    / (1 + c_hat P * rho * kappaFVec g * dt * l).
Proof.
  intros Hbeta Hden Hn. cbv zeta.
  unfold fluxUpdate_group, beta_order_, c_hat_, c_light_. cbv zeta.
  apply Z.eqb_neq in Hbeta. rewrite Hbeta. cbn [negb].
  unfold x1RadFlux_index, x2RadFlux_index, x3RadFlux_index, nstartHyperbolic_, numRadVars_.
  set (V := v_terms P std_pow dt gasMtm0 lv fourPiBoverC kappaPVec kappaEVec kappaFVec _ _ g).
  set (X := 1 + c_hat P * rho * kappaFVec g * dt * l) in *.
  assert (Hrelaxed : forall F0 : nat -> R,
    fst (for_loop 3 (fun n acc =>
           let Frad_t1 := upd2 (fst acc) n g ((F0 n + V n) / X) in
           let dMomentum := upd (snd acc) n
                              (snd acc n + - (Frad_t1 n g - F0 n) / (c_light P * c_hat P)) in
           (Frad_t1, dMomentum)) (fst acc, snd acc)) n g = (F0 n + V n) / X).
  { intros F0. cbn [for_loop fst snd]. unfold upd2.
    destruct n as [| [| [| n]]]; try lia;
      repeat first [rewrite upd_eq | rewrite upd_neq by lia]; reflexivity. }
  real_ops. fold X.
  destruct (beta_order P =? 1)%Z; [| destruct (Reqb _ _)].
  - rewrite Hrelaxed. destruct n as [| [| [| n]]]; try lia; cbn [vec3];
      repeat match goal with
        | |- context [consPrev (?a + 1 + ?k + ?b)%nat] =>
            replace (a + 1 + k + b)%nat with (a + S k + b)%nat by lia
        end; reflexivity.
  - rewrite Hrelaxed. destruct n as [| [| [| n]]]; try lia; cbn [vec3];
      repeat match goal with
        | |- context [consPrev (?a + 1 + ?k + ?b)%nat] =>
            replace (a + 1 + k + b)%nat with (a + S k + b)%nat by lia
        end; reflexivity.
  - unfold Solve3x3matrix. cbv zeta. real_ops. cbn [vec3 fst]. unfold upd2.
    destruct n as [| [| [| n]]]; try lia;
      repeat first [rewrite upd_eq | rewrite upd_neq by lia];
      repeat match goal with
        | |- context [consPrev (?a + 1 + ?k + ?b)%nat] =>
            replace (a + 1 + k + b)%nat with (a + S k + b)%nat by lia
        end.
    all: set (K0 := 2 * rho * c_hat P * dt * (kappaFVec g - kappaEVec g) / c_light P
                    / c_light P * std_pow lvv 3);
      replace (K0 * 0 * 0) with 0 by ring;
      clearbody X V K0; field; exact Hden.
Qed.

Lemma fluxUpdate_group_branches_agree_witness :
  fst (fluxUpdate_group second_order_traits unit_power 1 1 (fun _ => 1) 1 1 1
         (fun _ => 1) (fun _ => 1) (fun _ => 1) (fun _ => 2) (fun _ => 1) equilibrium_cell
         0%nat (fun _ => zeros, zeros)) 0%nat 0%nat
  = (equilibrium_cell 7%nat
     + v_terms second_order_traits unit_power 1 (fun _ => 1) 1 (fun _ => 1) (fun _ => 1)
         (fun _ => 1) (fun _ => 2) 1
         (ComputeEddingtonTensor (equilibrium_cell 7%nat / (1 * 1))
            (equilibrium_cell 8%nat / (1 * 1)) (equilibrium_cell 9%nat / (1 * 1)))
         0%nat 0%nat)
    / (1 + 1 * 1 * 2 * 1 * 1).
Proof.
  apply (fluxUpdate_group_branches_agree second_order_traits unit_power 1 1 (fun _ => 1)
           1 1 1 (fun _ => 1) (fun _ => 1) (fun _ => 1) (fun _ => 2) (fun _ => 1)
           equilibrium_cell 0%nat (fun _ => zeros, zeros) 0%nat).
  - cbn. discriminate.
  - cbn. lra.
  - lia.
Defined.

(** ** The assertions of the source-term kernel *)

Section SourceTermsAssertions.

Context {T : Type} `{Scalar T}.
Variables (P : RadSystem_Traits T) (Hy : HyperParams T) (NAN infinity : T).
Variable std_pow : T -> T -> T.
Variable ComputeTgasFromEint : T -> T -> (nat -> T) -> T.
Variable ComputeEintTempDerivative : T -> T -> (nat -> T) -> T.
Variable ComputePlanckOpacity : T -> T -> nat -> T.
Variable ComputeEnergyMeanOpacity : T -> T -> nat -> T.
Variable ComputeFluxMeanOpacity : T -> T -> nat -> T.
Variable integrate_planck_from_0_to_x : T -> T.
Variables (consVar radEnergySource boundaries : nat -> T) (dt_radiation : T) (stage : Z).

Lemma vmin_geb_true (n : nat) (a : nat -> T) (lo : T) :
  vmin_geb n a lo = true -> forall g, (g < n)%nat -> s_leb lo (a g) = true.
Proof.
  unfold vmin_geb. induction n as [| n IH]; intros Hall g Hg; [lia|].
  cbn [for_loop] in Hall. apply andb_true_iff in Hall. destruct Hall as [Hrest Hn].
  destruct (Nat.eq_dec g n) as [-> | Hne]; [exact Hn | apply IH; [exact Hrest | lia]].
Qed.

(** For [gamma_ != 1.0] a pass that does not abort has passed the
    assertion [min(EradVec_guess) >= 0.0], and in the scheme that keeps
    the work term in the source (or without velocity terms) step 3 does
    not touch the radiation energies. *)
Lemma fullStepPass_nonnegative (ite : nat) (s s' : SourceState) (b : bool) (g : nat) :
  s_eqb (EOS_gamma P) (s_ofZ 1) = false ->
  include_work_term_in_source Hy = true \/ beta_order P = 0%Z ->
  fullStepPass P Hy NAN infinity std_pow ComputeTgasFromEint ComputeEintTempDerivative
    ComputePlanckOpacity ComputeEnergyMeanOpacity ComputeFluxMeanOpacity
    integrate_planck_from_0_to_x ite s consVar radEnergySource boundaries dt_radiation stage
  = Some (s', b) ->
  (g < nGroups P)%nat ->
  s_leb (s_ofZ 0) (ss_EradVec_guess s' g) = true.
Proof.
  intros Hgas Hscheme. unfold fullStepPass, gamma_. cbv zeta. rewrite Hgas.
  destruct (lorentzFactors P NAN _) as [[l lv] lvv].
  destruct (exchangeSetupAt _ _ _ _ _ _ _ _ _ _ _ _ _ _ _ _) as [ex st0].
  destruct (NewtonRaphson _ _ _ _ _ _ _ _ _ _ _ _) as [st conv].
  destruct (conv && _ && vmin_geb _ _ _) eqn:Eassert; cbn [negb]; [| discriminate].
  apply andb_true_iff in Eassert. destruct Eassert as [_ Hmin].
  pose proof (vmin_geb_true _ _ _ Hmin) as Hall.
  match goal with
  | |- context [let '(Frad_t1, dMomentum) := ?x in _] => destruct x as [F1 dM]
  end.
  assert (Hstep3 : forall (Eg Eg' : T) (X : T * (nat -> T)),
            snd (if negb (beta_order_ P =? 0)%Z
                 then if include_work_term_in_source Hy then (Eg', EradVec_guess st) else X
                 else (Eg, EradVec_guess st))
            = EradVec_guess st).
  { intros Eg Eg' X. unfold beta_order_.
    destruct Hscheme as [-> | ->]; [destruct (negb _) | cbn]; reflexivity. }
  match goal with
  | |- context [let '(Egas_guess, EradVec_guess) := ?x in _] =>
      pose proof (Hstep3 _ _ _ : snd x = _) as Hsnd; destruct x as [Eg Er]
  end.
  cbn [snd] in Hsnd. subst Er.
  destruct (_ || _).
  - intros [= <- <-] Hg. cbn [ss_EradVec_guess]. apply Hall. exact Hg.
  - match goal with
    | |- context [let '(work, work_prev) := ?x in _] => destruct x as [w wp]
    end.
    intros [= <- <-] Hg. cbn [ss_EradVec_guess]. apply Hall. exact Hg.
Qed.

(** X18. Over any arithmetic, for [gamma_ != 1.0], the instantiations in
    which the kernel stores radiation energies: in the scheme of the
    source, which keeps the work term in the source term (or without
    velocity terms), the radiation energy that the kernel of
    [AddSourceTerms] stores in a group passes the test [>= 0.0] that the
    assertion [min(EradVec_guess) >= 0.0] makes on it, after any number
    of passes of the full-step iteration: the kernel either aborts on one
    of its assertions or stores energies that pass this test. *)
Theorem AddSourceTerms_radiation_energy_nonnegative (consNew : nat -> T) (g : nat) :
  (hydroFirstIndex P + 6 <= radFirstIndex P)%nat ->
  s_eqb (EOS_gamma P) (s_ofZ 1) = false ->
  include_work_term_in_source Hy = true \/ beta_order P = 0%Z ->
  (g < nGroups P)%nat ->
  AddSourceTerms P Hy NAN infinity std_pow ComputeTgasFromEint ComputeEintTempDerivative
    ComputePlanckOpacity ComputeEnergyMeanOpacity ComputeFluxMeanOpacity
    integrate_planck_from_0_to_x consVar radEnergySource boundaries dt_radiation stage
  = Some consNew ->
  s_leb (s_ofZ 0) (consNew (radEnergy_index P + 4 * g)%nat) = true.
Proof.
  intros layout Hgas Hscheme Hg. unfold AddSourceTerms. cbv zeta.
  match goal with
  | |- match ?x with Some _ => _ | None => _ end = _ -> _ => destruct x as [s |] eqn:Eit
  end; [| discriminate].
  intros [= <-].
  destruct (fullStepIteration_last_pass P Hy NAN infinity std_pow ComputeTgasFromEint
              ComputeEintTempDerivative ComputePlanckOpacity ComputeEnergyMeanOpacity
              ComputeFluxMeanOpacity integrate_planck_from_0_to_x consVar radEnergySource
              boundaries dt_radiation stage _ _ _ _ Eit) as (ite' & s0 & Hpass).
  destruct (storeSourceTerms_entries P Hy consVar stage layout s)
    as (_ & _ & _ & _ & _ & _ & Hrad).
  cbv zeta in Hrad. destruct (Hrad g Hg) as (HE & _). rewrite HE, Hgas.
  exact (fullStepPass_nonnegative ite' s0 s true g Hgas Hscheme Hpass Hg).
Qed.

End SourceTermsAssertions.

Lemma AddSourceTerms_radiation_energy_nonnegative_witness :
  exists consNew,
    AddSourceTerms unit_traits_binary64 source_hyper PrimFloat.nan PrimFloat.infinity
      small_power_binary64 ideal_gas_temperature_binary64 ideal_gas_heat_capacity_binary64
      unit_opacity_binary64 unit_opacity_binary64 unit_opacity_binary64 (fun x => x)
      moving_cell_binary64 (fun _ => float_ofZ 0) (fun g => float_ofZ (Z.of_nat g))
      (float_ofZ 1) 2%Z
    = Some consNew /\
    PrimFloat.leb (float_ofZ 0) (consNew 6%nat) = true.
Proof.
  destruct moving_cell_update_returns as [consNew E]. exists consNew. split; [exact E|].
  assert (Hg : (0 < nGroups unit_traits_binary64)%nat) by (cbn; lia).
  assert (Hgas : s_eqb (EOS_gamma unit_traits_binary64) (s_ofZ 1) = false)
    by (vm_compute; reflexivity).
  exact (AddSourceTerms_radiation_energy_nonnegative unit_traits_binary64 source_hyper
           PrimFloat.nan PrimFloat.infinity small_power_binary64
           ideal_gas_temperature_binary64 ideal_gas_heat_capacity_binary64
           unit_opacity_binary64 unit_opacity_binary64 unit_opacity_binary64
           (fun x => x) moving_cell_binary64 (fun _ => float_ofZ 0)
           (fun g => float_ofZ (Z.of_nat g)) (float_ofZ 1) 2%Z consNew 0%nat
           unit_layout_binary64 Hgas (or_introl eq_refl) Hg E).
Defined.

(** ** The equation of state *)

Lemma Reqb_true (x y : R) : Reqb x y = true <-> x = y.
Proof. unfold Reqb; destruct (Req_dec_T x y); split; intros; try easy. Qed.

Lemma Reqb_false (x y : R) : Reqb x y = false <-> x <> y.
Proof. unfold Reqb; destruct (Req_dec_T x y); split; intros; try easy. Qed.

(** X19. For an adiabatic index other than [1] and a nonzero heat
    capacity per volume [rho c_v], the temperature and the internal
    energy of EOS.hpp are inverse to each other in exact arithmetic, and
    the internal energy is the temperature times its derivative
    [ComputeEintTempDerivative]; for the isothermal index [gamma = 1] the
    three functions return [NAN]. *)
Theorem EOS_roundtrip (E : EOS_Traits R) (NAN rho x : R) :
  (eos_gamma E <> 1 ->
   rho * EOS_c_v E <> 0 ->
   EOS_ComputeTgasFromEint E NAN rho (EOS_ComputeEintFromTgas E NAN rho x) = x /\
   EOS_ComputeEintFromTgas E NAN rho (EOS_ComputeTgasFromEint E NAN rho x) = x /\
   EOS_ComputeEintFromTgas E NAN rho x = EOS_ComputeEintTempDerivative E NAN rho x * x) /\
  (eos_gamma E = 1 ->
   EOS_ComputeTgasFromEint E NAN rho x = NAN /\
   EOS_ComputeEintFromTgas E NAN rho x = NAN /\
   EOS_ComputeEintTempDerivative E NAN rho x = NAN).
Proof.
  unfold EOS_ComputeTgasFromEint, EOS_ComputeEintFromTgas, EOS_ComputeEintTempDerivative.
  real_ops. split.
  - intros Hgamma Hcv. apply Reqb_false in Hgamma. rewrite Hgamma. cbn [negb].
    set (cv := EOS_c_v E) in *.
    assert (Hrho : rho <> 0) by (intros ->; apply Hcv; ring).
    assert (Hcv' : cv <> 0) by (intros Hz; apply Hcv; rewrite Hz; ring).
    repeat split; try ring; field; split; assumption.
  - intros Hgamma. apply Reqb_true in Hgamma. rewrite Hgamma. cbn [negb]. repeat split.
Qed.

Lemma EOS_roundtrip_witness :
  EOS_ComputeTgasFromEint monatomic_gas 0 2 (EOS_ComputeEintFromTgas monatomic_gas 0 2 7) = 7.
Proof.
  assert (Hgamma : eos_gamma monatomic_gas <> 1) by (cbn; lra).
  assert (Hcv : 2 * EOS_c_v monatomic_gas <> 0).
  { unfold EOS_c_v. cbn. real_ops. 
    replace (2 * (1 / (1 * (5 / 3 - 1)))) with 3 by field. lra. }
  exact (proj1 (proj1 (EOS_roundtrip monatomic_gas 0 2 7) Hgamma Hcv)).
Defined.
(** ** Slope limiters *)

Lemma std_min_Rmin (a b : R) : std_min a b = Rmin a b.
Proof.
  unfold std_min. real_ops. case_Rltb b a.
  - now rewrite Rmin_right by lra.
  - now rewrite Rmin_left by lra.
Qed.

Lemma Rmin_zero (u v : R) : 0 <= u -> 0 <= v -> u = 0 \/ v = 0 -> Rmin u v = 0.
Proof.
  intros Hu Hv [-> | ->]; [now rewrite Rmin_left | now rewrite Rmin_right].
Qed.

(** X20. With [sgn] the sign function, [minmod_func] and [MC] are slope
    limiters in exact arithmetic: both are symmetric and vanish when
    their arguments do not have the same strict sign; for two positive
    arguments [minmod_func] is the smaller one and [MC] the smallest of
    the mean, [2 a] and [2 b]; for two negative arguments they are the
    negatives of these values at [-a], [-b]. *)
Theorem limiters_select_the_smaller_slope (sgn : R -> Z) (a b : R) :
  (forall x, 0 < x -> sgn x = 1%Z) ->
  (forall x, x < 0 -> sgn x = (-1)%Z) ->
  sgn 0 = 0%Z ->
  (minmod_func sgn a b = minmod_func sgn b a /\ MC sgn a b = MC sgn b a) /\
  (a * b <= 0 -> minmod_func sgn a b = 0 /\ MC sgn a b = 0) /\
  (0 < a -> 0 < b ->
   minmod_func sgn a b = Rmin a b /\
   MC sgn a b = Rmin ((a + b) / 2) (Rmin (2 * a) (2 * b))) /\
  (a < 0 -> b < 0 ->
   minmod_func sgn a b = Rmax a b /\
   MC sgn a b = Rmax ((a + b) / 2) (Rmax (2 * a) (2 * b))).
Proof.
  intros Hpos Hneg Hzero.
  unfold minmod_func, MC. rewrite !std_min_Rmin. real_ops.
  assert (Hsgn : forall x, (0 < x /\ sgn x = 1%Z) \/ (x < 0 /\ sgn x = (-1)%Z)
                           \/ (x = 0 /\ sgn x = 0%Z)).
  { intros x. destruct (Rtotal_order 0 x) as [Hx | [Hx | Hx]].
    - left. split; [exact Hx | apply Hpos; exact Hx].
    - right. right. split; [lra | subst x; exact Hzero].
    - right. left. split; [lra | apply Hneg; lra]. }
  split; [| split; [| split]].
  - rewrite (Z.add_comm (sgn b) (sgn a)), (Rmin_comm (Rabs b) (Rabs a)),
      (Rplus_comm b a), (Rmin_comm (2 * Rabs b) (2 * Rabs a)).
    split; reflexivity.
  - intros Hab.
    assert (Hmin0 : a = 0 \/ b = 0 ->
              Rmin (Rabs a) (Rabs b) = 0 /\
              Rmin (1 / 2 * Rabs (a + b)) (Rmin (2 * Rabs a) (2 * Rabs b)) = 0).
    { intros Hz.
      pose proof (Rabs_pos a). pose proof (Rabs_pos b). pose proof (Rabs_pos (a + b)).
      assert (Hz' : Rabs a = 0 \/ Rabs b = 0)
        by (destruct Hz as [-> | ->]; rewrite Rabs_R0; auto).
      assert (Hinner : Rmin (2 * Rabs a) (2 * Rabs b) = 0)
        by (apply Rmin_zero; [lra | lra | destruct Hz'; [left | right]; lra]).
      split.
      - apply Rmin_zero; assumption.
      - rewrite Hinner. apply Rmin_zero; [lra | lra | now right]. }
    destruct (Hsgn a) as [[Ha Ea] | [[Ha Ea] | [Ha Ea]]];
      destruct (Hsgn b) as [[Hb Eb] | [[Hb Eb] | [Hb Eb]]];
      try (exfalso; nra); rewrite Ea, Eb.
    all: cbn [Z.add Z.opp Z.pos_sub];
      first [ split; ring
            | destruct Hmin0 as [M1 M2]; [auto |]; rewrite M1, M2; split; ring ].
  - intros Ha Hb. rewrite (Hpos a Ha), (Hpos b Hb). cbn [Z.add Pos.add Pos.succ].
    rewrite !Rabs_pos_eq by lra. split.
    + field.
    + replace (1 / 2 * (a + b)) with ((a + b) / 2) by field. field.
  - intros Ha Hb. rewrite (Hneg a Ha), (Hneg b Hb). cbn [Z.add Pos.add Pos.succ].
    rewrite !Rabs_left by lra.
    replace (2 * - a) with (- (2 * a)) by ring.
    replace (2 * - b) with (- (2 * b)) by ring.
    replace (1 / 2 * - (a + b)) with (- ((a + b) / 2)) by field.
    rewrite <- !Ropp_Rmax. split; field.
Qed.

Lemma sign_of_spec :
  (forall x, 0 < x -> sign_of x = 1%Z) /\
  (forall x, x < 0 -> sign_of x = (-1)%Z) /\
  sign_of 0 = 0%Z.
Proof.
  unfold sign_of. repeat split.
  - intros x Hx. case_Rltb 0 x; [| lra]. case_Rltb x 0; [lra | reflexivity].
  - intros x Hx. case_Rltb 0 x; [lra |]. case_Rltb x 0; [reflexivity | lra].
  - case_Rltb 0 0; [lra | reflexivity].
Qed.

Lemma limiters_select_the_smaller_slope_witness :
  minmod_func sign_of 2 3 = Rmin 2 3 /\
  MC sign_of 2 3 = Rmin ((2 + 3) / 2) (Rmin (2 * 2) (2 * 3)).
Proof.
  destruct sign_of_spec as (Hpos & Hneg & Hzero).
  apply (proj1 (proj2 (proj2 (limiters_select_the_smaller_slope sign_of 2 3
                                Hpos Hneg Hzero)))); lra.
Defined.

(** ** Group-mean opacities *)

(** X21. In exact arithmetic the group-mean opacity of a group whose
    opacity does not depend on frequency (exponent [alpha_kappa[g] = 0])
    is the opacity [kappa_lower[g]] at the lower boundary of the group,
    whatever the exponent of the weighting quantity and the ratio of the
    group boundaries are, as long as the integral [part1] of the weight
    over the group is not zero; in general it is
    [kappa_lower[g] / part1 * part2]. *)
Theorem ComputeGroupMeanOpacity_flat (P : RadSystem_Traits R) (std_log : R -> R)
    (std_pow : R -> R -> R) (alpha_kappa kappa_lower radBoundaryRatios alpha_quant : nat -> R)
    (g : nat) :
  (g < nGroups P)%nat ->
  let kappa := ComputeGroupMeanOpacity P std_log std_pow alpha_kappa kappa_lower
                 radBoundaryRatios alpha_quant in
  let part1 := powerLawIntegral std_log std_pow (radBoundaryRatios g) (alpha_quant g + 1) in
  let part2 := powerLawIntegral std_log std_pow (radBoundaryRatios g)
                 (alpha_quant g + alpha_kappa g + 1) in
  kappa g = kappa_lower g / part1 * part2 /\
  (alpha_kappa g = 0 -> part1 <> 0 -> kappa g = kappa_lower g).
Proof.
  intros Hg kappa part1 part2.
  assert (Hentry : kappa g = kappa_lower g / part1 * part2).
  { unfold kappa, ComputeGroupMeanOpacity, nGroups_. cbv zeta.
    rewrite (fill_loop_entry (nGroups P) g (fun g => _) zeros Hg). reflexivity. }
  split; [exact Hentry|].
  intros Hflat Hpart. rewrite Hentry. unfold part2. rewrite Hflat.
  replace (alpha_quant g + 0 + 1) with (alpha_quant g + 1) by ring. fold part1.
  field. exact Hpart.
Qed.

Lemma ComputeGroupMeanOpacity_flat_witness :
  ComputeGroupMeanOpacity two_group_traits (fun x => x) (fun x _ => x) (fun _ => 0)
    (fun _ => 5) (fun _ => 2) (fun _ => 1) 0%nat
  = 5 / powerLawIntegral (fun x => x) (fun x _ => x) 2 (1 + 1)
    * powerLawIntegral (fun x => x) (fun x _ => x) 2 (1 + 0 + 1).
Proof.
  assert (Hg : (0 < nGroups two_group_traits)%nat) by (cbn; lia).
  exact (proj1 (ComputeGroupMeanOpacity_flat two_group_traits (fun x => x) (fun x _ => x)
                  (fun _ => 0) (fun _ => 5) (fun _ => 2) (fun _ => 1) 0%nat Hg)).
Defined.
(** ** Power-law exponents *)

(** The tables after [m] passes of the first loop. *)
Lemma exponentTables_entries {T : Type} `{Scalar T} (std_log : T -> T) (inf : T)
    (quant boundaries : nat -> T) (m : nat) :
  let tb := for_loop m (fun g tb =>
    let bin_center := upd (bin_center tb) g (s_sqrt (s_mul (boundaries g) (boundaries (g + 1)%nat))) in
    let quant_mean :=
      upd (quant_mean tb) g (s_div (quant g) (s_sub (boundaries (g + 1)%nat) (boundaries g))) in
    let logslopes :=
      if (0 <? g)%nat then
        if s_eqb (quant_mean g) (s_ofZ 0) && s_eqb (quant_mean (g - 1)%nat) (s_ofZ 0) then
          upd (logslopes tb) (g - 1) (s_ofZ 0)
        else if s_leb (s_mul (quant_mean (g - 1)%nat) (quant_mean g)) (s_ofZ 0) then
          if s_ltb (quant_mean (g - 1)%nat) (quant_mean g)
          then upd (logslopes tb) (g - 1) inf
          else upd (logslopes tb) (g - 1) (s_opp inf)
        else
          upd (logslopes tb) (g - 1)
              (s_div (std_log (s_abs (s_div (quant_mean g) (quant_mean (g - 1)%nat))))
                     (std_log (s_div (bin_center g) (bin_center (g - 1)%nat))))
      else logslopes tb in
    {| bin_center := bin_center; quant_mean := quant_mean; logslopes := logslopes |})
    {| bin_center := zeros; quant_mean := zeros; logslopes := zeros |} in
  (forall k, (k < m)%nat ->
     bin_center tb k = s_sqrt (s_mul (boundaries k) (boundaries (k + 1)%nat)) /\
     quant_mean tb k = s_div (quant k) (s_sub (boundaries (k + 1)%nat) (boundaries k))) /\
  (forall k, (k + 1 < m)%nat -> logslopes tb k = logslope std_log inf quant boundaries k).
Proof.
  induction m as [| m IH]; cbv zeta.
  - split; intros k Hk; lia.
  - cbn [for_loop]. cbv zeta in IH. destruct IH as [IHc IHs].
    set (tb := for_loop m _ _) in *.
    cbn [bin_center quant_mean logslopes]. split.
    + intros k Hk. destruct (Nat.eq_dec k m) as [-> | Hne].
      * now rewrite !upd_eq.
      * rewrite !upd_neq by exact Hne. apply IHc. lia.
    + intros k Hk. rewrite !upd_eq.
      destruct m as [| m]; [lia|].
      cbn [Nat.ltb Nat.leb]. replace (S m - 1)%nat with m by lia.
      rewrite !upd_neq by lia.
      destruct (IHc m ltac:(lia)) as [Hc Hq]. rewrite Hc, Hq.
      assert (Hsame : k = m -> logslope std_log inf quant boundaries k
                = if s_eqb (s_div (quant (S m)) (s_sub (boundaries (S m + 1)%nat) (boundaries (S m))))
                           (s_ofZ 0)
                     && s_eqb (s_div (quant m) (s_sub (boundaries (m + 1)%nat) (boundaries m)))
                              (s_ofZ 0)
                  then s_ofZ 0
                  else if s_leb (s_mul (s_div (quant m) (s_sub (boundaries (m + 1)%nat) (boundaries m)))
                                       (s_div (quant (S m))
                                          (s_sub (boundaries (S m + 1)%nat) (boundaries (S m)))))
                                (s_ofZ 0)
                  then if s_ltb (s_div (quant m) (s_sub (boundaries (m + 1)%nat) (boundaries m)))
                                (s_div (quant (S m))
                                   (s_sub (boundaries (S m + 1)%nat) (boundaries (S m))))
                       then inf else s_opp inf
                  else s_div (std_log (s_abs (s_div
                                (s_div (quant (S m))
                                   (s_sub (boundaries (S m + 1)%nat) (boundaries (S m))))
                                (s_div (quant m) (s_sub (boundaries (m + 1)%nat) (boundaries m))))))
                             (std_log (s_div
                                (s_sqrt (s_mul (boundaries (S m)) (boundaries (S m + 1)%nat)))
                                (s_sqrt (s_mul (boundaries m) (boundaries (m + 1)%nat)))))).
      { intros ->. unfold logslope. cbv zeta.
        replace (m + 1)%nat with (S m) by lia. reflexivity. }
      destruct (Nat.eq_dec k m) as [Hkm | Hne].
      * rewrite (Hsame Hkm). subst k.
        repeat match goal with
          | |- context [if ?b then _ else _] => destruct b
          end; now rewrite upd_eq.
      * repeat match goal with
          | |- context [if ?b then _ else _] => destruct b
          end; rewrite upd_neq by exact Hne; apply IHs; lia.
Qed.

(** A loop that writes entry [n] in either branch of a test writes it
    once. *)
Lemma branch_loop_entry {T : Type} (m n : nat) (c : nat -> bool) (x y : nat -> T)
    (init : nat -> T) :
  (n < m)%nat ->
  for_loop m (fun n a => if c n then upd a n (x n) else upd a n (y n)) init n
  = if c n then x n else y n.
Proof.
  induction m as [| m IH]; intros Hn; [lia|].
  cbn [for_loop]. destruct (Nat.eq_dec n m) as [-> | Hne].
  - destruct (c m); apply upd_eq.
  - destruct (c m); rewrite upd_neq by exact Hne; apply IH; lia.
Qed.

(** X22. Over any arithmetic: the exponents that
    [ComputeRadQuantityExponents] returns are [0] for the first and the
    last group, and for a group [g] in between the [minmod_func] of the
    two logarithmic slopes next to it, the one between the groups [g - 1]
    and [g] and the one between [g] and [g + 1]. *)
Theorem ComputeRadQuantityExponents_entries {T : Type} `{Scalar T}
    (P : RadSystem_Traits T) (sgn : T -> Z) (std_log : T -> T) (inf : T)
    (quant boundaries : nat -> T) (g : nat) :
  (g < nGroups P)%nat ->
  ComputeRadQuantityExponents P sgn std_log inf quant boundaries g
  = if (g =? 0)%nat || (g =? nGroups P - 1)%nat then s_ofZ 0
    else minmod_func sgn (logslope std_log inf quant boundaries (g - 1))
                         (logslope std_log inf quant boundaries g).
Proof.
  intros Hg. unfold ComputeRadQuantityExponents, nGroups_. cbv zeta.
  rewrite (branch_loop_entry (nGroups P) g
             (fun g => (g =? 0)%nat || (g =? nGroups P - 1)%nat) (fun _ => s_ofZ 0)
             (fun g => minmod_func sgn _ _) zeros Hg).
  destruct ((g =? 0)%nat || (g =? nGroups P - 1)%nat) eqn:Eend; [reflexivity|].
  apply orb_false_iff in Eend. destruct Eend as [E0 E1].
  apply Nat.eqb_neq in E0. apply Nat.eqb_neq in E1.
  destruct (exponentTables_entries std_log inf quant boundaries (nGroups P)) as [_ Hs].
  unfold exponentTables, nGroups_. cbv zeta in Hs.
  now rewrite !Hs by lia.
Qed.

Lemma ComputeRadQuantityExponents_entries_witness :
  ComputeRadQuantityExponents three_group_traits sign_of (fun x => x) 1
    (fun _ => 1) (fun g => INR g) 1%nat
  = minmod_func sign_of (logslope (fun x => x) 1 (fun _ => 1) (fun g => INR g) 0)
                        (logslope (fun x => x) 1 (fun _ => 1) (fun g => INR g) 1).
Proof.
  assert (Hg : (1 < nGroups three_group_traits)%nat) by (cbn; lia).
  exact (ComputeRadQuantityExponents_entries three_group_traits sign_of (fun x => x) 1
           (fun _ => 1) (fun g => INR g) 1%nat Hg).
Defined.

(** ** Consistency of the interface flux *)



(** ** Radiation substeps *)

Lemma ceil_R_spec (x : R) : IZR (ceil_R x) - 1 < x <= IZR (ceil_R x).
Proof.
  unfold ceil_R. destruct (archimed (- x)) as [Hup Hlow].
  rewrite minus_IZR. lra.
Qed.

(** X24. With [std::ceil] the ceiling, in exact arithmetic: a run without
    hydrodynamics ([is_hydro_enabled_ = false], the default) never gets
    past the assertions of [subcycleRadiationAtLevel], because
    [nsubSteps] is still [0]; with hydrodynamics, when the assertions
    hold, there are between [1] and [9999] substeps, the substeps make up
    the hydro time step exactly, [nsubSteps * dt_radiation = dt_hydro],
    and each of them is positive and at most the radiation CFL step
    [radiationCflNumber_ * dx_min / c_hat]. *)
Theorem subcycleRadiationAtLevel_substeps (P : RadSystem_Traits R) (d : SpaceDim) (NAN : R)
    (std_ceil : R -> Z) (radiationCflNumber_ : R) (dx : nat -> R) (dt_lev_hydro : R) :
  (forall x : R, IZR (std_ceil x) - 1 < x <= IZR (std_ceil x)) ->
  subcycleRadiationAtLevel P d NAN std_ceil radiationCflNumber_ false dx dt_lev_hydro = None /\
  (forall (nsubSteps : Z) (dt_radiation : R),
     subcycleRadiationAtLevel P d NAN std_ceil radiationCflNumber_ true dx dt_lev_hydro
     = Some (nsubSteps, dt_radiation) ->
     (1 <= nsubSteps < 10000)%Z /\
     0 < dt_radiation /\
     IZR nsubSteps * dt_radiation = dt_lev_hydro /\
     dt_radiation <= radiationCflNumber_ * (dx_min d dx / c_hat P)).
Proof.
  intros Hceil. unfold subcycleRadiationAtLevel, c_hat_. cbv zeta. split.
  - cbn [Z.leb andb]. reflexivity.
  - intros n dt. real_ops.
    set (dtrad := radiationCflNumber_ * (dx_min d dx / c_hat P)).
    set (q := dt_lev_hydro / dtrad).
    destruct (1 <=? std_ceil q)%Z eqn:E1; [| discriminate].
    case_Rltb (IZR (std_ceil q)) 10000; [| discriminate].
    case_Rltb 0 (dt_lev_hydro / IZR (std_ceil q)); [| discriminate].
    cbn [andb]. intros [= <- <-].
    apply Z.leb_le in E1. pose proof (IZR_le _ _ E1) as Hn1.
    destruct (Hceil q) as [Hlow Hup].
    assert (Hn : 0 < IZR (std_ceil q)) by lra.
    assert (Hq : 0 < q) by lra.
    assert (Hhydro : 0 < dt_lev_hydro).
    { apply (Rmult_lt_compat_r (IZR (std_ceil q))) in E0; [| exact Hn].
      unfold Rdiv in E0. rewrite Rmult_assoc, Rinv_l, Rmult_1_r in E0 by lra. lra. }
    assert (Hdtrad : 0 < dtrad).
    { destruct (Rlt_le_dec 0 dtrad) as [Hpos | Hneg]; [exact Hpos|].
      exfalso. unfold q, Rdiv in Hq.
      destruct (Req_dec dtrad 0) as [Hz | Hnz].
      - rewrite Hz, Rinv_0 in Hq. lra.
      - assert (/ dtrad < 0) by (apply Rinv_lt_0_compat; lra). nra. }
    repeat split.
    + exact E1.
    + apply lt_IZR. exact E.
    + exact E0.
    + field. lra.
    + apply (Rmult_le_reg_r (IZR (std_ceil q))); [exact Hn|].
      unfold Rdiv. rewrite Rmult_assoc, Rinv_l, Rmult_1_r by lra.
      assert (Hqd : q * dtrad = dt_lev_hydro) by (unfold q; field; lra).
      nra.
Qed.

Lemma ceil_R_unique (x : R) (n : Z) : IZR n - 1 < x <= IZR n -> ceil_R x = n.
Proof.
  intros [Hlow Hup]. destruct (ceil_R_spec x) as [Clow Cup].
  assert (H1 : (ceil_R x < n + 1)%Z) by (apply lt_IZR; rewrite plus_IZR; lra).
  assert (H2 : (n < ceil_R x + 1)%Z) by (apply lt_IZR; rewrite plus_IZR; lra).
  lia.
Qed.

(** A hydro step of [1] with the CFL step [0.3] takes four substeps of
    [1/4]. *)
Lemma four_substeps :
  subcycleRadiationAtLevel unit_traits Dim1 0 ceil_R (3 / 10) true (fun _ => 1) 1
  = Some (4%Z, 1 / 4).
Proof.
  unfold subcycleRadiationAtLevel, c_hat_, dx_min. cbv zeta.
  cbn [c_hat unit_traits]. real_ops.
  rewrite (ceil_R_unique (1 / (3 / 10 * (1 / 1))) 4) by (split; lra).
  cbn [Z.leb Z.compare Pos.compare Pos.compare_cont andb].
  case_Rltb 4 10000; [| lra]. case_Rltb 0 (1 / 4); [| lra]. reflexivity.
Qed.

Lemma subcycleRadiationAtLevel_substeps_witness :
  subcycleRadiationAtLevel unit_traits Dim1 0 ceil_R (3 / 10) false (fun _ => 1) 1 = None /\
  4 * (1 / 4) = 1.
Proof.
  destruct (subcycleRadiationAtLevel_substeps unit_traits Dim1 0 ceil_R (3 / 10)
              (fun _ => 1) 1 ceil_R_spec) as [Hnone Hsome].
  split; [exact Hnone|].
  exact (proj1 (proj2 (proj2 (Hsome 4%Z (1 / 4) four_substeps)))).
Defined.
(** ** Refinement tags *)

(** X25. The kernel of [ErrorEst] only ever sets a tag: a cell that is
    tagged stays tagged.  In exact arithmetic a density that is linear in
    x and in y has no curvature and leaves the tag of the cell as it
    was, and the decision does not change when all five densities are
    multiplied by the same positive factor: the test is on the relative
    curvature [|delsq_x + delsq_y| / rho > 0.01]. *)
Theorem ErrorEst_curvature (s a b k sp sm tp tm : R) (tag : TagVal) :
  ErrorEst s sp sm tp tm SET = SET /\
  ErrorEst s (s + a) (s - a) (s + b) (s - b) tag = tag /\
  (0 < k ->
   ErrorEst (k * s) (k * sp) (k * sm) (k * tp) (k * tm) tag = ErrorEst s sp sm tp tm tag).
Proof.
  unfold ErrorEst. cbv zeta. real_ops. split; [| split].
  - destruct (Rltb _ _); reflexivity.
  - replace (s + a - 2 * s + (s - a) + (s + b - 2 * s + (s - b))) with 0 by ring.
    rewrite Rabs_R0. unfold Rdiv at 2. rewrite Rmult_0_l.
    case_Rltb (1 / 100) 0; [lra | reflexivity].
  - intros Hk.
    replace (k * sp - 2 * (k * s) + k * sm + (k * tp - 2 * (k * s) + k * tm))
      with (k * (sp - 2 * s + sm + (tp - 2 * s + tm))) by ring.
    rewrite Rabs_mult, (Rabs_pos_eq k) by lra.
    destruct (Req_dec s 0) as [-> | Hs].
    + unfold Rdiv. rewrite (Rmult_0_r k), Rinv_0, !Rmult_0_r. reflexivity.
    + replace (k * Rabs (sp - 2 * s + sm + (tp - 2 * s + tm)) / (k * s))
        with (Rabs (sp - 2 * s + sm + (tp - 2 * s + tm)) / s) by (field; split; lra).
      reflexivity.
Qed.

Lemma ErrorEst_curvature_witness :
  ErrorEst (2 * 1) (2 * 3) (2 * 1) (2 * 1) (2 * 1) CLEAR = ErrorEst 1 3 1 1 1 CLEAR.
Proof.
  apply (proj2 (proj2 (ErrorEst_curvature 1 0 0 2 3 1 1 1 CLEAR))). lra.
Defined.

(** ** The pulse test *)

(** X26. The remapping of the advected profile in the pulse test is a
    rotation.  For a grid of [nx > 0] cells and a pulse that has moved by
    [n_p >= 0] cells, the shift lies in [[-half, nx - half)], every cell
    [i] is sent to the index [(i - shift) mod nx] in [[0, nx)], and
    different cells are sent to different indices: no access of the
    output arrays is out of range, and every entry is written exactly
    once.  The counts are below [2^30], so that no operation on [int]
    overflows. *)
Theorem pulse_index_rotation (nx n_p i : Z) :
  (0 < nx < 2 ^ 30)%Z -> (0 <= n_p < 2 ^ 30)%Z -> (0 <= i < nx)%Z ->
  let half := pulse_half nx in
  let shift := pulse_shift n_p half nx in
  (- half <= shift < nx - half)%Z /\
  (0 <= pulse_index shift nx i < nx)%Z /\
  pulse_index shift nx i = ((i - shift) mod nx)%Z /\
  (forall j : Z, (0 <= j < nx)%Z -> pulse_index shift nx j = pulse_index shift nx i -> j = i).
Proof.
  intros [Hnx _] [Hnp _] Hi half shift.
  assert (Hhalf : (0 <= half <= nx)%Z).
  { unfold half, pulse_half. rewrite Z.quot_div_nonneg by lia.
    split; [apply Z.div_pos; lia | apply Z.div_le_upper_bound; lia]. }
  assert (Hshift : shift = ((n_p + half) mod nx - half)%Z).
  { unfold shift, pulse_shift. rewrite Z.quot_div_nonneg by lia.
    pose proof (Z.div_mod (n_p + half) nx ltac:(lia)). lia. }
  assert (Hrange : (- half <= shift < nx - half)%Z).
  { rewrite Hshift. pose proof (Z.mod_pos_bound (n_p + half) nx Hnx). lia. }
  assert (Hindex : forall j, (0 <= j < nx)%Z ->
            (0 <= pulse_index shift nx j < nx)%Z /\
            (pulse_index shift nx j = j - shift \/ pulse_index shift nx j = j - shift + nx
             \/ pulse_index shift nx j = j - shift - nx)%Z).
  { intros j Hj. unfold pulse_index.
    destruct (shift >=? 0)%Z eqn:E1; [apply Z.geb_le in E1 | rewrite Z.geb_leb in E1;
                                       apply Z.leb_gt in E1].
    - destruct (j <? shift)%Z eqn:E2; [apply Z.ltb_lt in E2 | apply Z.ltb_ge in E2]; lia.
    - destruct (j <=? nx - 1 + shift)%Z eqn:E2;
        [apply Z.leb_le in E2 | apply Z.leb_gt in E2]; lia. }
  assert (Hmod : forall j, (0 <= j < nx)%Z ->
            pulse_index shift nx j = ((j - shift) mod nx)%Z).
  { intros j Hj. destruct (Hindex j Hj) as [Hb Hform].
    destruct Hform as [Hf | [Hf | Hf]].
    - apply Z.mod_unique_pos with (q := 0%Z); [exact Hb | lia].
    - apply Z.mod_unique_pos with (q := (-1)%Z); [exact Hb | lia].
    - apply Z.mod_unique_pos with (q := 1%Z); [exact Hb | lia]. }
  split; [exact Hrange | split; [apply Hindex; exact Hi | split; [apply Hmod; exact Hi |]]].
  intros j Hj Heq.
  destruct (Hindex j Hj) as [_ Fj]. destruct (Hindex i Hi) as [_ Fi].
  lia.
Qed.

Lemma pulse_index_rotation_witness :
  pulse_index (pulse_shift 7 (pulse_half 10) 10) 10 0 = ((0 - pulse_shift 7 (pulse_half 10) 10) mod 10)%Z.
Proof.
  apply (proj1 (proj2 (proj2 (pulse_index_rotation 10 7 0 ltac:(lia) ltac:(lia) ltac:(lia))))).
Defined.

(** X27. The initial temperature of the pulse test in exact arithmetic,
    with the real exponential function for [std::exp]: the profile is
    even, it has its maximum [T1 = 2e7] at the centre of the pulse, and
    everywhere it lies above the background temperature [T0 = 1e7] and at
    most at [T1].  The strict lower bound is a property of the real
    exponential, which is never zero. *)
Theorem compute_initial_Tgas_profile (x : R) :
  compute_initial_Tgas exp 0 = T1 /\
  compute_initial_Tgas exp (- x) = compute_initial_Tgas exp x /\
  T0 < compute_initial_Tgas exp x <= T1.
Proof.
  unfold compute_initial_Tgas, T0, T1, width. cbv zeta. real_ops.
  split; [| split].
  - replace (- 0 * 0 / (2 * 24 * 24)) with 0 by field. rewrite exp_0. ring.
  - replace (- - x * - x / (2 * 24 * 24)) with (- x * x / (2 * 24 * 24)) by field.
    reflexivity.
  - set (e := exp (- x * x / (2 * 24 * 24))).
    assert (He : 0 < e <= 1).
    { split; [apply exp_pos|]. unfold e. rewrite <- exp_0.
      destruct (Req_dec x 0) as [-> | Hx].
      - right. f_equal. field.
      - left. apply exp_increasing. 
        assert (0 < x * x) by nra.
        replace (- x * x / (2 * 24 * 24)) with (- (x * x / 1152)) by field. lra. }
    nra.
Qed.

(** ** The wavespeed correction *)

(** X28. In exact arithmetic the wavespeed correction only ever reduces
    the dissipation of the energy equation: the factors [epsilon] of the
    three flux components are [1], the factor of the energy component is
    [min(1, 1 / tau_cell)] on the faces with [i + j + k] even when the
    correction is switched on and [1] otherwise, and for a positive
    optical depth it lies in [(0, 1]].  The optical depth of the face is
    the harmonic mean [2 tau_L tau_R / (tau_L + tau_R)] of the optical
    depths of the two cells. *)
Theorem wavespeedCorrection_range (P : RadSystem_Traits R) (Hy : HyperParams R) (NAN : R)
    (ComputeTgasFromEint : R -> R -> (nat -> R) -> R)
    (ComputeFluxMeanOpacity : R -> R -> nat -> R)
    (i j k : Z) (tau_cell : nat -> R) (g : nat) (DIR : FluxDir)
    (consVar_im1 consVar_i dx : nat -> R) :
  let epsilon := wavespeedCorrection Hy i j k tau_cell g in
  (forall n, (0 < n)%nat -> epsilon n = 1) /\
  (use_wavespeed_correction Hy = false \/ Z.rem (i + j + k) 2 <> 0%Z -> epsilon 0%nat = 1) /\
  (use_wavespeed_correction Hy = true -> Z.rem (i + j + k) 2 = 0%Z ->
   epsilon 0%nat = Rmin 1 (1 / tau_cell g)) /\
  (0 < tau_cell g -> 0 < epsilon 0%nat <= 1) /\
  (EOS_gamma P <> 1 ->
   let Tgas := fun cons =>
     ComputeTgasFromEint (cons (hydroFirstIndex P))
       (ComputeEintFromEgas (cons (hydroFirstIndex P)) (cons (hydroFirstIndex P + 1)%nat)
          (cons (hydroFirstIndex P + 2)%nat) (cons (hydroFirstIndex P + 3)%nat)
          (cons (hydroFirstIndex P + 4)%nat))
       (ComputeMassScalars P cons) in
   let dl := match DIR with X1 => dx 0%nat | X2 => dx 1%nat | X3 => dx 2%nat end in
   let tau := fun cons => dl * cons (hydroFirstIndex P)
                          * ComputeFluxMeanOpacity (cons (hydroFirstIndex P)) (Tgas cons) g in
   ComputeCellOpticalDepth P NAN ComputeTgasFromEint ComputeFluxMeanOpacity DIR
     consVar_im1 consVar_i dx g
   = tau consVar_im1 * tau consVar_i * 2 / (tau consVar_im1 + tau consVar_i)).
Proof.
  intros epsilon. subst epsilon. unfold wavespeedCorrection. cbv zeta.
  split; [| split; [| split; [| split]]].
  - intros n Hn. destruct n as [| [| [| n]]]; [lia | | |];
      destruct (use_wavespeed_correction Hy); try destruct (Z.eqb _ _); reflexivity.
  - intros [-> | Hodd]; [reflexivity|].
    apply Z.eqb_neq in Hodd. rewrite Hodd. now destruct (use_wavespeed_correction Hy).
  - intros -> Heven. apply Z.eqb_eq in Heven. rewrite Heven. cbn [vec4].
    apply std_min_Rmin.
  - intros Htau.
    assert (Hmin : 0 < std_min 1 (1 / tau_cell g) <= 1).
    { rewrite std_min_Rmin. split.
      - apply Rmin_glb_lt; [lra | apply Rdiv_lt_0_compat; lra].
      - apply Rmin_l. }
    destruct (use_wavespeed_correction Hy); [destruct (Z.eqb _ _) |]; cbn [vec4];
      real_ops; lra.
  - intros Hgamma. unfold ComputeCellOpticalDepth, gamma_. cbv zeta.
    real_ops. apply Reqb_false in Hgamma. rewrite Hgamma. cbn [negb].
    unfold vdiv, vsmul, vmul, vadd, svmul, gasDensity_index, x1GasMomentum_index,
      x2GasMomentum_index, x3GasMomentum_index, gasEnergy_index. real_ops.
    reflexivity.
Qed.
(** ** The scaling of the unknowns of the exchange *)

Lemma clamp_loop_entry {T : Type} `{Scalar T} (m : nat) (lo : T) (a : nat -> T) (g : nat) :
  (g < m)%nat ->
  for_loop m (fun g a => if s_leb (a g) lo then upd a g lo else a) a g
  = if s_leb (a g) lo then lo else a g.
Proof.
  assert (Hother : forall k j, (k <= j)%nat ->
            for_loop k (fun g a => if s_leb (a g) lo then upd a g lo else a) a j = a j).
  { induction k as [| k IH]; intros j Hj; [reflexivity|].
    cbn [for_loop]. destruct (s_leb _ lo).
    - rewrite upd_neq by lia. apply IH. lia.
    - apply IH. lia. }
  induction m as [| m IH]; intros Hg; [lia|].
  cbn [for_loop]. destruct (Nat.eq_dec g m) as [-> | Hne].
  - rewrite (Hother m m (le_n m)).
    destruct (s_leb (a m) lo) eqn:E.
    + apply upd_eq.
    + now rewrite Hother.
  - destruct (s_leb (for_loop m _ a m) lo).
    + rewrite upd_neq by exact Hne. apply IH. lia.
    + apply IH. lia.
Qed.

(** X29. With [use_D_as_base], in exact arithmetic: the factor [tau0]
    that scales the unknowns of the Newton-Raphson loop is the optical
    depth [dt rho kappaP chat gamma] of the old state where that exceeds
    [1], and [1] elsewhere, so that it is at least [1] in every group; and
    the unknown [D] of a group times [tau0] is the source term [Rvec] that
    the set up computed: the rescaling never divides by less than [1] and
    loses nothing. *)
Theorem exchangeSetup_scaling (P : RadSystem_Traits R) (Hy : HyperParams R) (NAN : R)
    (std_pow : R -> R -> R) (ComputeTgasFromEint : R -> R -> (nat -> R) -> R)
    (ComputePlanckOpacity ComputeEnergyMeanOpacity ComputeFluxMeanOpacity : R -> R -> nat -> R)
    (integrate_planck_from_0_to_x : R -> R)
    (consPrev radEnergySource boundaries : nat -> R) (dt_radiation : R) (stage : Z) (g : nat) :
  use_D_as_base Hy = true ->
  (g < nGroups P)%nat ->
  let setup := exchangeSetup P Hy NAN std_pow ComputeTgasFromEint ComputePlanckOpacity
                 ComputeEnergyMeanOpacity ComputeFluxMeanOpacity integrate_planck_from_0_to_x
                 consPrev radEnergySource boundaries dt_radiation stage in
  let ex := fst setup in
  let st := snd setup in
  ex_tau0 ex g
  = Rmax 1 (ex_dt ex * ex_rho ex * kappaPVec st g * c_hat P * ex_lorentz_factor ex) /\
  1 <= ex_tau0 ex g /\
  D st g * ex_tau0 ex g = Rvec st g.
Proof.
  intros HD Hg setup ex st.
  assert (Htau0 : ex_tau0 ex g
    = Rmax 1 (ex_dt ex * ex_rho ex * kappaPVec st g * c_hat P * ex_lorentz_factor ex)).
  { unfold ex, st, setup, exchangeSetup. cbv zeta.
    destruct (lorentzFactors P NAN _) as [[l lv] lvv].
    cbn [fst snd ex_tau0 ex_dt ex_rho kappaPVec ex_lorentz_factor]. rewrite HD.
    match goal with
    | |- for_loop (nGroups_ P) ?body ?a g = _ =>
        change (for_loop (nGroups P) body a g = Rmax 1 (a g))
    end.
    rewrite clamp_loop_entry by exact Hg.
    unfold vsmul, svmul, c_hat_. real_ops.
    match goal with |- (if Rleb ?x 1 then _ else _) = _ => case_Rleb x 1 end.
    - now rewrite Rmax_left by lra.
    - now rewrite Rmax_right by lra. }
  assert (Hge : 1 <= ex_tau0 ex g) by (rewrite Htau0; apply Rmax_l).
  split; [exact Htau0 | split; [exact Hge|]].
  unfold ex, st, setup, exchangeSetup in *. cbv zeta in *.
  destruct (lorentzFactors P NAN _) as [[l lv] lvv].
  cbn [fst snd ex_tau0 D Rvec] in *. rewrite HD in *.
  unfold vdiv at 1. real_ops. field. lra.
Qed.

Lemma exchangeSetup_scaling_witness :
  1 <= ex_tau0 (fst (exchangeSetup unit_traits source_hyper 0 unit_power unit_temperature
                       unit_opacity unit_opacity unit_opacity (fun x => x)
                       equilibrium_cell (fun _ => 0) (fun g => INR g) 1 1%Z)) 0%nat.
Proof.
  assert (Hg : (0 < nGroups unit_traits)%nat) by (cbn; lia).
  exact (proj1 (proj2 (exchangeSetup_scaling unit_traits source_hyper 0 unit_power
                         unit_temperature unit_opacity unit_opacity unit_opacity
                         (fun x => x) equilibrium_cell (fun _ => 0) (fun g => INR g)
                         1 1%Z 0%nat eq_refl Hg))).
Defined.

(** ** The enforcement of validity in stage 2 *)

(** C7 at a failing input.  With the floor [Erad_floor = 0.] of the
    unspecialised traits, the valid state [E_r = 1], [F = 0] in [U0] and
    [U1], and fluxes of the new state that carry four units of energy out
    of the cell, the stage-2 candidate of [AddFluxesRK2] has the energy
    [0.5 + 0.5 - 0.5 * 4 = -1], and [isStateValid] rejects it.  The kernel
    amends it, the amended energy is the floor [0], and the state that
    the kernel stores is again one that [isStateValid] rejects, in exact
    arithmetic and on binary64 alike: the state is not valid when it is
    written, and the assertion [AMREX_ASSERT(isStateValid(cons_new))] that
    follows the amendment fails. *)
Theorem AddFluxesRK2_stores_invalid_state :
  let cand := AddFluxesRK2_candidate zero_floor_traits source_hyper Dim1
                isotropic_cell isotropic_cell no_flux energy_outflow 1 (fun _ => 1) in
  let out := AddFluxesRK2 zero_floor_traits source_hyper Dim1 zeros
               isotropic_cell isotropic_cell no_flux energy_outflow 1 (fun _ => 1) in
  isStateValid zero_floor_traits
    (fun n => isotropic_cell (radFirstIndex zero_floor_traits + n)%nat) = true /\
  cand 0%nat = -1 /\
  isStateValid zero_floor_traits cand = false /\
  out (radEnergy_index zero_floor_traits) = 0 /\
  isStateValid zero_floor_traits
    (fun n => out (radFirstIndex zero_floor_traits + n)%nat) = false /\
  isStateValid zero_floor_traits_binary64
    (fun n => AddFluxesRK2 zero_floor_traits_binary64 source_hyper Dim1 zeros
                isotropic_cell_binary64 isotropic_cell_binary64 no_flux_binary64
                energy_outflow_binary64 (float_ofZ 1) (fun _ => float_ofZ 1)
                (radFirstIndex zero_floor_traits_binary64 + n)%nat) = false.
Proof.
  intros cand out.
  assert (Hcand : cand 0%nat = -1) by (unfold cand; real_eval; lra).
  assert (Hinvalid : isStateValid zero_floor_traits cand = false).
  { apply not_true_iff_false. intros Hv.
    pose proof (proj1 (isStateValid_true_iff zero_floor_traits _) Hv 0%nat
                  ltac:(cbn; lia)) as Hg.
    unfold groupValid in Hg. apply andb_true_iff in Hg. destruct Hg as [Hpos _].
    real_ops. apply Rltb_true in Hpos. change (4 * 0)%nat with 0%nat in Hpos.
    rewrite Hcand in Hpos. lra. }
  assert (Hout : out (radEnergy_index zero_floor_traits) = 0).
  { unfold out, AddFluxesRK2. cbv zeta.
    change (radEnergy_index zero_floor_traits) with (radFirstIndex zero_floor_traits + 0)%nat.
    rewrite storeHyperbolic_entry by (cbn; lia).
    unfold enforceValidity. fold cand. rewrite Hinvalid. cbn [negb].
    change (amendRadState zero_floor_traits cand 0%nat)
      with (amendRadState zero_floor_traits cand (0 + 4 * 0)%nat).
    rewrite (amendRadState_entries zero_floor_traits cand 0 0) by (cbn; lia).
    change (4 * 0)%nat with 0%nat. rewrite Hcand.
    unfold amendedGroup, Erad_floor_, nGroups_. cbn. real_ops.
    replace (0 / 1) with 0 by lra.
    case_Rltb (-1) 0; [| lra].
    match goal with |- context [if ?b then _ else _] => destruct b end; reflexivity. }
  split; [| split; [exact Hcand | split; [exact Hinvalid | split; [exact Hout | split]]]].
  - real_eval. replace (0 * 0 + 0 * 0 + 0 * 0) with 0 by lra. rewrite sqrt_0.
    decide_real_tests. reflexivity.
  - apply not_true_iff_false. intros Hv.
    pose proof (proj1 (isStateValid_true_iff zero_floor_traits _) Hv 0%nat
                  ltac:(cbn; lia)) as Hg.
    unfold groupValid in Hg. apply andb_true_iff in Hg. destruct Hg as [Hpos _].
    real_ops. apply Rltb_true in Hpos.
    change (radFirstIndex zero_floor_traits + 4 * 0)%nat
      with (radEnergy_index zero_floor_traits) in Hpos.
    rewrite Hout in Hpos. lra.
  - vm_compute. reflexivity.
Qed.
